(** * FusedAdam: the Python bookkeeping around the fused Adam kernels

    Shallow embedding of [cosmos_transfer1/utils/fused_adam.py].

    The class [FusedAdam] keeps Python dictionaries (parameter groups, the
    per-parameter state, the master weights) and forwards tensors to three
    native entry points.  The embedding keeps the tensors in an explicit
    store addressed by references, so that aliasing and in-place updates are
    visible, threads the optimizer object through a state-and-exception
    monad (a Python exception leaves the mutations made so far in place),
    and records every closure invocation and kernel launch in a trace. *)

From Stdlib Require Import ZArith QArith List Bool Lia.
From stdpp Require Import base option list gmap strings.

Local Open Scope nat_scope.

(** ** Tensors *)

Inductive dtype :=
  | float16 | bfloat16 | float32 | float64 | int32 | int64.

#[global] Instance dtype_eq_dec : EqDecision dtype.
Proof. solve_decision. Defined.

Inductive device := cpu | cuda (n : nat).

#[global] Instance device_eq_dec : EqDecision device.
Proof. solve_decision. Defined.

(** A tensor value: element type, shape, device, layout (strided or
    sparse) and the elements, kept as exact rationals.  What a floating
    element type does to a rational is left to [fround] below. *)
Record Tensor := mkTensor {
  t_dtype : dtype;
  t_shape : list nat;
  t_device : device;
  t_sparse : bool;
  t_elems : list Q
}.

Definition numel (shape : list nat) : nat := fold_right Nat.mul 1 shape.

(** Tensors live in a store; a parameter is the reference of its storage,
    [p.data] is the same storage, and [p.grad] is an attribute of the
    parameter ([None] or the reference of the gradient tensor). *)
Definition ref := nat.

Record Heap := mkHeap {
  h_tensor : ref -> Tensor;
  h_grad : ref -> option ref;
  h_next : ref
}.

Definition alloc (t : Tensor) (h : Heap) : ref * Heap :=
  (h_next h,
   {| h_tensor := fun r => if decide (r = h_next h) then t else h_tensor h r;
      h_grad := h_grad h;
      h_next := S (h_next h) |}).

Definition set_elems (r : ref) (es : list Q) (h : Heap) : Heap :=
  {| h_tensor := fun r' =>
       if decide (r' = r)
       then let t := h_tensor h r in
            mkTensor (t_dtype t) (t_shape t) (t_device t) (t_sparse t) es
       else h_tensor h r';
     h_grad := h_grad h;
     h_next := h_next h |}.

(** ** Python values, exceptions *)

(** What [group["lr"]] and [group["step"]] hold: a Python number or a
    tensor. *)
Inductive pyval :=
  | PInt (z : Z)
  | PFloat (q : Q)
  | PTensor (r : ref).

Inductive exn :=
  | RuntimeError (msg : string)
  | ValueError (msg : string)
  | KeyError (key : string)
  | TypeError
  | AttributeError
  | OtherError (msg : string).

Inductive result (A : Type) :=
  | Ok (a : A)
  | Raise (e : exn).
Arguments Ok {A} a.
Arguments Raise {A} e.

(** ** The optimizer object *)

(** A parameter group: the dictionary built by [torch.optim.Optimizer]
    from the defaults, with the optional ["step"] key added by [step]. *)
Record Group := mkGroup {
  g_params : list ref;
  g_lr : pyval;
  g_bias_correction : option bool;
  g_betas : Q * Q;
  g_eps : Q;
  g_weight_decay : Q;
  g_step : option pyval
}.

Definition set_step (v : pyval) (g : Group) : Group :=
  mkGroup (g_params g) (g_lr g) (g_bias_correction g) (g_betas g)
          (g_eps g) (g_weight_decay g) (Some v).

Definition set_lr (v : pyval) (g : Group) : Group :=
  mkGroup (g_params g) v (g_bias_correction g) (g_betas g)
          (g_eps g) (g_weight_decay g) (g_step g).

(** [self]: [state] is the [defaultdict] keyed by parameter whose values
    are dictionaries from names to tensors; [dummy_overflow_buf] is the
    single [int] element of the one-element tensor [_dummy_overflow_buf];
    an entry of [param_groups_master] is the ["params"] list of one
    group. *)
Record FusedAdam := mkFusedAdam {
  param_groups : list Group;
  state : gmap ref (gmap string ref);
  adam_w_mode : Z;
  capturable : bool;
  master_weights : bool;
  param_groups_master : option (list (list (option ref)));
  dummy_overflow_buf : Z;
  step_supports_amp_scaling : bool
}.

(** ** Native entry points and the trace *)

Inductive entry_point :=
  | multi_tensor_adam
  | multi_tensor_adam_capturable
  | multi_tensor_adam_capturable_master.

#[global] Instance entry_point_eq_dec : EqDecision entry_point.
Proof. solve_decision. Defined.

(** One launch through [multi_tensor_applier]: the entry point, the value
    of the overflow buffer at the launch, the tensor lists and the scalar
    arguments in the order of the call. *)
Record KernelCall := mkCall {
  k_op : entry_point;
  k_noop_flag : Z;
  k_tensor_lists : list (list ref);
  k_lr : pyval;
  k_beta1 : Q;
  k_beta2 : Q;
  k_eps : Q;
  k_step : pyval;
  k_adam_w_mode : Z;
  k_bias_correction : Z;
  k_weight_decay : Q;
  k_inv_scale : option ref
}.

Inductive Event :=
  | EvClosure
  | EvKernel (c : KernelCall).

Record World := mkWorld {
  w_heap : Heap;
  w_self : FusedAdam;
  w_trace : list Event
}.

(** ** State and exception monad *)

Definition M (A : Type) : Type := World -> World * result A.

Definition mret {A} (a : A) : M A := fun w => (w, Ok a).

Definition mbind {A B} (m : M A) (k : A -> M B) : M B :=
  fun w => match m w with
           | (w', Ok a) => k a w'
           | (w', Raise e) => (w', Raise e)
           end.

Definition raise {A} (e : exn) : M A := fun w => (w, Raise e).

Declare Scope py_scope.
Delimit Scope py_scope with py.
Notation "'let*' x := m 'in' k" := (mbind m (fun x => k))
  (at level 10, x pattern, m at level 100, k at level 200) : py_scope.
Notation "m ;;; k" := (mbind m (fun _ => k))
  (at level 100, k at level 200, right associativity) : py_scope.
Local Open Scope py_scope.

Definition get_heap : M Heap := fun w => (w, Ok (w_heap w)).
Definition get_self : M FusedAdam := fun w => (w, Ok (w_self w)).
Definition put_heap (h : Heap) : M unit :=
  fun w => (mkWorld h (w_self w) (w_trace w), Ok tt).
Definition emit (e : Event) : M unit :=
  fun w => (mkWorld (w_heap w) (w_self w) (w_trace w ++ [e]), Ok tt).

Definition new_tensor (t : Tensor) : M ref :=
  fun w => let '(r, h) := alloc t (w_heap w) in
           (mkWorld h (w_self w) (w_trace w), Ok r).

Definition read (r : ref) : M Tensor :=
  fun w => (w, Ok (h_tensor (w_heap w) r)).

(** A [for] loop whose body may raise; [continue] is an early [mret]. *)
Fixpoint for_each {A} (body : A -> M unit) (l : list A) : M unit :=
  match l with
  | [] => mret tt
  | x :: l' => body x ;;; for_each body l'
  end.

(** A [for] loop that appends to local lists: the accumulator is threaded
    through the iterations. *)
Fixpoint for_acc {A S} (body : A -> S -> M S) (l : list A) (s : S) : M S :=
  match l with
  | [] => mret s
  | x :: l' => let* s' := body x s in for_acc body l' s'
  end.

Definition enumerate {A} (l : list A) : list (nat * A) :=
  zip (seq 0 (length l)) l.

(** ** What lies outside the file

    The numerics of the element types, the three kernels of [amp_C], the
    base class method [torch.optim.Optimizer.load_state_dict] and the
    helpers of [cosmos_transfer1.utils.distributed] are not defined in
    this file; the embedding takes them as parameters. *)
Section FusedAdam.

(** Rounding of a rational into a floating element type. *)
Variable fround : dtype -> Q -> Q.
(** [Tensor.reciprocal] on a [float64] element. *)
Variable freciprocal : Q -> Q.
(** What a kernel writes: given the launch and the store, the new
    elements of the tensors of the tensor lists, list by list.  The Adam
    kernels only read the overflow buffer and the scalar arguments. *)
Variable adam_kernel : KernelCall -> Heap -> list (list (list Q)).
(** The device chosen by [Tensor.cuda()]. *)
Variable current_cuda : nat.
(** [distributed.get_rank()] and what [distributed.broadcast(t, 0)] leaves
    in [t]. *)
Variable get_rank : nat.
Variable broadcast : Tensor -> list Q.
(** [super().load_state_dict(state_dict)]. *)
Variable StateDict : Type.
Variable base_load_state_dict : StateDict -> M unit.

(** *** Element conversions *)

Definition trunc (q : Q) : Z := Z.quot (Qnum q) (Zpos (Qden q)).

Definition wrap (bits : Z) (z : Z) : Z :=
  ((z + 2 ^ (bits - 1)) mod 2 ^ bits - 2 ^ (bits - 1))%Z.

Definition is_floating (d : dtype) : bool :=
  match d with
  | float16 | bfloat16 | float32 | float64 => true
  | int32 | int64 => false
  end.

Definition cast (d : dtype) (q : Q) : Q :=
  match d with
  | int32 => inject_Z (wrap 32 (trunc q))
  | int64 => inject_Z (wrap 64 (trunc q))
  | _ => fround d q
  end.

Definition t_cast (d : dtype) (t : Tensor) : Tensor :=
  mkTensor d (t_shape t) (t_device t) (t_sparse t)
           (map (cast d) (t_elems t)).

(** [t.to(dtype=d)] on a tensor value ([t.float()], [t.double()]): no
    conversion when the element type is [d] already. *)
Definition t_to (d : dtype) (t : Tensor) : Tensor :=
  if decide (t_dtype t = d) then t else t_cast d t.

Definition t_reciprocal (t : Tensor) : Tensor :=
  mkTensor (t_dtype t) (t_shape t) (t_device t) (t_sparse t)
           (map freciprocal (t_elems t)).

Definition t_on (dev : device) (t : Tensor) : Tensor :=
  mkTensor (t_dtype t) (t_shape t) dev (t_sparse t) (t_elems t).

Definition zeros_like (t : Tensor) : Tensor :=
  mkTensor (t_dtype t) (t_shape t) (t_device t) (t_sparse t)
           (repeat 0%Q (numel (t_shape t))).

(** [t.float()]: the tensor itself when it is [float32] already, a
    converted copy otherwise. *)
Definition float_ (r : ref) : M ref :=
  let* t := read r in
  if decide (t_dtype t = float32) then mret r
  else new_tensor (t_cast float32 t).

(** [t.to(device=dev)]: the tensor itself when it is on [dev] already. *)
Definition to_device (dev : device) (r : ref) : M ref :=
  let* t := read r in
  if decide (t_device t = dev) then mret r
  else new_tensor (t_on dev t).

(** [t.cuda()]. *)
Definition cuda_ (r : ref) : M ref :=
  let* t := read r in
  match t_device t with
  | cuda _ => mret r
  | cpu => new_tensor (t_on (cuda current_cuda) t)
  end.

Definition in_int32 (z : Z) : bool :=
  ((- 2 ^ 31 <=? z) && (z <? 2 ^ 31))%Z.

(** [torch.tensor(x, dtype=d, device=dev)] for a Python number [x] (a
    0-dimensional tensor), [torch.tensor([x], ...)] with [shape = [1]]. *)
Definition tensor_of_number (d : dtype) (shape : list nat) (dev : device)
    (x : Q) : M ref :=
  if is_floating d then new_tensor (mkTensor d shape dev false [fround d x])
  else if in_int32 (trunc x) || negb (bool_decide (d = int32))
  then new_tensor (mkTensor d shape dev false [cast d x])
  else raise (RuntimeError
    "value cannot be converted to type int32 without overflow").

Definition write_elems (r : ref) (es : list Q) : M unit :=
  fun w => (mkWorld (set_elems r es (w_heap w)) (w_self w) (w_trace w),
            Ok tt).

(** [t += s] for a Python number [s]. *)
Definition iadd_scalar (r : ref) (s : Q) : M unit :=
  let* t := read r in
  write_elems r (map (fun x => cast (t_dtype t) (x + s)%Q) (t_elems t)).

(** [t += u] for a one-element [int] tensor [u] of shape [(1,)]: the
    result of broadcasting must have the shape of [t], which rules out a
    0-dimensional [t]. *)
Definition iadd_flag (r : ref) (u : Z) : M unit :=
  let* t := read r in
  match t_shape t with
  | [] => raise (RuntimeError
      "output with shape [] doesn't match the broadcast shape [1]")
  | _ :: _ =>
      write_elems r
        (map (fun x => cast (t_dtype t) (x + inject_Z u)%Q) (t_elems t))
  end.

Definition modify_self (f : FusedAdam -> FusedAdam) : M unit :=
  fun w => (mkWorld (w_heap w) (f (w_self w)) (w_trace w), Ok tt).

Definition with_groups (gs : list Group) (s : FusedAdam) : FusedAdam :=
  mkFusedAdam gs (state s) (adam_w_mode s) (capturable s)
    (master_weights s) (param_groups_master s) (dummy_overflow_buf s)
    (step_supports_amp_scaling s).

Definition with_state (st : gmap ref (gmap string ref)) (s : FusedAdam)
    : FusedAdam :=
  mkFusedAdam (param_groups s) st (adam_w_mode s) (capturable s)
    (master_weights s) (param_groups_master s) (dummy_overflow_buf s)
    (step_supports_amp_scaling s).

Definition with_master (m : option (list (list (option ref))))
    (s : FusedAdam) : FusedAdam :=
  mkFusedAdam (param_groups s) (state s) (adam_w_mode s) (capturable s)
    (master_weights s) m (dummy_overflow_buf s)
    (step_supports_amp_scaling s).

Definition with_buf (b : Z) (s : FusedAdam) : FusedAdam :=
  mkFusedAdam (param_groups s) (state s) (adam_w_mode s) (capturable s)
    (master_weights s) (param_groups_master s) b
    (step_supports_amp_scaling s).

(** [group[key] = v] on the [i]-th group: the dictionary is shared with
    [self.param_groups], so the assignment is visible there. *)
Definition assign_step (i : nat) (v : pyval) : M unit :=
  modify_self (fun s => with_groups (alter (set_step v) i (param_groups s)) s).

Definition assign_lr (i : nat) (v : pyval) : M unit :=
  modify_self (fun s => with_groups (alter (set_lr v) i (param_groups s)) s).

(** *** [FusedAdam.step] *)

(** The gradient scaler, as far as [step] uses it:
    [_check_inf_per_device(self)] returns a dictionary from devices to
    tensors that depends on the gradients, [_get_scale_async()] returns the
    scale tensor or [None].  The object defines neither [__bool__] nor
    [__len__], so [if grad_scaler:] holds exactly when it is not [None]. *)
Record GradScaler := mkScaler {
  check_inf_per_device : Heap -> device -> option Tensor;
  get_scale_async : option Tensor
}.

(** The closure reevaluates the model: it acts on the store and returns
    the loss or raises. *)
Definition Closure : Type := Heap -> Heap * result pyval.

Definition call_closure (c : Closure) : M pyval :=
  fun w => let '(h, r) := c (w_heap w) in
           (mkWorld h (w_self w) (w_trace w ++ [EvClosure]), r).

(** Lines 154-163: the master weights are built when
    [param_groups_master] is [None]. *)
Definition master_of (mw : bool) (p : ref) : M (option ref) :=
  if mw then
    let* t := read p in
    let* c := new_tensor t in              (* p.clone().detach() *)
    let* m := float_ c in                  (* .float() *)
    mret (Some m)
  else mret None.

Fixpoint master_list (mw : bool) (ps : list ref) : M (list (option ref)) :=
  match ps with
  | [] => mret []
  | p :: ps' =>
      let* m := master_of mw p in
      let* ms := master_list mw ps' in
      mret (m :: ms)
  end.

Fixpoint master_groups (mw : bool) (gs : list Group)
    : M (list (list (option ref))) :=
  match gs with
  | [] => mret []
  | g :: gs' =>
      let* m := master_list mw (g_params g) in
      let* ms := master_groups mw gs' in
      mret (m :: ms)
  end.

Definition create_master : M unit :=
  let* s := get_self in
  match param_groups_master s with
  | Some _ => mret tt
  | None =>
      let* ms := master_groups (master_weights s) (param_groups s) in
      modify_self (with_master (Some ms))
  end.

(** Lines 174-185: the step counter of the [i]-th group.  An augmented
    assignment [group["step"] += x] updates a tensor in place and stores
    the result under the key again. *)
Definition update_step (i : nat) (g : Group) (dev : device) : M pyval :=
  let* s := get_self in
  match g_step g with
  | Some v =>
      if capturable s then
        let* r := match v with
                  | PTensor r => to_device dev r
                  | PInt z => tensor_of_number int32 [] dev (inject_Z z)
                  | PFloat q => tensor_of_number int32 [] dev q
                  end in
        assign_step i (PTensor r) ;;;
        iadd_flag r (if (dummy_overflow_buf s =? 1)%Z then 0 else 1)%Z ;;;
        assign_step i (PTensor r) ;;;
        mret (PTensor r)
      else
        match v with
        | PInt z => assign_step i (PInt (z + 1)) ;;; mret (PInt (z + 1)%Z)
        | PFloat q =>
            assign_step i (PFloat (q + 1)) ;;; mret (PFloat (q + 1)%Q)
        | PTensor r =>
            iadd_scalar r 1 ;;; assign_step i (PTensor r) ;;;
            mret (PTensor r)
        end
  | None =>
      if capturable s then
        let* r := new_tensor (mkTensor int32 [1] dev false [1%Q]) in
        assign_step i (PTensor r) ;;; mret (PTensor r)
      else assign_step i (PInt 1) ;;; mret (PInt 1)
  end.

(** Lines 187-192. *)
Definition update_lr (i : nat) (g : Group) (dev : device) : M pyval :=
  let* s := get_self in
  if capturable s then
    let* r := match g_lr g with
              | PTensor r => to_device dev r
              | PInt z => tensor_of_number float32 [] dev (inject_Z z)
              | PFloat q => tensor_of_number float32 [] dev q
              end in
    assign_lr i (PTensor r) ;;; mret (PTensor r)
  else mret (g_lr g).

(** The lists of one precision: gradients, parameters, first and second
    moments, master weights (lines 195-200). *)
Record Bucket := mkBucket {
  b_g : list ref;
  b_p : list ref;
  b_m : list ref;
  b_v : list ref;
  b_master : list ref
}.

Record Buckets := mkBuckets {
  b16 : Bucket;
  bbf : Bucket;
  b32 : Bucket
}.

Definition empty_bucket : Bucket := mkBucket [] [] [] [] [].
Definition empty_buckets : Buckets :=
  mkBuckets empty_bucket empty_bucket empty_bucket.

Definition push (gr p m v : ref) (master : list ref) (b : Bucket) : Bucket :=
  mkBucket (b_g b ++ [gr]) (b_p b ++ [p]) (b_m b ++ [m]) (b_v b ++ [v])
           (b_master b ++ master).

(** [state = self.state[p]]: the [defaultdict] creates the empty
    dictionary of a parameter at its first access. *)
Definition state_of (p : ref) : M (gmap string ref) :=
  let* s := get_self in
  match state s !! p with
  | Some d => mret d
  | None => modify_self (with_state (<[p := ∅]> (state s))) ;;; mret ∅
  end.

Definition state_set (p : ref) (key : string) (r : ref) : M unit :=
  modify_self (fun s =>
    with_state (<[p := <[key := r]> (default ∅ (state s !! p))]> (state s)) s).

Definition state_get (d : gmap string ref) (key : string) : M ref :=
  match d !! key with
  | Some r => mret r
  | None => raise (KeyError key)
  end.

(** [p_master.data] when [self.master_weights] holds. *)
Definition master_data (mw : bool) (p_master : option ref) : M (list ref) :=
  if mw then
    match p_master with
    | Some m => mret [m]
    | None => raise AttributeError
    end
  else mret [].

(** Lines 210-216: the state of a parameter, initialized when its
    dictionary is empty. *)
Definition init_state (p : ref) : M (gmap string ref) :=
  let* d := state_of p in
  if decide (size d = 0) then
    let* t := read p in
    let* m := new_tensor (t_to float32 (zeros_like t)) in
    state_set p "exp_avg" m ;;;
    let* t := read p in
    let* v := new_tensor (t_to float32 (zeros_like t)) in
    state_set p "exp_avg_sq" v ;;;
    mret (<["exp_avg_sq" := v]> (<["exp_avg" := m]> d))
  else mret d.

(** Lines 218-240: the parameter goes to the lists of its element
    type. *)
Definition place (p gr : ref) (p_master : option ref)
    (d : gmap string ref) (bs : Buckets) : M Buckets :=
  let* s := get_self in
  let* t := read p in
  match t_dtype t with
  | float16 =>
      let* ms := master_data (master_weights s) p_master in
      let* m := state_get d "exp_avg" in
      let* v := state_get d "exp_avg_sq" in
      mret (mkBuckets (push gr p m v ms (b16 bs)) (bbf bs) (b32 bs))
  | bfloat16 =>
      let* ms := master_data (master_weights s) p_master in
      let* m := state_get d "exp_avg" in
      let* v := state_get d "exp_avg_sq" in
      mret (mkBuckets (b16 bs) (push gr p m v ms (bbf bs)) (b32 bs))
  | float32 =>
      let* ms := master_data (master_weights s) p_master in
      let* m := state_get d "exp_avg" in
      let* v := state_get d "exp_avg_sq" in
      mret (mkBuckets (b16 bs) (bbf bs) (push gr p m v ms (b32 bs)))
  | _ => raise (RuntimeError "FusedAdam only support fp16 and fp32.")
  end.

(** Lines 202-240: the body of the loop over the parameters of a group. *)
Definition visit_param (pm : ref * option ref) (bs : Buckets) : M Buckets :=
  let '(p, p_master) := pm in
  let* h := get_heap in
  match h_grad h p with
  | None => mret bs
  | Some gr =>
      let* tg := read gr in
      if t_sparse tg then
        raise (RuntimeError
          "FusedAdam does not support sparse gradients, please consider SparseAdam instead")
      else
        let* d := init_state p in
        place p gr p_master d bs
  end.

(** [multi_tensor_applier(op, self._dummy_overflow_buf, lists, ...)]: the
    launch is recorded and the kernel writes the tensors of the lists. *)
Fixpoint write_list (rs : list ref) (vs : list (list Q)) (h : Heap) : Heap :=
  match rs, vs with
  | r :: rs', v :: vs' => write_list rs' vs' (set_elems r v h)
  | _, _ => h
  end.

Fixpoint write_lists (rss : list (list ref)) (vss : list (list (list Q)))
    (h : Heap) : Heap :=
  match rss, vss with
  | rs :: rss', vs :: vss' => write_lists rss' vss' (write_list rs vs h)
  | _, _ => h
  end.

Definition multi_tensor_applier (op : entry_point) (lists : list (list ref))
    (lr : pyval) (beta1 beta2 eps : Q) (stp : pyval) (mode bias : Z)
    (wd : Q) (inv_scale : option ref) : M unit :=
  let* s := get_self in
  let c := mkCall op (dummy_overflow_buf s) lists lr beta1 beta2 eps stp
                  mode bias wd inv_scale in
  emit (EvKernel c) ;;;
  let* h := get_heap in
  put_heap (write_lists lists (adam_kernel c h) h).

(** [self._dummy_overflow_buf.copy_(found_inf)]: the source must broadcast
    to the shape [(1,)] of the buffer; its element is converted to
    [int]. *)
Definition copy_to_buf (found_inf : Tensor) : M unit :=
  match t_elems found_inf, t_shape found_inf with
  | [x], ([] | [_]) =>
      modify_self (with_buf (wrap 32 (trunc x)))
  | _, _ => raise (RuntimeError
      "The size of tensor a must match the size of tensor b")
  end.

(** Lines 246-260: overflow check and unscale factor of the capturable
    path; the result is [inv_scale]. *)
Definition scaler_prelude (grad_scaler : option GradScaler) (dev : device)
    : M ref :=
  let* h := get_heap in
  let* found_inf :=
    match grad_scaler with
    | Some sc =>
        match check_inf_per_device sc h dev with
        | Some t => mret t
        | None => raise (KeyError "device")
        end
    | None => mret (mkTensor float32 [1] dev false [0%Q])
    end in
  copy_to_buf found_inf ;;;
  match grad_scaler with
  | Some sc =>
      match get_scale_async sc with
      | Some scale =>
          new_tensor (t_to float32 (t_reciprocal (t_to float64 scale)))
      | None => raise AttributeError
      end
  | None => new_tensor (mkTensor float32 [1] dev false [1%Q])
  end.

Definition lists_of (with_master : bool) (b : Bucket) : list (list ref) :=
  if with_master then [b_g b; b_p b; b_m b; b_v b; b_master b]
  else [b_g b; b_p b; b_m b; b_v b].

(** Lines 242-365: the launches of one group.  [dev],
    [bias_correction], [beta1], [beta2] and the buckets [bs] are the local
    variables of the iteration; [stp] and [lr] are what [group["step"]]
    and [group["lr"]] hold since lines 174-192. *)
Definition launch_group (grad_scaler : option GradScaler) (dev : device)
    (g : Group) (stp lr : pyval) (bias_correction : Z) (beta1 beta2 : Q)
    (bs : Buckets) : M unit :=
  let* s := get_self in
  if capturable s then
    let* inv_scale := scaler_prelude grad_scaler dev in
    (if 0 <? length (b_g (b16 bs)) then
       multi_tensor_applier
         (if master_weights s then multi_tensor_adam_capturable_master
          else multi_tensor_adam_capturable)
         (lists_of (master_weights s) (b16 bs))
         lr beta1 beta2 (g_eps g) stp (adam_w_mode s) bias_correction
         (g_weight_decay g) (Some inv_scale)
     else mret tt) ;;;
    (if 0 <? length (b_g (bbf bs)) then
       multi_tensor_applier
         (if master_weights s then multi_tensor_adam_capturable_master
          else multi_tensor_adam_capturable)
         (lists_of (master_weights s) (bbf bs))
         lr beta1 beta2 (g_eps g) stp (adam_w_mode s) bias_correction
         (g_weight_decay g) (Some inv_scale)
     else mret tt) ;;;
    (if 0 <? length (b_g (b32 bs)) then
       multi_tensor_applier
         (if master_weights s then multi_tensor_adam_capturable_master
          else multi_tensor_adam_capturable)
         (lists_of (master_weights s) (b32 bs))
         lr beta1 beta2 (g_eps g) stp (adam_w_mode s) bias_correction
         (g_weight_decay g) (Some inv_scale)
     else mret tt)
  else
    (if 0 <? length (b_g (b16 bs)) then
       multi_tensor_applier multi_tensor_adam (lists_of false (b16 bs))
         lr beta1 beta2 (g_eps g) stp (adam_w_mode s) bias_correction
         (g_weight_decay g) None
     else mret tt) ;;;
    (if 0 <? length (b_g (bbf bs)) then
       multi_tensor_applier multi_tensor_adam (lists_of false (bbf bs))
         lr beta1 beta2 (g_eps g) stp (adam_w_mode s) bias_correction
         (g_weight_decay g) None
     else mret tt) ;;;
    (if 0 <? length (b_g (b32 bs)) then
       multi_tensor_applier multi_tensor_adam (lists_of false (b32 bs))
         lr beta1 beta2 (g_eps g) stp (adam_w_mode s) bias_correction
         (g_weight_decay g) None
     else mret tt).

(** Lines 165-365: the body of the loop over the parameter groups, for
    the [i]-th group [g] and its master weights [gm]. *)
Definition step_group (grad_scaler : option GradScaler)
    (x : nat * Group * list (option ref)) : M unit :=
  let '(i, g, gm) := x in
  match g_params g with
  | [] => mret tt
  | p0 :: _ =>
      let* t0 := read p0 in
      let dev := t_device t0 in
      let bias_correction :=
        match g_bias_correction g with Some true => 1%Z | _ => 0%Z end in
      let* stp := update_step i g dev in
      let* lr := update_lr i g dev in
      let* bs := for_acc visit_param (zip (g_params g) gm) empty_buckets in
      launch_group grad_scaler dev g stp lr bias_correction
                   (g_betas g).1 (g_betas g).2 bs
  end.

Definition is_not_none {A} (o : option A) : bool :=
  match o with Some _ => true | None => false end.

Definition deprecated_message : string :=
  "FusedAdam has been updated. Simply initialize it identically to torch.optim.Adam, and call step() with no arguments.".

(** [FusedAdam.step] (lines 136-367).  The loss is [None] without a
    closure. *)
Definition step (closure : option Closure)
    (grads output_params scale grad_norms : option pyval)
    (grad_scaler : option GradScaler) : M (option pyval) :=
  if existsb is_not_none [grads; output_params; scale; grad_norms] then
    raise (RuntimeError deprecated_message)
  else
    let* loss := match closure with
                 | Some c => let* l := call_closure c in mret (Some l)
                 | None => mret None
                 end in
    create_master ;;;
    let* s := get_self in
    match param_groups_master s with
    | Some ms =>
        for_each (step_group grad_scaler)
                 (zip (enumerate (param_groups s)) ms) ;;;
        mret loss
    | None => raise TypeError
    end.

(** *** [FusedAdam.__init__] *)

(** An element of [params]: the parameters of a group and the learning
    rate given for the group, if any. *)
Record ParamGroupSpec := mkSpec {
  ps_params : list ref;
  ps_lr : option pyval
}.

Definition blank : FusedAdam :=
  mkFusedAdam [] ∅ 0 false false None 0 false.

(** [torch.optim.Optimizer.__init__(params, defaults)], as far as this
    class relies on it: an empty [params] is refused, every group gets the
    defaults for the keys it does not give, and the state is empty. *)
Definition base_init (params : list ParamGroupSpec) (lr : pyval)
    (bias_correction : bool) (betas : Q * Q) (eps weight_decay : Q)
    : M unit :=
  match params with
  | [] => raise (ValueError "optimizer got an empty parameter list")
  | _ :: _ =>
      modify_self (fun s =>
        with_state ∅
          (with_groups
             (map (fun ps => mkGroup (ps_params ps) (default lr (ps_lr ps))
                                     (Some bias_correction) betas eps
                                     weight_decay None) params) s))
  end.

(** [torch.optim.Optimizer.add_param_group(group)], which the class
    inherits: the dictionary of the group, completed with the defaults,
    is appended to [self.param_groups]. *)
Definition add_param_group (g : Group) : M unit :=
  modify_self (fun s => with_groups (param_groups s ++ [g]) s).

Definition with_flags (mode : Z) (cap mw : bool) (s : FusedAdam)
    : FusedAdam :=
  mkFusedAdam (param_groups s) (state s) mode cap mw None
    (dummy_overflow_buf s) (step_supports_amp_scaling s).

Definition with_amp_scaling (b : bool) (s : FusedAdam) : FusedAdam :=
  mkFusedAdam (param_groups s) (state s) (adam_w_mode s) (capturable s)
    (master_weights s) (param_groups_master s) (dummy_overflow_buf s) b.

(** Lines 114-121: the learning rate of a group of the capturable
    optimizer becomes a tensor on the device of its first parameter. *)
Definition init_group_lr (x : nat * Group) : M unit :=
  let '(idx, group) := x in
  match g_params group with
  | [] => mret tt
  | p0 :: _ =>
      let* t0 := read p0 in
      let* r := match g_lr group with
                | PFloat q =>
                    let* r := tensor_of_number float32 [] cpu q in
                    to_device (t_device t0) r
                | PTensor r => to_device (t_device t0) r
                | PInt _ => raise AttributeError
                end in
      assign_lr idx (PTensor r)
  end.

(** [__init__] on the object under construction; [available] is
    [multi_tensor_applier.available]. *)
Definition init_body (params : list ParamGroupSpec) (lr : Q)
    (bias_correction : bool) (betas : Q * Q) (eps : Q) (adam_w : bool)
    (weight_decay : Q) (amsgrad cap mw : bool) (available : bool)
    : M unit :=
  if amsgrad then
    raise (RuntimeError "FusedAdam does not support the AMSGrad variant.")
  else if mw && negb cap then
    raise (RuntimeError
      "Master weights is currently only supported with the capturable version.")
  else
    let* lr := (if cap then
                  let* r := tensor_of_number float32 [] cpu lr in
                  mret (PTensor r)
                else mret (PFloat lr)) in
    base_init params lr bias_correction betas eps weight_decay ;;;
    modify_self (with_flags (if adam_w then 1 else 0) cap mw) ;;;
    (if cap then
       let* s := get_self in
       for_each init_group_lr (enumerate (param_groups s)) ;;;
       modify_self (with_amp_scaling true)
     else mret tt) ;;;
    if available then modify_self (with_buf 0)
    else raise (RuntimeError
      "apex.optimizers.FusedAdam requires cuda extensions").

(** The constructor: a new object, or the exception. *)
Definition init (params : list ParamGroupSpec) (lr : Q)
    (bias_correction : bool) (betas : Q * Q) (eps : Q) (adam_w : bool)
    (weight_decay : Q) (amsgrad cap mw : bool) (available : bool)
    (h : Heap) : Heap * result FusedAdam :=
  match init_body params lr bias_correction betas eps adam_w weight_decay
                  amsgrad cap mw available (mkWorld h blank []) with
  | (w, Ok _) => (w_heap w, Ok (w_self w))
  | (w, Raise e) => (w_heap w, Raise e)
  end.

(** *** [FusedAdam.load_state_dict] *)

(** [t.item()]. *)
Definition item (r : ref) : M pyval :=
  let* t := read r in
  match t_elems t with
  | [x] => mret (if is_floating (t_dtype t) then PFloat x
                 else PInt (trunc x))
  | _ => raise (RuntimeError
      "a Tensor with several elements cannot be converted to Scalar")
  end.

(** Lines 394-398. *)
Definition load_param (p : ref) : M unit :=
  let* d := state_of p in
  match d !! "exp_avg" with
  | Some m =>
      let* m' := float_ m in
      state_set p "exp_avg" m' ;;;
      let* v := state_get d "exp_avg_sq" in
      let* v' := float_ v in
      state_set p "exp_avg_sq" v'
  | None => mret tt
  end.

(** Lines 372-377: the learning rate of the [i]-th group. *)
Definition load_lr (i : nat) (g : Group) : M unit :=
  let* s := get_self in
  if capturable s then
    let* r := match g_lr g with
              | PTensor r => cuda_ r
              | PInt z =>
                  let* r := tensor_of_number float32 [] cpu (inject_Z z) in
                  cuda_ r
              | PFloat q =>
                  let* r := tensor_of_number float32 [] cpu q in cuda_ r
              end in
    assign_lr i (PTensor r)
  else mret tt.

(** Lines 379-393: the step counter of the [i]-th group. *)
Definition load_step (i : nat) (g : Group) : M unit :=
  let* s := get_self in
  match g_step g with
  | Some v =>
      if capturable s then
        let* stp :=
          (if get_rank =? 0 then
             match v with
             | PTensor r => cuda_ r
             | PInt z =>
                 let* r := tensor_of_number int32 [1] cpu (inject_Z z) in
                 cuda_ r
             | PFloat q =>
                 let* r := tensor_of_number int32 [1] cpu q in cuda_ r
             end
           else
             let* r := new_tensor (mkTensor int32 [1] cpu false [0%Q]) in
             cuda_ r) in
        let* t := read stp in
        write_elems stp (broadcast t) ;;;
        assign_step i (PTensor stp)
      else
        match v with
        | PTensor r => let* x := item r in assign_step i x
        | _ => mret tt
        end
  | None => mret tt
  end.

(** Lines 371-398: the body of the loop over the groups. *)
Definition load_group (x : nat * Group) : M unit :=
  let '(i, g) := x in
  load_lr i g ;;;
  load_step i g ;;;
  for_each load_param (g_params g).

Definition load_state_dict (state_dict : StateDict) : M unit :=
  base_load_state_dict state_dict ;;;
  let* s := get_self in
  for_each load_group (enumerate (param_groups s)).

(** ** Notions used by the statements *)

(** The entry point the flags select. *)
Definition entry_for (cap mw : bool) : entry_point :=
  if cap then
    if mw then multi_tensor_adam_capturable_master
    else multi_tensor_adam_capturable
  else multi_tensor_adam.

Definition nonempty (b : Bucket) : bool := 0 <? length (b_g b).

(** The launch that hands bucket [b] to entry point [op]. *)
Definition launches (op : entry_point) (with_master : bool) (b : Bucket)
    (c : KernelCall) : Prop :=
  k_op c = op /\ k_tensor_lists c = lists_of with_master b.

(** [keeps R m]: whatever the outcome of [m], the world it leaves is
    related by [R] to the world it started from. *)
Definition keeps {A} (R : World -> World -> Prop) (m : M A) : Prop :=
  forall w, R w (m w).1.

(** [same f]: the aspect [f] of the world is unchanged. *)
Definition same {X} (f : World -> X) (w w' : World) : Prop := f w' = f w.

(** The part of the optimizer that [step] never assigns: the flags, the
    parameters of the groups and the gradients the parameters point to. *)
Definition flags_of (w : World) : bool * bool * Z :=
  (capturable (w_self w), master_weights (w_self w), adam_w_mode (w_self w)).

Definition params_of (w : World) : list (list ref) :=
  map g_params (param_groups (w_self w)).

Definition grads_of (w : World) : ref -> option ref := h_grad (w_heap w).

Definition states_of (w : World) : gmap ref (gmap string ref) :=
  state (w_self w).

Definition master_of_world (w : World)
    : option (list (list (option ref))) :=
  param_groups_master (w_self w).

(** A kernel event that is a launch of the entry point selected by the
    flags, on a non-empty bucket. *)
Definition selected_launch (fl : bool * bool * Z) (e : Event) : Prop :=
  match e with
  | EvClosure => True
  | EvKernel c =>
      exists b, nonempty b = true /\
        launches (entry_for fl.1.1 fl.1.2) (fl.1.1 && fl.1.2) b c
  end.

(** The trace grows by selected launches only, under unchanged flags. *)
Definition launches_selected (w w' : World) : Prop :=
  flags_of w' = flags_of w /\
  exists evs, w_trace w' = w_trace w ++ evs /\
              Forall (selected_launch (flags_of w)) evs.

(** The world only gained tensors: the optimizer object, the trace, the
    gradients and every tensor that existed are as they were. *)
Definition only_allocates (w w' : World) : Prop :=
  w_self w' = w_self w /\
  w_trace w' = w_trace w /\
  h_grad (w_heap w') = h_grad (w_heap w) /\
  h_next (w_heap w) <= h_next (w_heap w') /\
  forall r, r < h_next (w_heap w) ->
            h_tensor (w_heap w') r = h_tensor (w_heap w) r.

(** The entry of [param_groups_master] for parameter [p], built between
    the stores [h0] and [h]: with master weights, a tensor that did not
    exist in [h0] and holds the [float32] conversion of the value [p] had
    in [h0]; without, [None]. *)
Definition master_entry (mw : bool) (h0 h : Heap) (p : ref)
    (e : option ref) : Prop :=
  if mw then
    exists m, e = Some m /\ h_next h0 <= m /\ m < h_next h /\
              h_tensor h m = t_to float32 (h_tensor h0 p)
  else e = None.

(** The world in which [step] goes on after the closure, if any. *)
Definition after_closure (closure : option Closure) (w : World) : World :=
  match closure with
  | Some c => (call_closure c w).1
  | None => w
  end.

Definition closure_returns (closure : option Closure) (w : World) : Prop :=
  match closure with
  | Some c => exists l, (call_closure c w).2 = Ok l
  | None => True
  end.

(** Master weights that exist stay the same list. *)
Definition master_stays (w w' : World) : Prop :=
  forall ms, master_of_world w = Some ms -> master_of_world w' = Some ms.

(** Every parameter of every group is a tensor of the store. *)
Definition params_allocated (w : World) : Prop :=
  Forall (Forall (fun p => p < h_next (w_heap w))) (params_of w).

(** The master weights, once built, list one entry per parameter of each
    group.  The constructor establishes this and [step] keeps it; the
    inherited [add_param_group], called after the first [step], breaks
    it. *)
Definition master_aligned (w : World) : Prop :=
  match master_of_world w with
  | None => True
  | Some ms =>
      Forall2 (fun g (m : list (option ref)) =>
                 length (g_params g) = length m)
              (param_groups (w_self w)) ms
  end.

(** Alignment carried from one world to a later one. *)
Definition stays_aligned (w w' : World) : Prop :=
  master_aligned w -> master_aligned w'.

(** The value under the key ["step"] of the [i]-th group. *)
Definition step_at (i : nat) (w : World) : option (option pyval) :=
  g_step <$> (param_groups (w_self w) !! i).

(** The counter of the non-capturable mode after one more call. *)
Definition next_counter (v : option pyval) : pyval :=
  match v with
  | None => PInt 1
  | Some (PInt z) => PInt (z + 1)
  | Some (PFloat q) => PFloat (q + 1)
  | Some (PTensor r) => PTensor r
  end.

(** The one-element [int] tensor added to the counter of the capturable
    mode: [(self._dummy_overflow_buf != 1).to(torch.int)]. *)
Definition overflow_increment (buf : Z) : Z :=
  if (buf =? 1)%Z then 0%Z else 1%Z.

(** The dictionary [self.state[p]] holds both moments. *)
Definition has_moments (w : World) (p : ref) : Prop :=
  exists d m v,
    state (w_self w) !! p = Some d /\
    d !! "exp_avg" = Some m /\ d !! "exp_avg_sq" = Some v.

(** A dictionary of [self.state] that is not empty is left as it is: the
    same keys bound to the same tensors. *)
Definition state_stays (w w' : World) : Prop :=
  forall p d,
    state (w_self w) !! p = Some d -> d <> ∅ ->
    state (w_self w') !! p = Some d.

(** The store only gained tensors. *)
Definition heap_grows (w w' : World) : Prop :=
  h_grad (w_heap w') = h_grad (w_heap w) /\
  h_next (w_heap w) <= h_next (w_heap w') /\
  forall r, r < h_next (w_heap w) ->
            h_tensor (w_heap w') r = h_tensor (w_heap w) r.

(** The [float32] tensor of zeros shaped like [t]. *)
Definition zero_moment (t : Tensor) : Tensor :=
  mkTensor float32 (t_shape t) (t_device t) (t_sparse t)
           (repeat 0%Q (numel (t_shape t))).

(** The bucket of an element type, if it has one. *)
Definition bucket_for (d : dtype) (bs : Buckets) : option Bucket :=
  match d with
  | float16 => Some (b16 bs)
  | bfloat16 => Some (bbf bs)
  | float32 => Some (b32 bs)
  | _ => None
  end.

(** [bs'] is [bs] with the four tensors of a parameter (and [ms], its
    master weight if any) appended to the bucket of [d], the other two
    buckets being as they were. *)
Definition placed (d : dtype) (gr p m v : ref) (ms : list ref)
    (bs bs' : Buckets) : Prop :=
  match d with
  | float16 =>
      bs' = mkBuckets (push gr p m v ms (b16 bs)) (bbf bs) (b32 bs)
  | bfloat16 =>
      bs' = mkBuckets (b16 bs) (push gr p m v ms (bbf bs)) (b32 bs)
  | float32 =>
      bs' = mkBuckets (b16 bs) (bbf bs) (push gr p m v ms (b32 bs))
  | _ => False
  end.

(** The parameters among [ps] that have a gradient and element type
    [d]. *)
Definition selected (h : Heap) (d : dtype) (ps : list ref) : list ref :=
  List.filter (fun p => is_not_none (h_grad h p) &&
                        bool_decide (t_dtype (h_tensor h p) = d)) ps.

(** The lists of bucket [b] belong together: the gradient and the two
    moments stand at the position of their parameter. *)
Definition bucket_of_params (w : World) (ps : list ref) (b : Bucket)
    : Prop :=
  b_p b = ps /\
  Forall2 (fun p gr => h_grad (w_heap w) p = Some gr) ps (b_g b) /\
  Forall2 (fun p m => exists d, state (w_self w) !! p = Some d /\
                                d !! "exp_avg" = Some m) ps (b_m b) /\
  Forall2 (fun p v => exists d, state (w_self w) !! p = Some d /\
                                d !! "exp_avg_sq" = Some v) ps (b_v b).

(** Bucket [b] is [b0] followed by the parameters [ps] with their
    gradients and moments. *)
Definition extends (w : World) (ps : list ref) (b0 b : Bucket) : Prop :=
  exists gs ms vs,
    b_p b = b_p b0 ++ ps /\ b_g b = b_g b0 ++ gs /\
    b_m b = b_m b0 ++ ms /\ b_v b = b_v b0 ++ vs /\
    Forall2 (fun p gr => h_grad (w_heap w) p = Some gr) ps gs /\
    Forall2 (fun p m => exists d, state (w_self w) !! p = Some d /\
                                  d !! "exp_avg" = Some m) ps ms /\
    Forall2 (fun p v => exists d, state (w_self w) !! p = Some d /\
                                  d !! "exp_avg_sq" = Some v) ps vs.

(** An event that does not hand tensor [p] to a kernel. *)
Definition clean_event (p : ref) (e : Event) : Prop :=
  match e with
  | EvClosure => True
  | EvKernel c => p ∉ concat (k_tensor_lists c)
  end.

(** Tensor [p] is a tensor of the store with a storage of its own: it is
    not the gradient of a parameter, nor a tensor of a state dictionary,
    nor a master weight, nor a step counter. *)
Definition apart (p : ref) (w : World) : Prop :=
  p < h_next (w_heap w) /\
  (forall q gr, h_grad (w_heap w) q = Some gr -> gr <> p) /\
  (forall q d k r, state (w_self w) !! q = Some d -> d !! k = Some r ->
                   r <> p) /\
  (forall g, g ∈ param_groups (w_self w) -> g_step g <> Some (PTensor p)) /\
  (forall ms gm, param_groups_master (w_self w) = Some ms -> gm ∈ ms ->
                 Some p ∉ gm).

(** The invariant of a parameter without gradient during [step]: it stays
    apart, its value is [t0], and the events after [tr0] do not mention
    it. *)
Definition untouched (p : ref) (t0 : Tensor) (tr0 : list Event)
    (w : World) : Prop :=
  apart p w /\
  h_grad (w_heap w) p = None /\
  h_tensor (w_heap w) p = t0 /\
  exists evs, w_trace w = tr0 ++ evs /\ Forall (clean_event p) evs.

Definition clean_bucket (p : ref) (b : Bucket) : Prop :=
  (p ∉ b_g b) /\ (p ∉ b_p b) /\ (p ∉ b_m b) /\ (p ∉ b_v b) /\
  (p ∉ b_master b).

Definition clean_buckets (p : ref) (bs : Buckets) : Prop :=
  clean_bucket p (b16 bs) /\ clean_bucket p (bbf bs) /\
  clean_bucket p (b32 bs).

(** [m] keeps the invariant [U], and the value it returns satisfies
    [Q]. *)
Definition keeps_inv {A} (U : World -> Prop) (m : M A) (Q : A -> Prop)
    : Prop :=
  forall w, U w -> U (m w).1 /\ forall a, (m w).2 = Ok a -> Q a.

(** As long as [p] has no gradient, its entry in [self.state] is
    unchanged. *)
Definition state_kept (p : ref) (w w' : World) : Prop :=
  grads_of w p = None ->
  grads_of w' p = None /\
  state (w_self w') !! p = state (w_self w) !! p.

(** [t.item()] as a Python number, for a tensor of one element. *)
Definition item_value (t : Tensor) : option pyval :=
  match t_elems t with
  | [x] => Some (if is_floating (t_dtype t) then PFloat x
                 else PInt (trunc x))
  | _ => None
  end.

(** When the state of [p] contains ["exp_avg"], both moments are
    [float32] tensors. *)
Definition moments_float32 (w : World) (p : ref) : Prop :=
  forall d m,
    state (w_self w) !! p = Some d -> d !! "exp_avg" = Some m ->
    t_dtype (h_tensor (w_heap w) m) = float32 /\
    exists v, d !! "exp_avg_sq" = Some v /\
              t_dtype (h_tensor (w_heap w) v) = float32.

(** The tensors of the state dictionaries are tensors of the store. *)
Definition state_allocated (w : World) : Prop :=
  forall p d k r,
    state (w_self w) !! p = Some d -> d !! k = Some r ->
    r < h_next (w_heap w).

(** The tensors that exist keep their element type. *)
Definition dtypes_kept (w w' : World) : Prop :=
  h_next (w_heap w) <= h_next (w_heap w') /\
  forall r, r < h_next (w_heap w) ->
            t_dtype (h_tensor (w_heap w') r) =
              t_dtype (h_tensor (w_heap w) r).

(** What every part of [load_state_dict] keeps, from a world whose state
    tensors are allocated. *)
Definition loads_well (w w' : World) : Prop :=
  state_allocated w ->
  state_allocated w' /\ dtypes_kept w w' /\
  forall p, moments_float32 w p -> moments_float32 w' p.

(** ** Notions for the behaviour around the loop *)

(** What the closure hands back to [step]: its loss ([None] without a
    closure) or its exception. *)
Definition loss_of (closure : option Closure) (w : World)
    : result (option pyval) :=
  match closure with
  | None => Ok None
  | Some c =>
      match (c (w_heap w)).2 with
      | Ok l => Ok (Some l)
      | Raise e => Raise e
      end
  end.


(** The dictionary of the [i]-th group. *)
Definition group_at (i : nat) (w : World) : option Group :=
  param_groups (w_self w) !! i.

(** The trace grew by kernel launches only. *)
Definition only_launches (w w' : World) : Prop :=
  exists cs, w_trace w' = w_trace w ++ map EvKernel cs.

(** The keys of a group that [step] only reads. *)
Definition hyper_of (g : Group)
    : list ref * option bool * (Q * Q) * Q * Q :=
  (g_params g, g_bias_correction g, g_betas g, g_eps g, g_weight_decay g).

Definition hypers_of (w : World)
    : list (list ref * option bool * (Q * Q) * Q * Q) :=
  map hyper_of (param_groups (w_self w)).

(** The learning rates of the groups and the overflow buffer. *)
Definition rates_of (w : World) : list pyval * Z :=
  (map g_lr (param_groups (w_self w)), dummy_overflow_buf (w_self w)).

(** In a non-capturable optimizer the mode, the learning rates and the
    overflow buffer are as they were. *)
Definition rates_stay (w w' : World) : Prop :=
  capturable (w_self w) = false ->
  capturable (w_self w') = false /\ rates_of w' = rates_of w.

(** The lists of a bucket have one entry per parameter; the list of the
    master weights too when master weights are kept, and it is empty
    otherwise. *)
Definition balanced (mw : bool) (b : Bucket) : Prop :=
  length (b_g b) = length (b_p b) /\
  length (b_m b) = length (b_p b) /\
  length (b_v b) = length (b_p b) /\
  length (b_master b) = (if mw then length (b_p b) else 0).

(** The scalar arguments a launch for group [g] must carry, apart from
    the counter and the learning rate. *)
Definition carries (g : Group) (mode : Z) (c : KernelCall) : Prop :=
  k_beta1 c = (g_betas g).1 /\ k_beta2 c = (g_betas g).2 /\
  k_eps c = g_eps g /\ k_weight_decay c = g_weight_decay g /\
  k_adam_w_mode c = mode /\
  k_bias_correction c =
    match g_bias_correction g with Some true => 1%Z | _ => 0%Z end.

(** No parameter of a group has a gradient. *)
Definition no_gradients (w : World) : Prop :=
  forall p, p ∈ concat (params_of w) -> grads_of w p = None.

(** A value of a group's dictionary that is a tensor. *)
Definition is_tensor (v : pyval) : Prop := exists r, v = PTensor r.

(** [n] calls of [step()] in a row, without closure, as a training loop
    makes them; the loop stops at the first call that raises. *)
Fixpoint step_times (sc : option GradScaler) (n : nat) : M unit :=
  match n with
  | 0 => mret tt
  | S k => step None None None None None sc ;;; step_times sc k
  end.

(** An overflow buffer that is clear stays clear. *)
Definition clear_stays (w w' : World) : Prop :=
  dummy_overflow_buf (w_self w) = 0%Z ->
  dummy_overflow_buf (w_self w') = 0%Z.


(** ** A small optimizer

    Three parameters in one group: [0] is [float16] with gradient [3],
    [1] is [float32] without gradient, [2] is [bfloat16] with gradient
    [4]; tensor [5] is a [float64] parameter with gradient [6] that
    belongs to no group. *)

Definition ex_tensor (d : dtype) (x y : Z) : Tensor :=
  mkTensor d [2] (cuda 0) false [inject_Z x; inject_Z y].

Definition ex_heap : Heap :=
  mkHeap (fun r => match r with
                   | 0 => ex_tensor float16 10 11
                   | 1 => ex_tensor float32 20 21
                   | 2 => ex_tensor bfloat16 30 31
                   | 3 => ex_tensor float16 1 2
                   | 4 => ex_tensor bfloat16 3 4
                   | 5 => ex_tensor float64 50 51
                   | _ => ex_tensor float64 5 6
                   end)
         (fun r => match r with
                   | 0 => Some 3
                   | 2 => Some 4
                   | 5 => Some 6
                   | _ => None
                   end)
         7.

Definition ex_group : Group :=
  mkGroup [0; 1; 2] (PFloat (1 # 1000)) (Some true)
          (9 # 10, 999 # 1000)%Q (1 # 100000000) 0%Q None.

(** The optimizer as [__init__] leaves it, non-capturable and
    capturable with master weights. *)
Definition ex_adam : FusedAdam :=
  mkFusedAdam [ex_group] ∅ 1 false false None 0 false.

Definition ex_adam_capturable : FusedAdam :=
  mkFusedAdam [ex_group] ∅ 1 true true None 0 true.

Definition ex_world : World := mkWorld ex_heap ex_adam [].
Definition ex_world_capturable : World :=
  mkWorld ex_heap ex_adam_capturable [].

(** Exact arithmetic stands for the rounding, and a kernel that adds one
    to every element it is given stands for the Adam update. *)
Definition ex_round (d : dtype) (q : Q) : Q := q.

Definition ex_kernel (c : KernelCall) (h : Heap) : list (list (list Q)) :=
  map (map (fun r => map (fun x => (x + 1)%Q) (t_elems (h_tensor h r))))
      (k_tensor_lists c).


(** The world after the base class has loaded a checkpoint: the moments
    of parameter [0] arrive as [float16] tensors [7] and [8], the counter
    of the group as the [int64] tensor [9] holding [3]. *)
Definition ex_loaded : World :=
  mkWorld
    (mkHeap (fun r => match r with
                      | 7 => ex_tensor float16 0 1
                      | 8 => ex_tensor float16 2 3
                      | 9 => mkTensor int64 [1] cpu false [3%Q]
                      | _ => h_tensor ex_heap r
                      end)
            (h_grad ex_heap) 10)
    (mkFusedAdam
       [mkGroup [0; 1; 2] (PFloat (1 # 1000)) (Some true)
                (9 # 10, 999 # 1000)%Q (1 # 100000000) 0%Q
                (Some (PTensor 9))]
       (<[0 := <["exp_avg" := 7]> (<["exp_avg_sq" := 8]> ∅)]> ∅)
       1 false false None 0 false)
    [].

(** The base class, for the examples: the state dictionary is the world
    to install. *)
Definition ex_base_load (state_dict : World) : M unit :=
  fun _ => (state_dict, Ok tt).

(** The parameters of the group with their master weights (there are
    none), and the buckets the loop over them builds. *)
Definition ex_params : list (ref * option ref) :=
  [(0, None); (1, None); (2, None)].

Definition ex_collected : Buckets :=
  mkBuckets (mkBucket [3] [0] [7] [8] []) (mkBucket [4] [2] [9] [10] [])
            empty_bucket.

(** Closures: one that returns a loss and one that fails. *)
Definition ex_closure : Closure := fun h => (h, Ok (PFloat 1)).
Definition ex_closure_fails : Closure :=
  fun h => (h, Raise (OtherError "backward failed")).

(** The small optimizer when the gradient [4] of parameter [2] is a
    sparse tensor. *)
Definition ex_world_sparse : World :=
  mkWorld
    (mkHeap (fun r => match r with
                      | 4 => mkTensor bfloat16 [2] (cuda 0) true []
                      | _ => h_tensor ex_heap r
                      end)
            (h_grad ex_heap) 7)
    ex_adam [].

(** The small optimizer before any [backward()]: no gradient. *)
Definition ex_world_idle : World :=
  mkWorld (mkHeap (h_tensor ex_heap) (fun _ => None) 7) ex_adam [].

(** After the first call, a group without parameters and a group for
    parameter [5] have been added: the master weights list one group. *)
Definition ex_empty_group : Group :=
  mkGroup [] (PFloat (1 # 1000)) (Some true)
          (9 # 10, 999 # 1000)%Q (1 # 100000000) 0%Q None.

Definition ex_late_group : Group :=
  mkGroup [5] (PFloat (1 # 100)) None
          (9 # 10, 999 # 1000)%Q (1 # 100000000) 0%Q None.

Definition ex_world_grown : World :=
  mkWorld ex_heap
    (mkFusedAdam [ex_group; ex_late_group; ex_empty_group] ∅ 1 false false
                 (Some [[None; None; None]]) 0 false)
    [].

(** A state that another optimizer has left for parameter [0]: it holds
    a counter but no moments. *)
Definition ex_world_foreign : World :=
  mkWorld ex_heap
    (mkFusedAdam [ex_group] (<[0 := <["step" := 1]> ∅]> ∅) 1 false false
                 None 0 false)
    [].

(** A checkpoint that lacks the second moment of parameter [0]. *)
Definition ex_loaded_partial : World :=
  mkWorld (w_heap ex_loaded)
    (mkFusedAdam (param_groups (w_self ex_loaded))
       (<[0 := <["exp_avg" := 7]> ∅]> ∅) 1 false false None 0 false)
    [].

(** The checkpoint of [ex_loaded] in a capturable optimizer. *)
Definition ex_loaded_capturable : World :=
  mkWorld (w_heap ex_loaded)
    (mkFusedAdam (param_groups (w_self ex_loaded))
       (state (w_self ex_loaded)) 1 true false None 0 true)
    [].

Definition ex_counted_group : Group :=
  mkGroup [0; 1; 2] (PFloat (1 # 1000)) (Some true)
          (9 # 10, 999 # 1000)%Q (1 # 100000000) 0%Q (Some (PInt 3)).



(** What [__init__] builds in capturable mode for the three parameters:
    the learning rate is created as tensor [7] on the CPU and moved, as
    tensor [8], to the device of the parameters. *)
Definition ex_adam_built : FusedAdam :=
  mkFusedAdam
    [mkGroup [0; 1; 2] (PTensor 8) (Some true) (9 # 10, 999 # 1000)%Q
             (1 # 100000000) 0%Q None]
    ∅ 1 true false None 0 true.

(** A model with one more layer: besides the tensors of [ex_heap],
    parameter [7] is [float32] with gradient [8].  The optimizer is built
    for the first three parameters; the group [ex_late_layers], with
    parameter [7] and the [float64] parameter [5], is added later with
    [add_param_group]. *)
Definition ex_heap_wide : Heap :=
  mkHeap (fun r => match r with
                   | 7 => ex_tensor float32 70 71
                   | 8 => ex_tensor float32 7 8
                   | _ => h_tensor ex_heap r
                   end)
         (fun r => match r with
                   | 7 => Some 8
                   | _ => h_grad ex_heap r
                   end)
         9.

Definition ex_world_wide : World := mkWorld ex_heap_wide ex_adam [].

Definition ex_late_layers : Group :=
  mkGroup [7; 5] (PFloat (1 # 1000)) (Some true)
          (9 # 10, 999 # 1000)%Q (1 # 100000000) 0%Q None.

(** ** Relations kept by monadic code *)

#[global] Instance same_preorder {X} (f : World -> X) : PreOrder (same f).
Proof.
  split; [by intros w | intros w1 w2 w3 H1 H2; unfold same in *; congruence].
Qed.

Section keeps.
Context (R : World -> World -> Prop) `{!PreOrder R}.

Lemma keeps_ret {A} (a : A) : keeps R (mret a).
Proof. intros w. simpl. reflexivity. Qed.

Lemma keeps_raise {A} (e : exn) : keeps R (@raise A e).
Proof. intros w. simpl. reflexivity. Qed.

Lemma keeps_bind {A B} (m : M A) (k : A -> M B) :
  keeps R m -> (forall a, keeps R (k a)) -> keeps R (mbind m k).
Proof.
  intros Hm Hk w. unfold mbind. specialize (Hm w).
  destruct (m w) as [w1 [a|e]]; simpl in *; [|done].
  etransitivity; [exact Hm | apply Hk].
Qed.

Lemma keeps_for_each {A} (body : A -> M unit) l :
  (forall x, x ∈ l -> keeps R (body x)) -> keeps R (for_each body l).
Proof.
  induction l as [|x l IH]; intros Hb; simpl.
  - apply keeps_ret.
  - apply keeps_bind; [apply Hb, list_elem_of_here | intros _; apply IH].
    intros y Hy. by apply Hb, list_elem_of_further.
Qed.

Lemma keeps_for_acc {A S} (body : A -> S -> M S) l s :
  (forall x s0, x ∈ l -> keeps R (body x s0)) ->
  keeps R (for_acc body l s).
Proof.
  revert s. induction l as [|x l IH]; intros s Hb; simpl.
  - apply keeps_ret.
  - apply keeps_bind; [apply Hb, list_elem_of_here | intros s1; apply IH].
    intros y s0 Hy. by apply Hb, list_elem_of_further.
Qed.

Lemma keeps_get_heap : keeps R get_heap.
Proof. intros w. simpl. reflexivity. Qed.

Lemma keeps_get_self : keeps R get_self.
Proof. intros w. simpl. reflexivity. Qed.

Lemma keeps_read r : keeps R (read r).
Proof. intros w. simpl. reflexivity. Qed.
End keeps.

(** Decomposition of a [keeps] goal along the structure of the code. *)
Ltac keeps_step :=
  lazymatch goal with
  | |- keeps _ (mbind _ _) => apply keeps_bind; [try apply _| |intros ?]
  | |- keeps _ (mret _) => apply keeps_ret; try apply _
  | |- keeps _ (raise _) => apply keeps_raise; try apply _
  | |- keeps _ get_heap => apply keeps_get_heap; try apply _
  | |- keeps _ get_self => apply keeps_get_self; try apply _
  | |- keeps _ (read _) => apply keeps_read; try apply _
  | |- keeps _ (for_each _ _) =>
      apply keeps_for_each; [try apply _ | intros ? ?]
  | |- keeps _ (for_acc _ _ _) =>
      apply keeps_for_acc; [try apply _ | intros ? ? ?]
  | |- keeps _ (match ?x with _ => _ end) => destruct x
  end.

Create HintDb keeps discriminated.

Ltac keeps_prim := intros ?w; unfold same; reflexivity.

Ltac keeps_tac :=
  repeat first [ solve [eauto with keeps] | keeps_step | solve [keeps_prim] ].

Lemma mbind_ok {A B} (m : M A) (k : A -> M B) w w' b :
  mbind m k w = (w', Ok b) ->
  exists w1 a, m w = (w1, Ok a) /\ k a w1 = (w', Ok b).
Proof.
  unfold mbind. destruct (m w) as [w1 [a|e]]; [|done]. by exists w1, a.
Qed.

(** A property established by the iteration of an element and kept by the
    later iterations holds for every element after a loop that ended
    normally; [I] is an invariant of the loop. *)
Lemma for_each_ok_all {A} (body : A -> M unit) (I : World -> Prop)
    (P : A -> World -> Prop) l w w' :
  I w ->
  (forall x w0, x ∈ l -> I w0 -> I (body x w0).1) ->
  (forall x w0 w1, x ∈ l -> I w0 -> body x w0 = (w1, Ok tt) -> P x w1) ->
  (forall a b x y w0, a < b -> l !! a = Some x -> l !! b = Some y ->
     I w0 -> P x w0 -> P x (body y w0).1) ->
  for_each body l w = (w', Ok tt) ->
  forall x, x ∈ l -> P x w'.
Proof.
  revert w. induction l as [|x0 l IH]; intros w HI Hinv Hpost Hstab Hrun x Hx.
  - by apply elem_of_nil in Hx.
  - simpl in Hrun. apply mbind_ok in Hrun as (w1 & [] & E1 & Hrun).
    assert (I w1) as HI1.
    { specialize (Hinv x0 w (list_elem_of_here _ _) HI). by rewrite E1 in Hinv. }
    assert (forall w2 w3, I w2 -> P x0 w2 ->
              for_each body l w2 = (w3, Ok tt) -> P x0 w3) as Hkeep.
    { clear IH Hrun Hx x HI1 E1 HI w w1 Hpost.
      assert (forall k y, l !! k = Some y ->
                forall w0, I w0 -> P x0 w0 -> P x0 (body y w0).1) as Hs.
      { intros k y Hk w0 H0 HP.
        apply (Hstab 0 (S k) x0 y w0); [lia|done|done|done|done]. }
      assert (forall y w0, y ∈ l -> I w0 -> I (body y w0).1) as Hi.
      { intros y w0 Hy. apply Hinv. by apply list_elem_of_further. }
      clear Hstab Hinv. induction l as [|y l IHl]; intros w2 w3 H2 HP Hr.
      - by injection Hr as <-.
      - simpl in Hr. apply mbind_ok in Hr as (w4 & [] & E4 & Hr).
        apply (IHl) with (w2 := w4); try done.
        + intros k z Hk. apply (Hs (S k) z Hk).
        + intros z w0 Hz. apply Hi. by apply list_elem_of_further.
        + specialize (Hi y w2 (list_elem_of_here _ _) H2). by rewrite E4 in Hi.
        + specialize (Hs 0 y eq_refl w2 H2 HP). by rewrite E4 in Hs. }
    apply elem_of_cons in Hx as [->|Hx].
    + apply (Hkeep w1 w'); [done| |done].
      apply (Hpost x0 w w1); [apply list_elem_of_here|done|done].
    + apply (IH w1); try done.
      * intros y w0 Hy. apply Hinv. by apply list_elem_of_further.
      * intros y w0 w2 Hy. apply Hpost. by apply list_elem_of_further.
      * intros a b y z w0 Hab Ha Hb. apply (Hstab (S a) (S b)); [lia|done|done].
Qed.

Lemma for_acc_ok_all {A S} (body : A -> S -> M S) (I : World -> Prop)
    (P : A -> World -> Prop) l s w w' s' :
  I w ->
  (forall x s0 w0, x ∈ l -> I w0 -> I (body x s0 w0).1) ->
  (forall x s0 w0 w1 s1, x ∈ l -> I w0 ->
     body x s0 w0 = (w1, Ok s1) -> P x w1) ->
  (forall x y s0 w0, x ∈ l -> y ∈ l -> I w0 -> P x w0 ->
     P x (body y s0 w0).1) ->
  for_acc body l s w = (w', Ok s') ->
  forall x, x ∈ l -> P x w'.
Proof.
  revert s w. induction l as [|x0 l IH];
    intros s w HI Hinv Hpost Hstab Hrun x Hx.
  - by apply elem_of_nil in Hx.
  - simpl in Hrun. apply mbind_ok in Hrun as (w1 & s1 & E1 & Hrun).
    assert (I w1) as HI1.
    { specialize (Hinv x0 s w (list_elem_of_here _ _) HI).
      by rewrite E1 in Hinv. }
    assert (forall s2 w2 w3 s3, I w2 -> P x w2 ->
              for_acc body l s2 w2 = (w3, Ok s3) -> P x w3) as Hkeep.
    { clear IH Hrun HI1 E1 HI w w1 Hpost s s1.
      assert (forall y s0 w0, y ∈ l -> I w0 -> P x w0 ->
                P x (body y s0 w0).1) as Hs.
      { intros y s0 w0 Hy. apply Hstab; [done|].
        by apply list_elem_of_further. }
      assert (forall y s0 w0, y ∈ l -> I w0 -> I (body y s0 w0).1) as Hi.
      { intros y s0 w0 Hy. apply Hinv. by apply list_elem_of_further. }
      clear Hstab Hinv Hx. induction l as [|y l IHl];
        intros s2 w2 w3 s3 H2 HP Hr.
      - by injection Hr as <- _.
      - simpl in Hr. apply mbind_ok in Hr as (w4 & s4 & E4 & Hr).
        apply (IHl) with (s2 := s4) (w2 := w4) (s3 := s3); try done.
        + intros z s0 w0 Hz. apply Hs. by apply list_elem_of_further.
        + intros z s0 w0 Hz. apply Hi. by apply list_elem_of_further.
        + specialize (Hi y s2 w2 (list_elem_of_here _ _) H2).
          by rewrite E4 in Hi.
        + specialize (Hs y s2 w2 (list_elem_of_here _ _) H2 HP).
          by rewrite E4 in Hs. }
    apply elem_of_cons in Hx as [->|Hx].
    + apply (Hkeep s1 w1 w' s'); [done| |done].
      apply (Hpost x0 s w w1 s1); [apply list_elem_of_here|done|done].
    + apply (IH s1 w1); try done.
      * intros y s0 w0 Hy. apply Hinv. by apply list_elem_of_further.
      * intros y s0 w0 w2 s2 Hy. apply Hpost. by apply list_elem_of_further.
      * intros y z s0 w0 Hy Hz. apply Hstab; by apply list_elem_of_further.
Qed.

Lemma mbind_run {A B} (m : M A) (k : A -> M B) w w1 a :
  m w = (w1, Ok a) -> mbind m k w = k a w1.
Proof. unfold mbind. by intros ->. Qed.

Lemma mbind_raise {A B} (m : M A) (k : A -> M B) w w1 e :
  m w = (w1, Raise e) -> mbind m k w = (w1, Raise e).
Proof. unfold mbind. by intros ->. Qed.

Lemma mbind_ret_world {A B} (m : M A) (b : B) w :
  (mbind m (fun _ => mret b) w).1 = (m w).1.
Proof. unfold mbind. by destruct (m w) as [w1 [a|e]]. Qed.

(** ** What the parts of [step] keep

    A relation kept by the elementary updates is kept by the code built
    from them. *)
Section keeps_step.
Context (R : World -> World -> Prop) `{!PreOrder R}.
Hypothesis Hnew : forall t, keeps R (new_tensor t).
Hypothesis Hwrite : forall r es, keeps R (write_elems r es).

#[local] Hint Resolve Hnew Hwrite : keeps.

Lemma keeps_float_ r : keeps R (float_ r).
Proof. unfold float_. keeps_tac. Qed.

Lemma keeps_to_device dev r : keeps R (to_device dev r).
Proof. unfold to_device. keeps_tac. Qed.

Lemma keeps_cuda_ r : keeps R (cuda_ r).
Proof. unfold cuda_. keeps_tac. Qed.

Lemma keeps_tensor_of_number d sh dev x :
  keeps R (tensor_of_number d sh dev x).
Proof. unfold tensor_of_number. keeps_tac. Qed.

Lemma keeps_iadd_scalar r s : keeps R (iadd_scalar r s).
Proof. unfold iadd_scalar. keeps_tac. Qed.

Lemma keeps_iadd_flag r u : keeps R (iadd_flag r u).
Proof. unfold iadd_flag. keeps_tac. Qed.

Lemma keeps_state_get d k : keeps R (state_get d k).
Proof. unfold state_get. keeps_tac. Qed.

Lemma keeps_master_data mw pm : keeps R (master_data mw pm).
Proof. unfold master_data. keeps_tac. Qed.

Lemma keeps_item r : keeps R (item r).
Proof. unfold item. keeps_tac. Qed.

#[local] Hint Resolve keeps_float_ keeps_to_device keeps_cuda_
  keeps_tensor_of_number keeps_iadd_scalar keeps_iadd_flag keeps_state_get
  keeps_master_data keeps_item : keeps.

Lemma keeps_place p gr pm d bs : keeps R (place p gr pm d bs).
Proof. unfold place. keeps_tac. Qed.

(** The counter and the learning rate of group [i]. *)
Section group.
Variable i : nat.
Hypothesis Hstep : forall v, keeps R (assign_step i v).
Hypothesis Hlr : forall v, keeps R (assign_lr i v).

#[local] Hint Resolve Hstep Hlr : keeps.

Lemma keeps_update_step g dev : keeps R (update_step i g dev).
Proof. unfold update_step. keeps_tac. Qed.

Lemma keeps_update_lr g dev : keeps R (update_lr i g dev).
Proof. unfold update_lr. keeps_tac. Qed.

Lemma keeps_load_lr g : keeps R (load_lr i g).
Proof. unfold load_lr. keeps_tac. Qed.

Lemma keeps_load_step g : keeps R (load_step i g).
Proof. unfold load_step. keeps_tac. Qed.
End group.

(** The state of parameter [p]. *)
Section param.
Variable p : ref.
Hypothesis Hstate : forall st, keeps R (modify_self (with_state st)).
Hypothesis Hset : forall k r, keeps R (state_set p k r).

#[local] Hint Resolve Hstate Hset : keeps.

Lemma keeps_state_of : keeps R (state_of p).
Proof. unfold state_of. keeps_tac. Qed.

#[local] Hint Resolve keeps_state_of : keeps.

Lemma keeps_init_state : keeps R (init_state p).
Proof. unfold init_state. keeps_tac. Qed.

#[local] Hint Resolve keeps_init_state keeps_place : keeps.

Lemma keeps_visit_param pm bs : keeps R (visit_param (p, pm) bs).
Proof. unfold visit_param. keeps_tac. Qed.

Lemma keeps_load_param : keeps R (load_param p).
Proof. unfold load_param. keeps_tac. Qed.
End param.

Section launch.
Hypothesis Hbuf : forall b, keeps R (modify_self (with_buf b)).
Hypothesis Happlier : forall op lists lr beta1 beta2 eps stp mode bias
    wd inv,
  keeps R (multi_tensor_applier op lists lr beta1 beta2 eps stp mode
                                bias wd inv).

#[local] Hint Resolve Hbuf Happlier : keeps.

Lemma keeps_copy_to_buf t : keeps R (copy_to_buf t).
Proof. unfold copy_to_buf. keeps_tac. Qed.

#[local] Hint Resolve keeps_copy_to_buf : keeps.

Lemma keeps_scaler_prelude sc dev : keeps R (scaler_prelude sc dev).
Proof. unfold scaler_prelude. keeps_tac. Qed.

#[local] Hint Resolve keeps_scaler_prelude : keeps.

Lemma keeps_launch_group sc dev g stp lr bias beta1 beta2 bs :
  keeps R (launch_group sc dev g stp lr bias beta1 beta2 bs).
Proof. unfold launch_group. keeps_tac. Qed.
End launch.
End keeps_step.

(** The iteration for a group is its four parts in sequence. *)
Lemma keeps_step_group_parts (R : World -> World -> Prop) `{!PreOrder R}
    sc i g gm :
  (forall dev, keeps R (update_step i g dev)) ->
  (forall dev, keeps R (update_lr i g dev)) ->
  (forall pm bs, pm ∈ zip (g_params g) gm -> keeps R (visit_param pm bs)) ->
  (forall dev stp lr bias beta1 beta2 bs,
     keeps R (launch_group sc dev g stp lr bias beta1 beta2 bs)) ->
  keeps R (step_group sc (i, g, gm)).
Proof.
  intros H1 H2 H3 H4. unfold step_group.
  destruct (g_params g) as [|p0 ps] eqn:E; [by apply keeps_ret|].
  apply keeps_bind; [done|by apply keeps_read|intros t0].
  apply keeps_bind; [done|apply H1|intros stp].
  apply keeps_bind; [done|apply H2|intros lr].
  apply keeps_bind; [done| |intros bs; apply H4].
  apply keeps_for_acc; [done|]. intros pm bs Hpm. by apply H3.
Qed.

Lemma keeps_load_group_parts (R : World -> World -> Prop) `{!PreOrder R}
    i g :
  keeps R (load_lr i g) -> keeps R (load_step i g) ->
  (forall p, p ∈ g_params g -> keeps R (load_param p)) ->
  keeps R (load_group (i, g)).
Proof.
  intros H1 H2 H3. unfold load_group.
  apply keeps_bind; [done|done|intros _].
  apply keeps_bind; [done|done|intros _].
  by apply keeps_for_each.
Qed.

(** A relation kept by all the elementary updates is kept by the
    iteration. *)
Lemma keeps_step_group (R : World -> World -> Prop) `{!PreOrder R} sc x :
  (forall t, keeps R (new_tensor t)) ->
  (forall r es, keeps R (write_elems r es)) ->
  (forall i v, keeps R (assign_step i v)) ->
  (forall i v, keeps R (assign_lr i v)) ->
  (forall st, keeps R (modify_self (with_state st))) ->
  (forall p k r, keeps R (state_set p k r)) ->
  (forall b, keeps R (modify_self (with_buf b))) ->
  (forall op lists lr beta1 beta2 eps stp mode bias wd inv,
     keeps R (multi_tensor_applier op lists lr beta1 beta2 eps stp mode bias
                                   wd inv)) ->
  keeps R (step_group sc x).
Proof.
  intros. destruct x as [[i g] gm]. apply keeps_step_group_parts; try done.
  - intros. by apply keeps_update_step.
  - intros. by apply keeps_update_lr.
  - intros [p pm] bs _. by apply keeps_visit_param.
  - intros. by apply keeps_launch_group.
Qed.

Section keeps_master.
Context (R : World -> World -> Prop) `{!PreOrder R}.
Hypothesis Hnew : forall t, keeps R (new_tensor t).
Hypothesis Hmaster : forall m, keeps R (modify_self (with_master m)).

#[local] Hint Resolve Hnew Hmaster : keeps.

Lemma keeps_master_of mw p : keeps R (master_of mw p).
Proof. unfold master_of, float_. keeps_tac. Qed.

Lemma keeps_master_list mw ps : keeps R (master_list mw ps).
Proof.
  induction ps as [|p ps IH]; simpl; [keeps_tac|].
  apply keeps_bind; [done|apply keeps_master_of|intros ?].
  apply keeps_bind; [done|apply IH|intros ?]. keeps_tac.
Qed.

Lemma keeps_master_groups mw gs : keeps R (master_groups mw gs).
Proof.
  induction gs as [|g gs IH]; simpl; [keeps_tac|].
  apply keeps_bind; [done|apply keeps_master_list|intros ?].
  apply keeps_bind; [done|apply IH|intros ?]. keeps_tac.
Qed.

Lemma keeps_create_master : keeps R create_master.
Proof.
  unfold create_master.
  apply keeps_bind; [done|apply keeps_get_self; done|intros s].
  destruct (param_groups_master s); [keeps_tac|].
  apply keeps_bind; [done|apply keeps_master_groups|intros ?]. keeps_tac.
Qed.
End keeps_master.

(** ** The aspects of the world that the loop of [step] leaves alone *)

Lemma params_alter_step v i (gs : list Group) :
  map g_params (alter (set_step v) i gs) = map g_params gs.
Proof.
  revert i. induction gs as [|g gs IH]; intros [|i]; simpl; try done.
  f_equal. apply IH.
Qed.

Lemma params_alter_lr v i (gs : list Group) :
  map g_params (alter (set_lr v) i gs) = map g_params gs.
Proof.
  revert i. induction gs as [|g gs IH]; intros [|i]; simpl; try done.
  f_equal. apply IH.
Qed.

Lemma write_list_grad rs vs h : h_grad (write_list rs vs h) = h_grad h.
Proof.
  revert vs h. induction rs as [|r rs IH]; intros [|v vs] h; simpl; try done.
  by rewrite IH.
Qed.

Lemma write_lists_grad rss vss h :
  h_grad (write_lists rss vss h) = h_grad h.
Proof.
  revert vss h. induction rss as [|rs rss IH]; intros [|vs vss] h; simpl;
    try done.
  by rewrite IH, write_list_grad.
Qed.

Lemma write_list_next rs vs h : h_next (write_list rs vs h) = h_next h.
Proof.
  revert vs h. induction rs as [|r rs IH]; intros [|v vs] h; simpl; try done.
  by rewrite IH.
Qed.

Lemma write_lists_next rss vss h :
  h_next (write_lists rss vss h) = h_next h.
Proof.
  revert vss h. induction rss as [|rs rss IH]; intros [|vs vss] h; simpl;
    try done.
  by rewrite IH, write_list_next.
Qed.

Ltac aspect_prims :=
  try apply _; intros; intros ?w;
  unfold same, params_of, grads_of, states_of; simpl;
  rewrite ?params_alter_step, ?params_alter_lr, ?write_lists_grad;
  reflexivity.

Lemma step_group_flags sc x : keeps (same flags_of) (step_group sc x).
Proof. apply keeps_step_group; aspect_prims. Qed.

Lemma step_group_params sc x : keeps (same params_of) (step_group sc x).
Proof. apply keeps_step_group; aspect_prims. Qed.

Lemma step_group_grads sc x : keeps (same grads_of) (step_group sc x).
Proof. apply keeps_step_group; aspect_prims. Qed.

Lemma step_group_master sc x :
  keeps (same master_of_world) (step_group sc x).
Proof. apply keeps_step_group; aspect_prims. Qed.

Lemma prelude_flags sc dev : keeps (same flags_of) (scaler_prelude sc dev).
Proof. apply keeps_scaler_prelude; aspect_prims. Qed.

Lemma prelude_trace sc dev : keeps (same w_trace) (scaler_prelude sc dev).
Proof. apply keeps_scaler_prelude; aspect_prims. Qed.


(** ** Errors raised before anything happens *)

(** C8: [__init__] raises [RuntimeError] when [amsgrad] is true, and when
    [master_weights] is true while [capturable] is false; the object under
    construction and the store are as they were, so neither parameter
    groups nor state have been created. *)
Theorem init_rejects_unsupported params lr bias_correction betas eps adam_w
    weight_decay amsgrad cap mw available w h :
  amsgrad = true \/ (mw = true /\ cap = false) ->
  exists msg,
    init_body params lr bias_correction betas eps adam_w weight_decay
              amsgrad cap mw available w = (w, Raise (RuntimeError msg)) /\
    init params lr bias_correction betas eps adam_w weight_decay
         amsgrad cap mw available h = (h, Raise (RuntimeError msg)).
Proof.
  intros [-> | [-> ->]].
  - eexists. split; reflexivity.
  - destruct amsgrad; eexists; split; reflexivity.
Qed.

(** C9: [step] raises [RuntimeError] as soon as one of the deprecated
    arguments [grads], [output_params], [scale], [grad_norms] is not
    [None]; the world is returned as it was: the closure has not been
    invoked (no event in the trace) and no step counter, moment buffer or
    master weight has been created or modified. *)
Theorem step_rejects_deprecated_arguments closure grads output_params scale
    grad_norms grad_scaler w :
  grads <> None \/ output_params <> None \/ scale <> None \/
    grad_norms <> None ->
  step closure grads output_params scale grad_norms grad_scaler w =
    (w, Raise (RuntimeError deprecated_message)).
Proof.
  intros H. unfold step.
  destruct grads, output_params, scale, grad_norms; simpl; try reflexivity.
  destruct H as [H|[H|[H|H]]]; congruence.
Qed.

(** ** Launches *)

Lemma applier_run op lists lr beta1 beta2 eps stp mode bias wd inv w :
  exists h,
    multi_tensor_applier op lists lr beta1 beta2 eps stp mode bias wd inv w =
      (mkWorld h (w_self w)
         (w_trace w ++
          [EvKernel (mkCall op (dummy_overflow_buf (w_self w)) lists lr
                            beta1 beta2 eps stp mode bias wd inv)]),
       Ok tt).
Proof.
  eexists. unfold multi_tensor_applier, mbind, get_self, emit, get_heap,
    put_heap. simpl. reflexivity.
Qed.

Lemma launch_if_run (b : bool) op lists lr beta1 beta2 eps stp mode bias wd
    inv w :
  exists h,
    (if b then
       multi_tensor_applier op lists lr beta1 beta2 eps stp mode bias wd inv
     else mret tt) w =
      (mkWorld h (w_self w)
         (w_trace w ++
          (if b then
             [EvKernel (mkCall op (dummy_overflow_buf (w_self w)) lists lr
                               beta1 beta2 eps stp mode bias wd inv)]
           else [])),
       Ok tt).
Proof.
  destruct b.
  - apply applier_run.
  - exists (w_heap w). unfold mret. rewrite app_nil_r. by destruct w.
Qed.

(** The three launches of a group, in either mode: [op] and
    [with_master] are what the mode passes, [inv] the inverse scale. *)
Lemma three_launches op wm lr beta1 beta2 eps stp mode bias wd inv bs w :
  exists h cs,
    ((if 0 <? length (b_g (b16 bs)) then
        multi_tensor_applier op (lists_of wm (b16 bs)) lr beta1 beta2 eps
                             stp mode bias wd inv
      else mret tt) ;;;
     (if 0 <? length (b_g (bbf bs)) then
        multi_tensor_applier op (lists_of wm (bbf bs)) lr beta1 beta2 eps
                             stp mode bias wd inv
      else mret tt) ;;;
     (if 0 <? length (b_g (b32 bs)) then
        multi_tensor_applier op (lists_of wm (b32 bs)) lr beta1 beta2 eps
                             stp mode bias wd inv
      else mret tt)) w =
      (mkWorld h (w_self w) (w_trace w ++ map EvKernel cs), Ok tt) /\
    Forall2 (launches op wm)
            (List.filter nonempty [b16 bs; bbf bs; b32 bs]) cs /\
    Forall (fun c => k_inv_scale c = inv /\
                     k_noop_flag c = dummy_overflow_buf (w_self w) /\
                     k_step c = stp /\ k_lr c = lr) cs.
Proof.
  unfold mbind.
  destruct (launch_if_run (0 <? length (b_g (b16 bs))) op
              (lists_of wm (b16 bs)) lr beta1 beta2 eps stp mode bias wd
              inv w) as [h1 ->].
  set (w1 := mkWorld h1 _ _).
  destruct (launch_if_run (0 <? length (b_g (bbf bs))) op
              (lists_of wm (bbf bs)) lr beta1 beta2 eps stp mode bias wd
              inv w1) as [h2 ->].
  set (w2 := mkWorld h2 _ _).
  destruct (launch_if_run (0 <? length (b_g (b32 bs))) op
              (lists_of wm (b32 bs)) lr beta1 beta2 eps stp mode bias wd
              inv w2) as [h3 ->].
  subst w1 w2. simpl. exists h3.
  exists (flat_map
            (fun b => if nonempty b
                      then [mkCall op (dummy_overflow_buf (w_self w))
                                   (lists_of wm b) lr beta1 beta2 eps stp
                                   mode bias wd inv]
                      else [])
            [b16 bs; bbf bs; b32 bs]).
  unfold nonempty. simpl.
  destruct (0 <? length (b_g (b16 bs))), (0 <? length (b_g (bbf bs))),
    (0 <? length (b_g (b32 bs))); simpl;
    (split; [rewrite <- ?app_assoc; simpl; try rewrite app_nil_r;
             reflexivity|]);
    split; repeat constructor.
Qed.

Lemma launch_group_run sc dev g stp lr bias beta1 beta2 bs w :
  exists w' r cs,
    launch_group sc dev g stp lr bias beta1 beta2 bs w = (w', r) /\
    flags_of w' = flags_of w /\
    w_trace w' = w_trace w ++ map EvKernel cs /\
    match r with
    | Ok _ =>
        Forall2 (launches (entry_for (capturable (w_self w))
                                     (master_weights (w_self w)))
                          (capturable (w_self w) && master_weights (w_self w)))
                (List.filter nonempty [b16 bs; bbf bs; b32 bs]) cs
    | Raise _ => cs = []
    end.
Proof.
  unfold launch_group, mbind at 1, get_self.
  destruct (capturable (w_self w)) eqn:Hcap.
  - unfold mbind at 1.
    pose proof (prelude_flags sc dev w) as Hfl.
    pose proof (prelude_trace sc dev w) as Htr.
    destruct (scaler_prelude sc dev w) as [w1 [inv|e]]; simpl in Hfl, Htr.
    + destruct (three_launches
                  (if master_weights (w_self w)
                   then multi_tensor_adam_capturable_master
                   else multi_tensor_adam_capturable)
                  (master_weights (w_self w)) lr beta1 beta2 (g_eps g) stp
                  (adam_w_mode (w_self w)) bias (g_weight_decay g)
                  (Some inv) bs w1) as (h & cs & -> & Hcs & _).
      eexists _, _, cs. split; [reflexivity|]. simpl.
      split; [exact Hfl|]. split; [by rewrite Htr|]. exact Hcs.
    + exists w1, (Raise e), []. simpl. rewrite app_nil_r. done.
  - destruct (three_launches multi_tensor_adam false lr beta1 beta2
                (g_eps g) stp (adam_w_mode (w_self w)) bias
                (g_weight_decay g) None bs w) as (h & cs & -> & Hcs & _).
    eexists _, _, cs. split; [reflexivity|]. simpl.
    split; [done|]. split; [done|]. exact Hcs.
Qed.

#[global] Instance launches_selected_preorder : PreOrder launches_selected.
Proof.
  split.
  - intros w. split; [done|]. exists []. by rewrite app_nil_r.
  - intros w1 w2 w3 [F1 (e1 & T1 & H1)] [F2 (e2 & T2 & H2)].
    split; [congruence|]. exists (e1 ++ e2). split.
    + by rewrite T2, T1, app_assoc.
    + apply Forall_app. split; [done|]. by rewrite <- F1.
Qed.

Lemma quiet_selected w w' :
  flags_of w' = flags_of w -> w_trace w' = w_trace w ->
  launches_selected w w'.
Proof. intros F T. split; [done|]. exists []. by rewrite app_nil_r. Qed.

Lemma launch_group_selected sc dev g stp lr bias beta1 beta2 bs :
  keeps launches_selected
        (launch_group sc dev g stp lr bias beta1 beta2 bs).
Proof.
  intros w.
  destruct (launch_group_run sc dev g stp lr bias beta1 beta2 bs w)
    as (w' & r & cs & -> & F & T & H). simpl.
  split; [done|]. exists (map EvKernel cs). split; [done|].
  destruct r as [[]|e]; [|subst cs; constructor].
  apply Forall_forall. intros ev Hev.
  apply list_elem_of_fmap in Hev as (c & -> & Hc).
  apply list_elem_of_lookup in Hc as [k Hk].
  destruct (Forall2_lookup_r _ _ _ _ _ H Hk) as (b & Hb & Hl).
  exists b. split.
  - apply list_elem_of_lookup_2, list_elem_of_In, filter_In in Hb. tauto.
  - exact Hl.
Qed.

(** ** Dispatch to the native entry points *)

Ltac quiet_prims :=
  try apply _; intros; intros ?w; apply quiet_selected; reflexivity.

Lemma step_group_selected sc x : keeps launches_selected (step_group sc x).
Proof.
  destruct x as [[i g] gm]. apply keeps_step_group_parts; [apply _|..].
  - intros. apply keeps_update_step; quiet_prims.
  - intros. apply keeps_update_lr; quiet_prims.
  - intros [p pm] bs _. apply keeps_visit_param; quiet_prims.
  - intros. apply launch_group_selected.
Qed.

Lemma call_closure_selected c : keeps launches_selected (call_closure c).
Proof.
  intros w. unfold call_closure. destruct (c (w_heap w)) as [h r]. simpl.
  split; [done|]. exists [EvClosure]. split; [done|].
  by repeat constructor.
Qed.

Lemma step_selected closure grads output_params scale grad_norms sc :
  keeps launches_selected
        (step closure grads output_params scale grad_norms sc).
Proof.
  unfold step.
  destruct (existsb _ _); [apply keeps_raise; apply _|].
  apply keeps_bind; [apply _| |intros loss].
  { destruct closure as [c|]; [|apply keeps_ret; apply _].
    apply keeps_bind; [apply _|apply call_closure_selected|intros ?].
    apply keeps_ret; apply _. }
  apply keeps_bind; [apply _|apply keeps_create_master; quiet_prims|intros _].
  apply keeps_bind; [apply _|apply keeps_get_self; apply _|intros s].
  destruct (param_groups_master s); [|apply keeps_raise; apply _].
  apply keeps_bind; [apply _| |intros ?; apply keeps_ret; apply _].
  apply keeps_for_each; [apply _|]. intros. apply step_group_selected.
Qed.

Lemma launch_group_returns sc dev g stp lr bias beta1 beta2 bs w :
  (capturable (w_self w) = false \/
   exists w1 r, scaler_prelude sc dev w = (w1, Ok r)) ->
  exists w', launch_group sc dev g stp lr bias beta1 beta2 bs w = (w', Ok tt).
Proof.
  intros H. unfold launch_group, mbind at 1, get_self.
  destruct (capturable (w_self w)) eqn:Hcap.
  - destruct H as [H|(w1 & r & E)]; [done|].
    rewrite (mbind_run _ _ w w1 r E).
    destruct (three_launches
                (if master_weights (w_self w)
                 then multi_tensor_adam_capturable_master
                 else multi_tensor_adam_capturable)
                (master_weights (w_self w)) lr beta1 beta2 (g_eps g) stp
                (adam_w_mode (w_self w)) bias (g_weight_decay g)
                (Some r) bs w1) as (h & cs & -> & _).
    by eexists.
  - destruct (three_launches multi_tensor_adam false lr beta1 beta2
                (g_eps g) stp (adam_w_mode (w_self w)) bias
                (g_weight_decay g) None bs w) as (h & cs & -> & _).
    by eexists.
Qed.

(** X22: the launches that [launch_group] makes for a group, whatever the
    buckets it is given, are, in the order float16, bfloat16, float32, one
    launch per non-empty bucket and none for an empty one;
    each goes to [multi_tensor_adam_capturable_master] when [capturable]
    and [master_weights] hold, to [multi_tensor_adam_capturable] when only
    [capturable] holds, and to [multi_tensor_adam] otherwise.  The
    launches take place whenever the optimizer is not capturable or the
    overflow check of the capturable path has succeeded, and over a whole
    call of [step] every launch that is made is of that kind. *)
Theorem step_dispatches_by_flags :
  (forall sc dev g stp lr bias beta1 beta2 bs w w',
     launch_group sc dev g stp lr bias beta1 beta2 bs w = (w', Ok tt) ->
     exists cs,
       w_trace w' = w_trace w ++ map EvKernel cs /\
       Forall2 (launches (entry_for (capturable (w_self w))
                                    (master_weights (w_self w)))
                         (capturable (w_self w) && master_weights (w_self w)))
               (List.filter nonempty [b16 bs; bbf bs; b32 bs]) cs) /\
  (forall sc dev g stp lr bias beta1 beta2 bs w,
     (capturable (w_self w) = false \/
      exists w1 r, scaler_prelude sc dev w = (w1, Ok r)) ->
     exists w',
       launch_group sc dev g stp lr bias beta1 beta2 bs w = (w', Ok tt)) /\
  (forall closure grads output_params scale grad_norms sc w,
     exists evs,
       w_trace (step closure grads output_params scale grad_norms sc w).1 =
         w_trace w ++ evs /\
       Forall (selected_launch (flags_of w)) evs).
Proof.
  split; [|split; [exact launch_group_returns|]].
  - intros sc dev g stp lr bias beta1 beta2 bs w w' Hrun.
    destruct (launch_group_run sc dev g stp lr bias beta1 beta2 bs w)
      as (w1 & r & cs & E & _ & T & H).
    rewrite Hrun in E. injection E as <- <-. by exists cs.
  - intros closure grads output_params scale grad_norms sc w.
    apply (step_selected closure grads output_params scale grad_norms sc w).
Qed.

(** ** Gradient scaler and overflow buffer *)



(** ** Master weights *)

#[global] Instance only_allocates_preorder : PreOrder only_allocates.
Proof.
  split.
  - intros w. by repeat split.
  - intros w1 w2 w3 (S1 & T1 & G1 & N1 & O1) (S2 & T2 & G2 & N2 & O2).
    repeat split; try congruence; try lia.
    intros r Hr. rewrite O2 by lia. by apply O1.
Qed.

Lemma new_tensor_allocates t : keeps only_allocates (new_tensor t).
Proof.
  intros w. simpl. repeat split; simpl; try lia.
  intros r Hr. rewrite decide_False; [done|lia].
Qed.

Lemma master_entry_mono mw h0 h h' p e :
  master_entry mw h0 h p e -> h_next h <= h_next h' ->
  (forall r, r < h_next h -> h_tensor h' r = h_tensor h r) ->
  master_entry mw h0 h' p e.
Proof.
  unfold master_entry. destruct mw; [|done].
  intros (m & -> & H1 & H2 & H3) Hn Ho. exists m.
  repeat split; try done; try lia. by rewrite Ho.
Qed.

Lemma master_of_run mw p w0 w :
  only_allocates w0 w -> p < h_next (w_heap w0) ->
  exists w' e,
    master_of mw p w = (w', Ok e) /\ only_allocates w w' /\
    master_entry mw (w_heap w0) (w_heap w') p e.
Proof.
  intros (S0 & T0 & G0 & N0 & O0) Hp. unfold master_of, master_entry.
  destruct mw.
  - unfold mbind, read, new_tensor, float_, mbind, read, new_tensor. simpl.
    destruct (decide (h_next (w_heap w) = h_next (w_heap w))) as [_|?];
      [|done].
    destruct (decide (t_dtype (h_tensor (w_heap w) p) = float32)) as [E|E];
      simpl.
    + eexists _, _. split; [reflexivity|]. split.
      * repeat split; simpl; try lia. intros r Hr.
        rewrite decide_False; [done|lia].
      * eexists. split; [reflexivity|]. simpl.
        rewrite decide_True by done. rewrite <- (O0 p Hp).
        unfold t_to. rewrite decide_True by done. repeat split; lia.
    + eexists _, _. split; [reflexivity|]. split.
      * repeat split; simpl; try lia. intros r Hr.
        rewrite !decide_False; [done|lia|lia].
      * eexists. split; [reflexivity|]. simpl.
        rewrite decide_True by done. rewrite <- (O0 p Hp).
        unfold t_to. rewrite decide_False by done. repeat split; lia.
  - exists w, None. by split.
Qed.

Lemma master_list_run mw ps w0 w :
  only_allocates w0 w -> Forall (fun p => p < h_next (w_heap w0)) ps ->
  exists w' ms,
    master_list mw ps w = (w', Ok ms) /\ only_allocates w w' /\
    Forall2 (master_entry mw (w_heap w0) (w_heap w')) ps ms.
Proof.
  revert w. induction ps as [|p ps IH]; intros w H0 Hps; simpl.
  - exists w, []. by repeat split.
  - apply Forall_cons in Hps as [Hp Hps].
    destruct (master_of_run mw p w0 w H0 Hp) as (w1 & e & E1 & A1 & M1).
    assert (only_allocates w0 w1) as H1 by (etransitivity; eauto).
    destruct (IH w1 H1 Hps) as (w2 & ms & E2 & A2 & M2).
    exists w2, (e :: ms). unfold mbind. rewrite E1, E2. simpl.
    split; [done|]. split; [etransitivity; eauto|].
    constructor; [|done].
    destruct A2 as (_ & _ & _ & N2 & O2).
    eapply master_entry_mono; eauto.
Qed.

Lemma master_groups_run mw (gs : list Group) w0 w :
  only_allocates w0 w ->
  Forall (Forall (fun p => p < h_next (w_heap w0))) (map g_params gs) ->
  exists w' ms,
    master_groups mw gs w = (w', Ok ms) /\ only_allocates w w' /\
    Forall2 (fun g m =>
               Forall2 (master_entry mw (w_heap w0) (w_heap w'))
                       (g_params g) m) gs ms.
Proof.
  revert w. induction gs as [|g gs IH]; intros w H0 Hgs; simpl.
  - exists w, []. by repeat split.
  - simpl in Hgs. apply Forall_cons in Hgs as [Hg Hgs].
    destruct (master_list_run mw (g_params g) w0 w H0 Hg)
      as (w1 & m & E1 & A1 & M1).
    assert (only_allocates w0 w1) as H1 by (etransitivity; eauto).
    destruct (IH w1 H1 Hgs) as (w2 & ms & E2 & A2 & M2).
    exists w2, (m :: ms). unfold mbind. rewrite E1, E2. simpl.
    split; [done|]. split; [etransitivity; eauto|].
    constructor; [|done].
    destruct A2 as (_ & _ & _ & N2 & O2).
    eapply Forall2_impl; [exact M1|]. intros p e Hpe.
    eapply master_entry_mono; eauto.
Qed.

Lemma create_master_existing w ms :
  master_of_world w = Some ms -> create_master w = (w, Ok tt).
Proof.
  unfold master_of_world, create_master, mbind, get_self. by intros ->.
Qed.

Lemma create_master_first w :
  master_of_world w = None -> params_allocated w ->
  exists w1 ms,
    create_master w =
      (mkWorld (w_heap w1) (with_master (Some ms) (w_self w)) (w_trace w),
       Ok tt) /\
    only_allocates w w1 /\
    Forall2 (fun g m =>
               Forall2 (master_entry (master_weights (w_self w))
                                     (w_heap w) (w_heap w1))
                       (g_params g) m)
            (param_groups (w_self w)) ms.
Proof.
  unfold master_of_world, params_allocated, params_of. intros Hm Hp.
  destruct (master_groups_run (master_weights (w_self w))
              (param_groups (w_self w)) w w) as (w1 & ms & E & A & F);
    [reflexivity|done|].
  exists w1, ms. split; [|by split].
  unfold create_master, mbind at 1, get_self. rewrite Hm.
  unfold mbind. rewrite E. unfold modify_self.
  destruct A as (-> & -> & _). done.
Qed.

#[global] Instance master_stays_preorder : PreOrder master_stays.
Proof.
  split; [by intros w ms|]. intros w1 w2 w3 H1 H2 ms Hms. auto.
Qed.

Lemma same_master_stays {A} (m : M A) :
  keeps (same master_of_world) m -> keeps master_stays m.
Proof. intros H w ms Hms. by rewrite (H w). Qed.

Lemma step_groups_master sc l :
  keeps (same master_of_world) (for_each (step_group sc) l).
Proof. apply keeps_for_each; [apply _|]. intros. apply step_group_master. Qed.

Lemma call_closure_master c : keeps (same master_of_world) (call_closure c).
Proof.
  intros w. unfold call_closure. by destruct (c (w_heap w)).
Qed.

Lemma step_master_stays closure grads output_params scale grad_norms sc :
  keeps master_stays (step closure grads output_params scale grad_norms sc).
Proof.
  unfold step.
  destruct (existsb _ _); [apply keeps_raise; apply _|].
  apply keeps_bind; [apply _| |intros loss].
  { destruct closure as [c|]; [|apply keeps_ret; apply _].
    apply keeps_bind; [apply _| |intros ?; apply keeps_ret; apply _].
    apply same_master_stays, call_closure_master. }
  apply keeps_bind; [apply _| |intros _].
  { intros w ms Hms. by rewrite (create_master_existing w ms). }
  apply keeps_bind; [apply _|apply keeps_get_self; apply _|intros s].
  destruct (param_groups_master s); [|apply keeps_raise; apply _].
  apply keeps_bind; [apply _| |intros ?; apply keeps_ret; apply _].
  apply same_master_stays, step_groups_master.
Qed.

Lemma step_master_is_created closure sc w :
  closure_returns closure w ->
  master_of_world (step closure None None None None sc w).1 =
    master_of_world (create_master (after_closure closure w)).1.
Proof.
  intros Hc. unfold step. simpl.
  assert (exists l,
    (match closure with
     | Some c => let* l := call_closure c in mret (Some l)
     | None => mret None
     end) w = (after_closure closure w, Ok l)) as [l El].
  { destruct closure as [c|]; simpl in *; [|by eexists].
    destruct Hc as [l Hl]. unfold mbind.
    destruct (call_closure c w) as [w1 r]. simpl in *. subst r.
    by eexists. }
  unfold mbind at 1. rewrite El. unfold mbind at 1.
  destruct (create_master (after_closure closure w)) as [w2 [[]|e]];
    [|done].
  unfold mbind at 1, get_self. simpl.
  destruct (param_groups_master (w_self w2)) as [ms|] eqn:Ems; [|done].
  pose proof (step_groups_master sc
                (zip (enumerate (param_groups (w_self w2))) ms) w2) as H.
  unfold mbind.
  destruct (for_each _ _ w2) as [w3 [[]|e]]; simpl in *; exact H.
Qed.

(** C6: when [param_groups_master] is [None], [step] builds it with one
    entry per parameter of each group: with [master_weights], a new
    [float32] tensor holding the value the parameter has at that moment;
    without, [None].  When it exists it is not rebuilt: neither by the
    creation code nor anywhere else in [step]. *)
Theorem master_weights_created_once :
  (forall w,
     master_of_world w = None -> params_allocated w ->
     exists w1 ms,
       create_master w =
         (mkWorld (w_heap w1) (with_master (Some ms) (w_self w)) (w_trace w),
          Ok tt) /\
       only_allocates w w1 /\
       Forall2 (fun g m =>
                  Forall2 (master_entry (master_weights (w_self w))
                                        (w_heap w) (w_heap w1))
                          (g_params g) m)
               (param_groups (w_self w)) ms) /\
  (forall w ms,
     master_of_world w = Some ms -> create_master w = (w, Ok tt)) /\
  (forall closure grads output_params scale grad_norms sc w ms,
     master_of_world w = Some ms ->
     master_of_world
       (step closure grads output_params scale grad_norms sc w).1 =
       Some ms) /\
  (forall closure sc w,
     closure_returns closure w ->
     master_of_world (step closure None None None None sc w).1 =
       master_of_world (create_master (after_closure closure w)).1).
Proof.
  split; [exact create_master_first|].
  split; [exact create_master_existing|].
  split; [|exact step_master_is_created].
  intros closure grads output_params scale grad_norms sc w ms Hms.
  by apply (step_master_stays closure grads output_params scale grad_norms
              sc w).
Qed.

Lemma master_of_total mw p w :
  exists w' e, master_of mw p w = (w', Ok e) /\ only_allocates w w'.
Proof.
  pose proof (keeps_master_of only_allocates new_tensor_allocates mw p w)
    as H.
  unfold master_of in *. destruct mw; [|by eexists _, _].
  unfold mbind, read, new_tensor, float_, mbind, read, new_tensor in *.
  simpl in *.
  destruct (decide (h_next (w_heap w) = h_next (w_heap w))) as [_|?];
    [|done].
  destruct (decide (t_dtype (h_tensor (w_heap w) p) = float32));
    simpl in *; by eexists _, _.
Qed.

Lemma master_list_shape mw ps w :
  exists w' ms,
    master_list mw ps w = (w', Ok ms) /\ only_allocates w w' /\
    length ms = length ps.
Proof.
  revert w. induction ps as [|p ps IH]; intros w; simpl.
  - by exists w, [].
  - destruct (master_of_total mw p w) as (w1 & e & E1 & A1).
    destruct (IH w1) as (w2 & ms & E2 & A2 & L).
    exists w2, (e :: ms). unfold mbind. rewrite E1, E2. simpl.
    split; [done|]. split; [by etransitivity|]. by rewrite L.
Qed.

Lemma master_groups_shape mw (gs : list Group) w :
  exists w' ms,
    master_groups mw gs w = (w', Ok ms) /\ only_allocates w w' /\
    Forall2 (fun g (m : list (option ref)) =>
               length (g_params g) = length m) gs ms.
Proof.
  revert w. induction gs as [|g gs IH]; intros w; simpl.
  - exists w, []. by repeat split.
  - destruct (master_list_shape mw (g_params g) w) as (w1 & m & E1 & A1 & L).
    destruct (IH w1) as (w2 & ms & E2 & A2 & F).
    exists w2, (m :: ms). unfold mbind. rewrite E1, E2. simpl.
    split; [done|]. split; [by etransitivity|]. by constructor.
Qed.

(** After the creation code the master weights exist and are aligned with
    the groups; nothing else of the optimizer has changed. *)
Lemma create_master_aligned w :
  master_aligned w ->
  exists w2 ms,
    create_master w = (w2, Ok tt) /\
    w_self w2 = with_master (Some ms) (w_self w) /\
    w_trace w2 = w_trace w /\
    h_grad (w_heap w2) = h_grad (w_heap w) /\
    h_next (w_heap w) <= h_next (w_heap w2) /\
    (forall r, r < h_next (w_heap w) ->
               h_tensor (w_heap w2) r = h_tensor (w_heap w) r) /\
    Forall2 (fun g (m : list (option ref)) =>
               length (g_params g) = length m)
            (param_groups (w_self w)) ms.
Proof.
  unfold master_aligned, master_of_world. intros Ha.
  destruct (param_groups_master (w_self w)) as [ms|] eqn:Em.
  - exists w, ms. rewrite (create_master_existing w ms Em).
    repeat split; try done.
    destruct w as [h s t]. simpl in *. destruct s. simpl in *. by subst.
  - destruct (master_groups_shape (master_weights (w_self w))
                (param_groups (w_self w)) w)
      as (w1 & ms & E & (S1 & T1 & G1 & N1 & O1) & F).
    exists (mkWorld (w_heap w1) (with_master (Some ms) (w_self w))
                    (w_trace w)), ms.
    split; [|by repeat split].
    unfold create_master, mbind at 1, get_self. rewrite Em.
    unfold mbind. rewrite E. unfold modify_self. by rewrite S1, T1.
Qed.

#[global] Instance stays_aligned_preorder : PreOrder stays_aligned.
Proof.
  split; [intros w H; exact H|]. intros w1 w2 w3 H1 H2 H. apply H2, H1, H.
Qed.

Lemma aligned_same w w' :
  params_of w' = params_of w -> master_of_world w' = master_of_world w ->
  stays_aligned w w'.
Proof.
  unfold stays_aligned, master_aligned, params_of. intros Hp Hm.
  rewrite Hm. destruct (master_of_world w) as [ms|]; [|done].
  intros F.
  apply (Forall2_fmap_l g_params
           (fun ps (m : list (option ref)) => length ps = length m)).
  change (g_params <$> param_groups (w_self w') =
          g_params <$> param_groups (w_self w)) in Hp.
  rewrite Hp. by apply Forall2_fmap_l.
Qed.

Lemma same_stays_aligned {A} (m : M A) :
  keeps (same params_of) m -> keeps (same master_of_world) m ->
  keeps stays_aligned m.
Proof. intros Hp Hm w. apply aligned_same; [apply Hp|apply Hm]. Qed.

Lemma step_groups_params sc l :
  keeps (same params_of) (for_each (step_group sc) l).
Proof. apply keeps_for_each; [apply _|]. intros. apply step_group_params. Qed.

(** The alignment of the master weights with the groups is kept by
    [step], whatever its outcome. *)
Lemma step_stays_aligned closure grads output_params scale grad_norms sc :
  keeps stays_aligned
        (step closure grads output_params scale grad_norms sc).
Proof.
  unfold step.
  destruct (existsb _ _); [apply keeps_raise; apply _|].
  apply keeps_bind; [apply _| |intros loss].
  { destruct closure as [c|]; [|apply keeps_ret; apply _].
    apply keeps_bind; [apply _| |intros ?; apply keeps_ret; apply _].
    apply same_stays_aligned; [|apply call_closure_master].
    intros w. unfold call_closure, same, params_of.
    by destruct (c (w_heap w)). }
  apply keeps_bind; [apply _| |intros _].
  { intros w Ha.
    destruct (create_master_aligned w Ha)
      as (w2 & ms & -> & S2 & _ & _ & _ & _ & F).
    unfold master_aligned, master_of_world. simpl. by rewrite S2. }
  apply keeps_bind; [apply _|apply keeps_get_self; apply _|intros s].
  destruct (param_groups_master s); [|apply keeps_raise; apply _].
  apply keeps_bind; [apply _| |intros ?; apply keeps_ret; apply _].
  apply same_stays_aligned;
    [apply step_groups_params|apply step_groups_master].
Qed.

(** A newly constructed optimizer has no master weights yet, so it is
    aligned. *)
Lemma init_aligned params lr bias_correction betas eps adam_w weight_decay
    amsgrad cap mw available h h' s tr :
  init params lr bias_correction betas eps adam_w weight_decay amsgrad cap
       mw available h = (h', Ok s) ->
  master_aligned (mkWorld h' s tr).
Proof.
  unfold init.
  destruct (init_body _ _ _ _ _ _ _ _ _ _ _ _) as [w' [[]|e]] eqn:E;
    [|discriminate].
  intros [= <- <-].
  enough (master_of_world w' = None) as H.
  { unfold master_aligned, master_of_world in *. simpl. by rewrite H. }
  unfold init_body in E.
  destruct amsgrad; [discriminate|].
  destruct (mw && negb cap); [discriminate|].
  apply mbind_ok in E as (w1 & lr0 & _ & E).
  apply mbind_ok in E as (w2 & [] & _ & E).
  apply mbind_ok in E as (w3 & [] & E3 & E).
  assert (master_of_world w3 = None) as H3.
  { unfold modify_self in E3. by injection E3 as <-. }
  rewrite <- H3.
  match type of E with
  | ?m w3 = _ =>
      assert (keeps (same master_of_world) m) as K
  end.
  { apply keeps_bind; [apply _| |intros _].
    - destruct cap; [|apply keeps_ret; apply _].
      apply keeps_bind; [apply _|apply keeps_get_self; apply _|intros s0].
      apply keeps_bind; [apply _| |intros _; aspect_prims].
      apply keeps_for_each; [apply _|]. intros [idx g] _.
      unfold init_group_lr.
      destruct (g_params g) as [|p0 ps]; [apply keeps_ret; apply _|].
      apply keeps_bind; [apply _|apply keeps_read; apply _|intros t0].
      apply keeps_bind; [apply _| |intros r; aspect_prims].
      destruct (g_lr g) as [z|q|r0].
      + apply keeps_raise; apply _.
      + apply keeps_bind; [apply _| |intros r1].
        * apply keeps_tensor_of_number; aspect_prims.
        * apply keeps_to_device; aspect_prims.
      + apply keeps_to_device; aspect_prims.
    - destruct available; [aspect_prims|apply keeps_raise; apply _]. }
  specialize (K w3). rewrite E in K. exact K.
Qed.

(** A call of [step] that ends normally went through the closure, the
    creation of the master weights and the loop over the groups. *)
Lemma step_ok_inv closure sc w w' loss :
  step closure None None None None sc w = (w', Ok loss) ->
  closure_returns closure w /\
  exists w2 ms,
    create_master (after_closure closure w) = (w2, Ok tt) /\
    master_of_world w2 = Some ms /\
    for_each (step_group sc)
             (zip (enumerate (param_groups (w_self w2))) ms) w2 =
      (w', Ok tt).
Proof.
  unfold step. simpl. intros H.
  apply mbind_ok in H as (w1 & l & E1 & H).
  assert (closure_returns closure w /\ w1 = after_closure closure w)
    as [Hc ->].
  { destruct closure as [c|]; simpl in *.
    - apply mbind_ok in E1 as (w0 & l0 & E0 & E1). rewrite E0. simpl.
      injection E1 as <- _. split; [by exists l0|done].
    - by injection E1 as <- _. }
  split; [done|].
  apply mbind_ok in H as (w2 & [] & E2 & H).
  apply mbind_ok in H as (w3 & s & E3 & H). injection E3 as <- <-.
  destruct (param_groups_master (w_self w2)) as [ms|] eqn:Em; [|done].
  apply mbind_ok in H as (w4 & [] & E4 & H). injection H as <- _.
  by exists w2, ms.
Qed.

(** ** The step counter of a group *)

Lemma lookup_enumerate {A} (l : list A) a x :
  enumerate l !! a = Some x <-> x.1 = a /\ l !! a = Some x.2.
Proof.
  unfold enumerate. rewrite lookup_zip_with_Some. split.
  - intros (i & y & -> & Hi & Hy). apply lookup_seq in Hi as [-> _]. done.
  - intros [<- Hx]. exists x.1, x.2. split; [by destruct x|].
    split; [|done]. apply lookup_seq. split; [done|].
    by apply lookup_lt_Some in Hx.
Qed.

Lemma lookup_groups_masters {A B} (gs : list A) (ms : list B) a i g gm :
  zip (enumerate gs) ms !! a = Some (i, g, gm) <->
  i = a /\ gs !! a = Some g /\ ms !! a = Some gm.
Proof.
  rewrite lookup_zip_with_Some. split.
  - intros ([i' g'] & y & [= -> -> ->] & Hx & Hy).
    apply lookup_enumerate in Hx as [Hi Hg]. simpl in *. done.
  - intros (-> & Hg & Hm). exists (a, g), gm. split; [done|].
    split; [|done]. by apply lookup_enumerate.
Qed.

Lemma step_at_alter_lr v j i (gs : list Group) :
  g_step <$> (alter (set_lr v) j gs !! i) = g_step <$> (gs !! i).
Proof.
  destruct (decide (j = i)) as [->|Hne].
  - rewrite list_lookup_alter_eq. by destruct (gs !! i).
  - by rewrite list_lookup_alter_ne.
Qed.

Lemma step_at_alter_step v i (gs : list Group) g :
  gs !! i = Some g ->
  g_step <$> (alter (set_step v) i gs !! i) = Some (Some v).
Proof. intros H. rewrite list_lookup_alter_eq, H. done. Qed.

Ltac step_at_prims :=
  try apply _; intros; intros ?w; unfold same, step_at; simpl;
  rewrite ?step_at_alter_lr, ?list_lookup_alter_ne by done; reflexivity.

Lemma step_group_step_at sc i j g gm :
  i <> j -> keeps (same (step_at i)) (step_group sc (j, g, gm)).
Proof.
  intros Hne. apply keeps_step_group_parts; [apply _|..].
  - intros. apply keeps_update_step; step_at_prims.
  - intros. apply keeps_update_lr; step_at_prims.
  - intros [p pm] bs _. apply keeps_visit_param; step_at_prims.
  - intros. apply keeps_launch_group; step_at_prims.
Qed.

Lemma after_update_step_at sc i g gm dev stp :
  keeps (same (step_at i))
        (let* lr := update_lr i g dev in
         let* bs := for_acc visit_param (zip (g_params g) gm) empty_buckets in
         launch_group sc dev g stp lr
           (match g_bias_correction g with Some true => 1%Z | _ => 0%Z end)
           (g_betas g).1 (g_betas g).2 bs).
Proof.
  apply keeps_bind; [apply _| |intros lr].
  { apply keeps_update_lr; step_at_prims. }
  apply keeps_bind; [apply _| |intros bs].
  { apply keeps_for_acc; [apply _|]. intros [p pm] bs _.
    apply keeps_visit_param; step_at_prims. }
  apply keeps_launch_group; step_at_prims.
Qed.

Lemma update_step_noncapturable i g gi dev w w' stp :
  capturable (w_self w) = false ->
  param_groups (w_self w) !! i = Some gi ->
  update_step i g dev w = (w', Ok stp) ->
  stp = next_counter (g_step g) /\
  step_at i w' = Some (Some (next_counter (g_step g))).
Proof.
  intros Hcap Hi. unfold update_step, mbind at 1, get_self. rewrite Hcap.
  destruct (g_step g) as [[z|q|r]|]; simpl;
    unfold mbind, assign_step, iadd_scalar, mbind, read, write_elems,
      modify_self, mret; simpl;
    intros [= <- <-]; unfold step_at; simpl;
    by rewrite (step_at_alter_step _ _ _ _ Hi).
Qed.


Lemma step_noncapturable_counter closure sc w w' loss :
  capturable (w_self w) = false ->
  master_aligned w ->
  step closure None None None None sc w = (w', Ok loss) ->
  forall i g,
    param_groups (w_self w) !! i = Some g -> g_params g <> [] ->
    step_at i w' = Some (Some (next_counter (g_step g))).
Proof.
  intros Hcap Hal Hrun i g Hi Hne.
  apply step_ok_inv in Hrun as (Hc & w2 & ms & Ecm & Ems & Hloop).
  assert (w_self (after_closure closure w) = w_self w) as Hself.
  { destruct closure as [c|]; [|done]. simpl. unfold call_closure.
    by destruct (c (w_heap w)). }
  destruct (create_master_aligned (after_closure closure w))
    as (w2' & ms' & Ecm' & S2 & _ & _ & _ & _ & F).
  { unfold master_aligned, master_of_world in *. by rewrite Hself. }
  rewrite Ecm in Ecm'. injection Ecm' as <-.
  rewrite Hself in S2, F.
  assert (ms' = ms) as ->.
  { unfold master_of_world in Ems. rewrite S2 in Ems. simpl in Ems.
    congruence. }
  assert (param_groups (w_self w2) = param_groups (w_self w)) as Hgs
    by (by rewrite S2).
  rewrite Hgs in Hloop.
  destruct (Forall2_lookup_l _ _ _ _ _ F Hi) as (gm & Hgm & _).
  set (I := fun w0 : World =>
              capturable (w_self w0) = false /\
              length (param_groups (w_self w0)) =
                length (param_groups (w_self w))).
  set (P := fun (x : nat * Group * list (option ref)) (w0 : World) =>
              g_params x.1.2 <> [] ->
              step_at x.1.1 w0 = Some (Some (next_counter (g_step x.1.2)))).
  assert (forall x, x ∈ zip (enumerate (param_groups (w_self w))) ms ->
                    P x w') as Hall; cycle 1.
  { apply (Hall (i, g, gm)); [|done].
    apply list_elem_of_lookup. exists i. by apply lookup_groups_masters. }
  apply (for_each_ok_all (step_group sc) I P _ w2 w'); [| | | |exact Hloop].
  - split; [by rewrite S2|by rewrite Hgs].
  - intros x w0 _ [H1 H2]. split.
    + pose proof (step_group_flags sc x w0) as Hf.
      unfold same, flags_of in Hf. congruence.
    + pose proof (step_group_params sc x w0) as Hp.
      unfold same, params_of in Hp.
      apply (f_equal length) in Hp. rewrite !length_map in Hp. congruence.
  - intros [[j gj] gmj] w0 w1 Hx [H1 H2] Hbody Hnej. simpl in *.
    apply list_elem_of_lookup in Hx as [a Ha].
    apply lookup_groups_masters in Ha as (-> & Hgj & _).
    unfold step_group in Hbody.
    destruct (g_params gj) as [|p0 ps] eqn:Eps; [done|].
    apply mbind_ok in Hbody as (wa & t0 & Ea & Hbody).
    injection Ea as <- <-.
    apply mbind_ok in Hbody as (wb & stp & Eb & Hbody).
    assert (is_Some (param_groups (w_self w0) !! a)) as [ga Hga].
    { apply lookup_lt_is_Some. rewrite H2.
      by apply lookup_lt_Some in Hgj. }
    destruct (update_step_noncapturable _ _ _ _ _ _ _ H1 Hga Eb)
      as [_ Hstep].
    pose proof (after_update_step_at sc a gj gmj
                  (t_device (h_tensor (w_heap w0) p0)) stp wb) as Hk.
    rewrite Eps in Hk. unfold same in Hk.
    cbv beta in Hbody. rewrite Hbody in Hk. simpl in Hk. congruence.
  - intros a b [[j gj] gmj] [[k gk] gmk] w0 Hab Ha Hb _ HP Hnej.
    simpl in *.
    apply lookup_groups_masters in Ha as (-> & _).
    apply lookup_groups_masters in Hb as (-> & _).
    rewrite (step_group_step_at sc a b gk gmk) by lia. by apply HP.
Qed.



Lemma update_step_noncapturable_returns i g dev w :
  capturable (w_self w) = false ->
  exists w', update_step i g dev w = (w', Ok (next_counter (g_step g))).
Proof.
  intros Hcap. unfold update_step, mbind at 1, get_self. rewrite Hcap.
  destruct (g_step g) as [[z|q|r]|]; by eexists.
Qed.


(** ** The state of a parameter and its bucket *)

#[global] Instance state_stays_preorder : PreOrder state_stays.
Proof.
  split; [by intros w p d|]. intros w1 w2 w3 H1 H2 p d Hd Hne. eauto.
Qed.

#[global] Instance heap_grows_preorder : PreOrder heap_grows.
Proof.
  split.
  - intros w. by repeat split.
  - intros w1 w2 w3 (G1 & N1 & O1) (G2 & N2 & O2).
    repeat split; try congruence; try lia.
    intros r Hr. rewrite O2 by lia. by apply O1.
Qed.

Lemma init_state_existing p d w :
  state (w_self w) !! p = Some d -> d <> ∅ ->
  init_state p w = (w, Ok d).
Proof.
  intros Hd Hne. unfold init_state, mbind at 1, state_of, mbind, get_self.
  rewrite Hd. simpl. rewrite decide_False; [done|].
  by rewrite map_size_empty_iff.
Qed.

Lemma init_state_fresh p w :
  default ∅ (state (w_self w) !! p) = ∅ ->
  let h := w_heap w in
  let m := h_next h in
  let v := S (h_next h) in
  let h1 := (alloc (t_to float32 (zeros_like (h_tensor h p))) h).2 in
  let h2 := (alloc (t_to float32 (zeros_like (h_tensor h1 p))) h1).2 in
  let d := <["exp_avg_sq" := v]> (<["exp_avg" := m]> (∅ : gmap string ref)) in
  init_state p w =
    (mkWorld h2 (with_state (<[p := d]> (state (w_self w))) (w_self w))
             (w_trace w), Ok d).
Proof.
  intros Hd. simpl.
  unfold init_state, mbind at 1, state_of, mbind at 1, get_self.
  destruct (state (w_self w) !! p) as [d0|] eqn:E; simpl in Hd.
  - subst d0. simpl. rewrite decide_True by done.
    unfold mbind, read, new_tensor, state_set, modify_self, mret. simpl.
    rewrite E. simpl. rewrite lookup_insert_eq. simpl.
    by rewrite insert_insert_eq.
  - unfold mbind at 1, modify_self. simpl. rewrite decide_True by done.
    unfold mbind, read, new_tensor, state_set, modify_self, mret. simpl.
    rewrite !lookup_insert_eq. simpl. by rewrite !insert_insert_eq.
Qed.

(** Whatever the dictionary was, [init_state] returns the dictionary that
    [self.state] then holds for the parameter, and touches no other. *)
Lemma init_state_run p w :
  exists w' d,
    init_state p w = (w', Ok d) /\
    state (w_self w') !! p = Some d /\
    (forall q, q <> p -> state (w_self w') !! q = state (w_self w) !! q) /\
    (forall d0, state (w_self w) !! p = Some d0 -> d0 <> ∅ -> d = d0) /\
    with_state (state (w_self w)) (w_self w') = w_self w /\
    w_trace w' = w_trace w /\
    heap_grows w w'.
Proof.
  destruct (decide (default ∅ (state (w_self w) !! p) = ∅)) as [He|Hne].
  - eexists _, _. split; [by apply init_state_fresh|]. simpl.
    split; [by rewrite lookup_insert_eq|].
    split; [by intros q Hq; rewrite lookup_insert_ne|].
    split.
    { intros d0 Hd0 Hd0'. rewrite Hd0 in He. by simpl in He. }
    split; [by destruct (w_self w)|]. split; [done|].
    repeat split; simpl; try lia. intros r Hr.
    rewrite !decide_False; [done|lia|lia].
  - destruct (state (w_self w) !! p) as [d0|] eqn:E; [|done].
    simpl in Hne. exists w, d0.
    split; [by apply init_state_existing|]. split; [done|].
    split; [done|]. split; [by intros ? [= ->]|].
    split; [by destruct (w_self w)|]. split; [done|].
    by repeat split.
Qed.

Lemma place_world p gr pm d bs w : (place p gr pm d bs w).1 = w.
Proof.
  unfold place, mbind, get_self, read, master_data, state_get. simpl.
  repeat (case_match; simpl; try done); unfold mret, raise in *;
    by simplify_eq.
Qed.

Lemma place_ok p gr pm d bs w w' bs' :
  place p gr pm d bs w = (w', Ok bs') ->
  w' = w /\
  exists m v ms,
    d !! "exp_avg" = Some m /\ d !! "exp_avg_sq" = Some v /\
    ms = (if master_weights (w_self w)
          then match pm with Some m0 => [m0] | None => [] end
          else []) /\
    placed (t_dtype (h_tensor (w_heap w) p)) gr p m v ms bs bs'.
Proof.
  intros H. pose proof (place_world p gr pm d bs w) as Hw.
  rewrite H in Hw. simpl in Hw. split; [done|]. subst w'.
  revert H. unfold place, mbind, get_self, read, master_data, state_get,
    placed. simpl.
  repeat (case_match; simpl; try done); unfold mret, raise in *;
    simplify_eq; try done; intros [= <-]; by eexists _, _, _.
Qed.

Lemma place_other_dtype p gr pm d bs w :
  bucket_for (t_dtype (h_tensor (w_heap w) p)) bs = None ->
  place p gr pm d bs w =
    (w, Raise (RuntimeError "FusedAdam only support fp16 and fp32.")).
Proof.
  unfold place, mbind, get_self, read, bucket_for. simpl.
  by destruct (t_dtype (h_tensor (w_heap w) p)).
Qed.

Lemma visit_param_no_grad p pm bs w :
  h_grad (w_heap w) p = None -> visit_param (p, pm) bs w = (w, Ok bs).
Proof.
  intros H. unfold visit_param, mbind, get_heap. simpl. by rewrite H.
Qed.

Lemma visit_param_sparse p pm bs w gr :
  h_grad (w_heap w) p = Some gr ->
  t_sparse (h_tensor (w_heap w) gr) = true ->
  exists msg, visit_param (p, pm) bs w = (w, Raise (RuntimeError msg)).
Proof.
  intros H Hs. unfold visit_param, mbind, get_heap, read. simpl.
  rewrite H, Hs. by eexists.
Qed.

(** With a dense gradient the visit is the initialization of the state
    followed by the placement. *)
Lemma visit_param_dense p pm bs w gr :
  h_grad (w_heap w) p = Some gr ->
  t_sparse (h_tensor (w_heap w) gr) = false ->
  exists w1 d,
    init_state p w = (w1, Ok d) /\
    visit_param (p, pm) bs w = place p gr pm d bs w1.
Proof.
  intros H Hs.
  destruct (init_state_run p w) as (w1 & d & E & _).
  exists w1, d. split; [done|].
  unfold visit_param, mbind at 1, get_heap. simpl. rewrite H.
  unfold mbind at 1, read. simpl. rewrite Hs.
  unfold mbind. by rewrite E.
Qed.

Lemma visit_param_world p pm bs w :
  (visit_param (p, pm) bs w).1 = w \/
  (visit_param (p, pm) bs w).1 = (init_state p w).1.
Proof.
  destruct (h_grad (w_heap w) p) as [gr|] eqn:Hg.
  - destruct (t_sparse (h_tensor (w_heap w) gr)) eqn:Hs.
    + destruct (visit_param_sparse p pm bs w gr Hg Hs) as [msg ->]. by left.
    + destruct (visit_param_dense p pm bs w gr Hg Hs) as (w1 & d & E & ->).
      right. by rewrite place_world, E.
  - left. by rewrite visit_param_no_grad.
Qed.

Lemma init_state_stays p : keeps state_stays (init_state p).
Proof.
  intros w q d Hq Hne.
  destruct (init_state_run p w) as (w1 & d1 & E & Hp & Ho & Hsame & _).
  rewrite E. simpl. destruct (decide (q = p)) as [->|Hqp].
  - rewrite Hp. f_equal. by apply Hsame.
  - by rewrite Ho.
Qed.

Lemma init_state_heap_grows p : keeps heap_grows (init_state p).
Proof.
  intros w. destruct (init_state_run p w) as (w1 & d1 & E & H).
  rewrite E. simpl. apply H.
Qed.

Lemma visit_param_stays pm bs : keeps state_stays (visit_param pm bs).
Proof.
  destruct pm as [p pm]. intros w.
  destruct (visit_param_world p pm bs w) as [-> | ->]; [done|].
  apply init_state_stays.
Qed.

Lemma visit_param_heap_grows pm bs : keeps heap_grows (visit_param pm bs).
Proof.
  destruct pm as [p pm]. intros w.
  destruct (visit_param_world p pm bs w) as [-> | ->]; [done|].
  apply init_state_heap_grows.
Qed.

Lemma visit_param_ok p pm bs w w' bs' gr :
  h_grad (w_heap w) p = Some gr ->
  visit_param (p, pm) bs w = (w', Ok bs') ->
  t_sparse (h_tensor (w_heap w) gr) = false /\
  exists d m v ms,
    state (w_self w') !! p = Some d /\
    d !! "exp_avg" = Some m /\ d !! "exp_avg_sq" = Some v /\
    ms = (if master_weights (w_self w)
          then match pm with Some m0 => [m0] | None => [] end
          else []) /\
    placed (t_dtype (h_tensor (w_heap w') p)) gr p m v ms bs bs'.
Proof.
  intros Hg Hrun.
  destruct (t_sparse (h_tensor (w_heap w) gr)) eqn:Hs.
  { destruct (visit_param_sparse p pm bs w gr Hg Hs) as [msg E].
    by rewrite E in Hrun. }
  split; [done|].
  destruct (visit_param_dense p pm bs w gr Hg Hs) as (w1 & d & E & Ev).
  rewrite Ev in Hrun.
  destruct (init_state_run p w) as (w1' & d' & E' & Hp & _ & _ & Hself & _).
  rewrite E in E'. injection E' as <- <-.
  apply place_ok in Hrun as (-> & m & v & ms & Hm & Hv & Hms & Hpl).
  exists d, m, v, ms. repeat split; try done.
  rewrite Hms. by rewrite <- Hself.
Qed.

Lemma visit_param_other_dtype p pm bs w gr :
  h_grad (w_heap w) p = Some gr ->
  t_sparse (h_tensor (w_heap w) gr) = false ->
  p < h_next (w_heap w) ->
  bucket_for (t_dtype (h_tensor (w_heap w) p)) bs = None ->
  (visit_param (p, pm) bs w).2 =
    Raise (RuntimeError "FusedAdam only support fp16 and fp32.").
Proof.
  intros Hg Hs Hp Hb.
  destruct (visit_param_dense p pm bs w gr Hg Hs) as (w1 & d & E & ->).
  destruct (init_state_run p w) as (w1' & d' & E' & _ & _ & _ & _ & _ & Hh).
  rewrite E in E'. injection E' as <- <-.
  destruct Hh as (_ & _ & Ho).
  rewrite place_other_dtype; [done|]. by rewrite Ho.
Qed.

(** ** The buckets of a group *)

Lemma collect_stays pms bs :
  keeps state_stays (for_acc visit_param pms bs).
Proof.
  apply keeps_for_acc; [apply _|]. intros. apply visit_param_stays.
Qed.

Lemma collect_heap_grows pms bs :
  keeps heap_grows (for_acc visit_param pms bs).
Proof.
  apply keeps_for_acc; [apply _|]. intros. apply visit_param_heap_grows.
Qed.

Lemma selected_heap_grows w w' d ps :
  heap_grows w w' -> Forall (fun p => p < h_next (w_heap w)) ps ->
  selected (w_heap w') d ps = selected (w_heap w) d ps.
Proof.
  intros (G & _ & O) Hps. unfold selected.
  apply filter_ext_in. intros p Hp.
  rewrite Forall_forall in Hps. apply list_elem_of_In in Hp.
  by rewrite G, (O p (Hps p Hp)).
Qed.

Lemma extends_nil w b : extends w [] b b.
Proof.
  exists [], [], []. rewrite !app_nil_r. by repeat split.
Qed.

Lemma extends_cons w p gr m v ms ps b0 b d :
  h_grad (w_heap w) p = Some gr ->
  state (w_self w) !! p = Some d ->
  d !! "exp_avg" = Some m -> d !! "exp_avg_sq" = Some v ->
  extends w ps (push gr p m v ms b0) b ->
  extends w (p :: ps) b0 b.
Proof.
  intros Hg Hd Hm Hv (gs & ms' & vs & Ep & Eg & Em & Ev & Fg & Fm & Fv).
  exists (gr :: gs), (m :: ms'), (v :: vs). simpl in *.
  rewrite <- !app_assoc in *. simpl in *.
  repeat split; try done; constructor; eauto.
Qed.

Lemma collect_extends pms bs0 w w' bs d b0 :
  for_acc visit_param pms bs0 w = (w', Ok bs) ->
  Forall (fun pm => pm.1 < h_next (w_heap w)) pms ->
  bucket_for d bs0 = Some b0 ->
  exists b, bucket_for d bs = Some b /\
            extends w' (selected (w_heap w) d (map fst pms)) b0 b.
Proof.
  revert bs0 w b0. induction pms as [|[p m0] pms IH];
    intros bs0 w b0 Hrun Hal Hb0.
  - injection Hrun as <- <-. exists b0. split; [done|apply extends_nil].
  - cbn [for_acc] in Hrun.
    apply mbind_ok in Hrun as (w1 & bs1 & E1 & Hrun).
    apply Forall_cons in Hal as [Hp Hal]. simpl in Hp.
    pose proof (visit_param_heap_grows (p, m0) bs0 w) as Hg1.
    rewrite E1 in Hg1. simpl in Hg1.
    assert (Forall (fun pm : ref * option ref =>
                      pm.1 < h_next (w_heap w1)) pms) as Hal1.
    { eapply Forall_impl; [exact Hal|]. simpl. intros x Hx.
      destruct Hg1 as (_ & N & _).
      eapply Nat.lt_le_trans; [exact Hx|exact N]. }
    pose proof (collect_heap_grows pms bs1 w1) as Hg2.
    pose proof (collect_stays pms bs1 w1) as Hs2.
    rewrite Hrun in Hg2, Hs2. simpl in Hg2, Hs2.
    assert (selected (w_heap w1) d (map fst pms) =
            selected (w_heap w) d (map fst pms)) as Hsel.
    { apply selected_heap_grows; [done|].
      apply Forall_fmap. exact Hal. }
    simpl. destruct (h_grad (w_heap w) p) as [gr|] eqn:Hgr; simpl.
    + destruct (visit_param_ok p m0 bs0 w w1 bs1 gr Hgr E1)
        as (_ & dct & m & v & ms & Hd & Hm & Hv & _ & Hpl).
      assert (t_dtype (h_tensor (w_heap w1) p) =
              t_dtype (h_tensor (w_heap w) p)) as Hdt.
      { destruct Hg1 as (_ & _ & O). by rewrite O. }
      rewrite Hdt in Hpl.
      assert (h_grad (w_heap w') p = Some gr) as Hgr'.
      { destruct Hg1 as (G1 & _), Hg2 as (G2 & _). congruence. }
      assert (state (w_self w') !! p = Some dct) as Hd'.
      { apply Hs2; [done|]. intros ->. by rewrite lookup_empty in Hm. }
      destruct (decide (t_dtype (h_tensor (w_heap w) p) = d)) as [Heq|Hne].
      * rewrite bool_decide_eq_true_2 by done.
        assert (bucket_for d bs1 = Some (push gr p m v ms b0)) as Hb1.
        { rewrite Heq in Hpl. destruct d; simpl in *; try done;
            subst bs1; simpl; congruence. }
        destruct (IH bs1 w1 _ Hrun Hal1 Hb1) as (b & Hb & He).
        exists b. split; [done|]. rewrite Hsel in He.
        by eapply extends_cons.
      * rewrite bool_decide_eq_false_2 by done.
        assert (bucket_for d bs1 = Some b0) as Hb1.
        { destruct (t_dtype (h_tensor (w_heap w) p)), d; simpl in *;
            try done; subst bs1; simpl; congruence. }
        destruct (IH bs1 w1 _ Hrun Hal1 Hb1) as (b & Hb & He).
        exists b. split; [done|]. by rewrite Hsel in He.
    + rewrite (visit_param_no_grad p m0 bs0 w Hgr) in E1.
      injection E1 as <- <-.
      destruct (IH bs0 w _ Hrun Hal Hb0) as (b & Hb & He). by exists b.
Qed.

Lemma extends_empty w ps b :
  extends w ps empty_bucket b -> bucket_of_params w ps b.
Proof.
  intros (gs & ms & vs & Ep & Eg & Em & Ev & Fg & Fm & Fv).
  simpl in *. unfold bucket_of_params.
  rewrite Ep, Eg, Em, Ev. done.
Qed.

Lemma place_returns p gr pm d bs w m v :
  bucket_for (t_dtype (h_tensor (w_heap w) p)) bs <> None ->
  (master_weights (w_self w) = true -> pm <> None) ->
  d !! "exp_avg" = Some m -> d !! "exp_avg_sq" = Some v ->
  exists bs', place p gr pm d bs w = (w, Ok bs').
Proof.
  intros Hb Hpm Hm Hv.
  unfold place, mbind, get_self, read, master_data, state_get. simpl.
  rewrite Hm, Hv.
  destruct (t_dtype (h_tensor (w_heap w) p)); simpl in *; try done;
    destruct (master_weights (w_self w)); simpl;
    try (destruct pm; [|by destruct Hpm]); simpl; by eexists.
Qed.

Lemma visit_param_returns p pm bs w gr :
  h_grad (w_heap w) p = Some gr ->
  t_sparse (h_tensor (w_heap w) gr) = false ->
  p < h_next (w_heap w) ->
  bucket_for (t_dtype (h_tensor (w_heap w) p)) bs <> None ->
  (default ∅ (state (w_self w) !! p) = ∅ \/ has_moments w p) ->
  (master_weights (w_self w) = true -> pm <> None) ->
  exists w' bs', visit_param (p, pm) bs w = (w', Ok bs').
Proof.
  intros Hg Hs Hp Hb Hst Hpm.
  destruct (visit_param_dense p pm bs w gr Hg Hs) as (w1 & d & E & ->).
  destruct (init_state_run p w)
    as (w1' & d' & E' & _ & _ & Hold & Hself & _ & Hh).
  rewrite E in E'. injection E' as <- <-.
  assert (exists m v, d !! "exp_avg" = Some m /\ d !! "exp_avg_sq" = Some v)
    as (m & v & Hm & Hv).
  { destruct Hst as [He|(d0 & m & v & Hd0 & Hm & Hv)].
    - rewrite (init_state_fresh p w He) in E. injection E as _ <-.
      eexists _, _. split; [|apply lookup_insert_eq].
      rewrite lookup_insert_ne by done. apply lookup_insert_eq.
    - assert (d = d0) as ->.
      { apply Hold; [done|]. intros ->. by rewrite lookup_empty in Hm. }
      by exists m, v. }
  destruct (place_returns p gr pm d bs w1 m v) as [bs' Hbs']; try done.
  - destruct Hh as (_ & _ & O). by rewrite O.
  - apply (f_equal master_weights) in Hself. simpl in Hself.
    by rewrite Hself.
  - by exists w1, bs'.
Qed.

(** X23: at its visit in the loop over a group, a parameter with a dense
    gradient joins the lists of exactly one bucket, the one of its element
    type, with its gradient, itself and the two moments of its state, the
    other buckets being left as they are;
    this happens whenever its element type is one of [float16],
    [bfloat16], [float32], its state is empty or holds both moments, and
    its master weight exists if master weights are kept.  When the element
    type is none of the three the visit raises [RuntimeError].  After the
    loop over a list of parameters each bucket lists, in order, the
    parameters of that list that have a gradient and the element type of
    the bucket, with their gradients and moments. *)
Theorem params_bucketed_by_dtype :
  (forall p pm bs w w' bs' gr,
     h_grad (w_heap w) p = Some gr ->
     visit_param (p, pm) bs w = (w', Ok bs') ->
     t_sparse (h_tensor (w_heap w) gr) = false /\
     exists d m v ms,
       state (w_self w') !! p = Some d /\
       d !! "exp_avg" = Some m /\ d !! "exp_avg_sq" = Some v /\
       ms = (if master_weights (w_self w)
             then match pm with Some m0 => [m0] | None => [] end
             else []) /\
       placed (t_dtype (h_tensor (w_heap w') p)) gr p m v ms bs bs') /\
  (forall p pm bs w gr,
     h_grad (w_heap w) p = Some gr ->
     t_sparse (h_tensor (w_heap w) gr) = false ->
     p < h_next (w_heap w) ->
     bucket_for (t_dtype (h_tensor (w_heap w) p)) bs <> None ->
     (default ∅ (state (w_self w) !! p) = ∅ \/ has_moments w p) ->
     (master_weights (w_self w) = true -> pm <> None) ->
     exists w' bs', visit_param (p, pm) bs w = (w', Ok bs')) /\
  (forall p pm bs w gr,
     h_grad (w_heap w) p = Some gr ->
     t_sparse (h_tensor (w_heap w) gr) = false ->
     p < h_next (w_heap w) ->
     bucket_for (t_dtype (h_tensor (w_heap w) p)) bs = None ->
     (visit_param (p, pm) bs w).2 =
       Raise (RuntimeError "FusedAdam only support fp16 and fp32.")) /\
  (forall pms w w' bs,
     Forall (fun pm => pm.1 < h_next (w_heap w)) pms ->
     for_acc visit_param pms empty_buckets w = (w', Ok bs) ->
     bucket_of_params w' (selected (w_heap w) float16 (map fst pms))
                      (b16 bs) /\
     bucket_of_params w' (selected (w_heap w) bfloat16 (map fst pms))
                      (bbf bs) /\
     bucket_of_params w' (selected (w_heap w) float32 (map fst pms))
                      (b32 bs)).
Proof.
  split; [exact visit_param_ok|]. split; [exact visit_param_returns|].
  split; [exact visit_param_other_dtype|].
  intros pms w w' bs Hal Hrun.
  destruct (collect_extends pms empty_buckets w w' bs float16 empty_bucket
              Hrun Hal eq_refl) as (b1 & [= <-] & H1).
  destruct (collect_extends pms empty_buckets w w' bs bfloat16 empty_bucket
              Hrun Hal eq_refl) as (b2 & [= <-] & H2).
  destruct (collect_extends pms empty_buckets w w' bs float32 empty_bucket
              Hrun Hal eq_refl) as (b3 & [= <-] & H3).
  split; [|split]; by apply extends_empty.
Qed.

(** ** The moments kept in [self.state] *)

Lemma same_states_stays {A} (m : M A) :
  keeps (same states_of) m -> keeps state_stays m.
Proof.
  intros H w p d Hd _. specialize (H w). unfold same, states_of in H.
  by rewrite H.
Qed.

Lemma step_group_stays sc x : keeps state_stays (step_group sc x).
Proof.
  destruct x as [[i g] gm]. apply keeps_step_group_parts; [apply _|..].
  - intros. apply same_states_stays, keeps_update_step; aspect_prims.
  - intros. apply same_states_stays, keeps_update_lr; aspect_prims.
  - intros. apply visit_param_stays.
  - intros. apply same_states_stays, keeps_launch_group; aspect_prims.
Qed.

Lemma call_closure_states c : keeps (same states_of) (call_closure c).
Proof. intros w. unfold call_closure. by destruct (c (w_heap w)). Qed.

Lemma step_stays closure grads output_params scale grad_norms sc :
  keeps state_stays (step closure grads output_params scale grad_norms sc).
Proof.
  unfold step.
  destruct (existsb _ _); [apply keeps_raise; apply _|].
  apply keeps_bind; [apply _| |intros loss].
  { destruct closure as [c|]; [|apply keeps_ret; apply _].
    apply keeps_bind; [apply _| |intros ?; apply keeps_ret; apply _].
    apply same_states_stays, call_closure_states. }
  apply keeps_bind; [apply _| |intros _].
  { apply same_states_stays, keeps_create_master; aspect_prims. }
  apply keeps_bind; [apply _|apply keeps_get_self; apply _|intros s].
  destruct (param_groups_master s); [|apply keeps_raise; apply _].
  apply keeps_bind; [apply _| |intros ?; apply keeps_ret; apply _].
  apply keeps_for_each; [apply _|]. intros. apply step_group_stays.
Qed.

Lemma has_moments_stays w w' p :
  state_stays w w' -> has_moments w p -> has_moments w' p.
Proof.
  intros Hs (d & m & v & Hd & Hm & Hv). exists d, m, v.
  split; [|done]. apply Hs; [done|].
  intros ->. by rewrite lookup_empty in Hm.
Qed.

Lemma launch_group_states sc dev g stp lr bias beta1 beta2 bs :
  keeps (same states_of) (launch_group sc dev g stp lr bias beta1 beta2 bs).
Proof. apply keeps_launch_group; aspect_prims. Qed.

Lemma collect_moments pms bs w w' bs' :
  for_acc visit_param pms bs w = (w', Ok bs') ->
  forall p pm, (p, pm) ∈ pms -> grads_of w p <> None -> has_moments w' p.
Proof.
  intros Hrun p pm Hp Hg.
  set (I := fun w0 : World => grads_of w0 = grads_of w).
  set (P := fun (x : ref * option ref) (w0 : World) =>
              grads_of w x.1 <> None -> has_moments w0 x.1).
  assert (forall x, x ∈ pms -> P x w') as Hall; cycle 1.
  { by apply (Hall (p, pm)). }
  apply (for_acc_ok_all visit_param I P pms bs w w' bs');
    [done| | | |exact Hrun].
  - intros [q qm] s0 w0 _ H0. unfold I in *. rewrite <- H0.
    apply (keeps_visit_param (same grads_of)); aspect_prims.
  - intros [q qm] s0 w0 w1 s1 _ H0 Hv Hq. simpl in *.
    unfold I in H0. rewrite <- H0 in Hq. unfold grads_of in Hq.
    destruct (h_grad (w_heap w0) q) as [gr|] eqn:Egr; [|done].
    destruct (visit_param_ok q qm s0 w0 w1 s1 gr Egr Hv)
      as (_ & d & m & v & _ & Hd & Hm & Hv' & _).
    by exists d, m, v.
  - intros x y s0 w0 _ _ _ HP Hx.
    eapply has_moments_stays; [apply visit_param_stays|by apply HP].
Qed.

Lemma elem_of_zip_aligned {A B} (l : list A) (k : list B) x :
  x ∈ l -> length l = length k -> exists y, (x, y) ∈ zip l k.
Proof.
  intros Hx Hlen. apply list_elem_of_lookup in Hx as [j Hj].
  destruct (lookup_lt_is_Some_2 k j) as [y Hy].
  { rewrite <- Hlen. by apply lookup_lt_Some in Hj. }
  exists y. apply list_elem_of_lookup. exists j.
  apply lookup_zip_with_Some. by exists x, y.
Qed.

Lemma step_groups_grads sc l : keeps (same grads_of) (for_each (step_group sc) l).
Proof. apply keeps_for_each; [apply _|]. intros. apply step_group_grads. Qed.

Lemma update_step_grads i g dev :
  keeps (same grads_of) (update_step i g dev).
Proof. apply keeps_update_step; aspect_prims. Qed.

Lemma update_lr_grads i g dev : keeps (same grads_of) (update_lr i g dev).
Proof. apply keeps_update_lr; aspect_prims. Qed.

Lemma step_group_moments sc i g gm w0 w1 :
  step_group sc (i, g, gm) w0 = (w1, Ok tt) ->
  length (g_params g) = length gm ->
  forall p, p ∈ g_params g -> grads_of w0 p <> None -> has_moments w1 p.
Proof.
  intros Hrun Hlen p Hp Hg. unfold step_group in Hrun.
  destruct (elem_of_zip_aligned _ _ _ Hp Hlen) as [pm Hpm].
  destruct (g_params g) as [|p0 ps] eqn:Eps; [by apply elem_of_nil in Hp|].
  apply mbind_ok in Hrun as (wa & t0 & Ea & Hrun). injection Ea as <- <-.
  apply mbind_ok in Hrun as (wb & stp & Eb & Hrun).
  apply mbind_ok in Hrun as (wc & lr & Ec & Hrun).
  apply mbind_ok in Hrun as (wd & bs & Ed & Hrun).
  assert (grads_of wc = grads_of w0) as Hgc.
  { pose proof (update_step_grads i g
                  (t_device (h_tensor (w_heap w0) p0)) w0) as H1.
    pose proof (update_lr_grads i g
                  (t_device (h_tensor (w_heap w0) p0)) wb) as H2.
    rewrite Eb in H1. rewrite Ec in H2. unfold same in *. simpl in *.
    congruence. }
  assert (has_moments wd p) as Hd.
  { apply (collect_moments _ _ _ _ _ Ed p pm Hpm). by rewrite Hgc. }
  pose proof (launch_group_states sc (t_device (h_tensor (w_heap w0) p0)) g
                stp lr
                (match g_bias_correction g with
                 | Some true => 1%Z | _ => 0%Z end)
                (g_betas g).1 (g_betas g).2 bs wd) as Hl.
  rewrite Hrun in Hl. unfold same, states_of in Hl. simpl in Hl.
  destruct Hd as (d & m & v & Hd & Hm & Hv). exists d, m, v.
  by rewrite Hl.
Qed.

Lemma step_moments closure sc w w' loss :
  master_aligned w ->
  step closure None None None None sc w = (w', Ok loss) ->
  forall g p,
    g ∈ param_groups (w_self w) -> p ∈ g_params g ->
    grads_of w' p <> None -> has_moments w' p.
Proof.
  intros Hal Hrun g p Hg Hp Hgr.
  apply step_ok_inv in Hrun as (Hc & w2 & ms & Ecm & Ems & Hloop).
  assert (w_self (after_closure closure w) = w_self w) as Hself.
  { destruct closure as [c|]; [|done]. simpl. unfold call_closure.
    by destruct (c (w_heap w)). }
  destruct (create_master_aligned (after_closure closure w))
    as (w2' & ms' & Ecm' & S2 & _ & _ & _ & _ & F).
  { unfold master_aligned, master_of_world in *. by rewrite Hself. }
  rewrite Ecm in Ecm'. injection Ecm' as <-.
  rewrite Hself in S2, F.
  assert (ms' = ms) as ->.
  { unfold master_of_world in Ems. rewrite S2 in Ems. simpl in Ems.
    congruence. }
  assert (param_groups (w_self w2) = param_groups (w_self w)) as Hgs
    by (by rewrite S2).
  rewrite Hgs in Hloop.
  pose proof (step_groups_grads sc
                (zip (enumerate (param_groups (w_self w))) ms) w2) as Hgr2.
  rewrite Hloop in Hgr2. unfold same in Hgr2. simpl in Hgr2.
  apply list_elem_of_lookup in Hg as [i Hi].
  destruct (Forall2_lookup_l _ _ _ _ _ F Hi) as (gm & Hgm & Hlen).
  set (I := fun w0 : World => grads_of w0 = grads_of w2).
  set (P := fun (x : nat * Group * list (option ref)) (w0 : World) =>
              length (g_params x.1.2) = length x.2 ->
              forall q, q ∈ g_params x.1.2 -> grads_of w2 q <> None ->
                        has_moments w0 q).
  assert (forall x, x ∈ zip (enumerate (param_groups (w_self w))) ms ->
                    P x w') as Hall; cycle 1.
  { apply (Hall (i, g, gm)); simpl; try done.
    - apply list_elem_of_lookup. exists i. by apply lookup_groups_masters.
    - by rewrite <- Hgr2. }
  apply (for_each_ok_all (step_group sc) I P _ w2 w'); [| | | |exact Hloop].
  - done.
  - intros x w0 _ H0. unfold I in *. rewrite <- H0.
    apply step_group_grads.
  - intros [[j gj] gmj] w0 w1 _ H0 Hbody Hl q Hq Hgq. simpl in *.
    apply (step_group_moments sc j gj gmj w0 w1 Hbody Hl q Hq).
    unfold I in H0. by rewrite H0.
  - intros a b x y w0 _ _ _ _ HP Hl q Hq Hgq.
    eapply has_moments_stays; [apply step_group_stays|by apply HP].
Qed.

(** Rounding to a floating element type keeps zero. *)
Hypothesis fround_zero : forall d, fround d 0 = 0%Q.

Lemma float_zeros_like t : t_to float32 (zeros_like t) = zero_moment t.
Proof.
  unfold t_to, zeros_like, zero_moment. simpl.
  destruct (decide (t_dtype t = float32)) as [->|Hne]; [done|].
  unfold t_cast. simpl. f_equal.
  rewrite map_repeat. simpl. by rewrite fround_zero.
Qed.

Lemma visit_param_initializes p pm bs w gr :
  h_grad (w_heap w) p = Some gr ->
  t_sparse (h_tensor (w_heap w) gr) = false ->
  default ∅ (state (w_self w) !! p) = ∅ ->
  p < h_next (w_heap w) ->
  let w' := (visit_param (p, pm) bs w).1 in
  let m := h_next (w_heap w) in
  let v := S (h_next (w_heap w)) in
  state (w_self w') !! p =
    Some (<["exp_avg_sq" := v]> (<["exp_avg" := m]> ∅)) /\
  h_tensor (w_heap w') m = zero_moment (h_tensor (w_heap w) p) /\
  h_tensor (w_heap w') v = zero_moment (h_tensor (w_heap w) p).
Proof.
  intros Hg Hs Hd Hp.
  destruct (visit_param_dense p pm bs w gr Hg Hs) as (w1 & d & E & Ev).
  cbv zeta. rewrite Ev, place_world.
  rewrite (init_state_fresh p w Hd) in E. injection E as <- <-. simpl.
  split; [by rewrite lookup_insert_eq|].
  rewrite !float_zeros_like.
  rewrite (decide_False (P := p = h_next (w_heap w))) by lia.
  rewrite (decide_False (P := h_next (w_heap w) = S (h_next (w_heap w))))
    by lia.
  rewrite !decide_True by done. done.
Qed.

Lemma visit_param_reuses p pm bs w d :
  state (w_self w) !! p = Some d -> d <> ∅ ->
  (visit_param (p, pm) bs w).1 = w.
Proof.
  intros Hd Hne.
  destruct (visit_param_world p pm bs w) as [-> | ->]; [done|].
  by rewrite (init_state_existing p d w).
Qed.

(** X24: in an optimizer whose master weights, once built, list one entry
    per parameter of each group, after a call of [step] that ends normally
    the state of every parameter of a group that has a gradient holds
    ["exp_avg"] and ["exp_avg_sq"].  When the dictionary of the parameter
    is empty at its visit, the two entries are new [float32] tensors of
    zeros with the shape of the parameter; a dictionary that is not empty
    is reused: the visit creates nothing, and the dictionary holds the
    same tensors after the call. *)
Theorem moments_initialized_once :
  (forall closure sc w w' loss,
     master_aligned w ->
     step closure None None None None sc w = (w', Ok loss) ->
     forall g p,
       g ∈ param_groups (w_self w) -> p ∈ g_params g ->
       grads_of w' p <> None -> has_moments w' p) /\
  (forall p pm bs w gr,
     h_grad (w_heap w) p = Some gr ->
     t_sparse (h_tensor (w_heap w) gr) = false ->
     default ∅ (state (w_self w) !! p) = ∅ ->
     p < h_next (w_heap w) ->
     let w' := (visit_param (p, pm) bs w).1 in
     let m := h_next (w_heap w) in
     let v := S (h_next (w_heap w)) in
     state (w_self w') !! p =
       Some (<["exp_avg_sq" := v]> (<["exp_avg" := m]> ∅)) /\
     h_tensor (w_heap w') m = zero_moment (h_tensor (w_heap w) p) /\
     h_tensor (w_heap w') v = zero_moment (h_tensor (w_heap w) p)) /\
  (forall p pm bs w d,
     state (w_self w) !! p = Some d -> d <> ∅ ->
     (visit_param (p, pm) bs w).1 = w) /\
  (forall closure grads output_params scale grad_norms sc w p d,
     state (w_self w) !! p = Some d -> d <> ∅ ->
     state (w_self
              (step closure grads output_params scale grad_norms sc w).1)
       !! p = Some d).
Proof.
  split; [exact step_moments|].
  split; [exact visit_param_initializes|].
  split; [exact visit_param_reuses|].
  intros closure grads output_params scale grad_norms sc w p d Hd Hne.
  by apply (step_stays closure grads output_params scale grad_norms sc w).
Qed.

(** ** A parameter without gradient *)

Section keeps_inv.
Context (U : World -> Prop).

Lemma inv_ret {A} (a : A) (Q : A -> Prop) : Q a -> keeps_inv U (mret a) Q.
Proof. intros HQ w HU. split; [done|]. by intros ? [= <-]. Qed.

Lemma inv_raise {A} (e : exn) (Q : A -> Prop) : keeps_inv U (raise e) Q.
Proof. intros w HU. by split. Qed.

Lemma inv_bind {A B} (m : M A) (k : A -> M B) (Q1 : A -> Prop)
    (Q2 : B -> Prop) :
  keeps_inv U m Q1 -> (forall a, Q1 a -> keeps_inv U (k a) Q2) ->
  keeps_inv U (mbind m k) Q2.
Proof.
  intros Hm Hk w HU. unfold mbind. destruct (Hm w HU) as [H1 H2].
  destruct (m w) as [w1 [a|e]]; simpl in *; [|by split].
  apply Hk; [by apply H2|done].
Qed.

Lemma inv_mono {A} (m : M A) (Q Q' : A -> Prop) :
  keeps_inv U m Q -> (forall a, Q a -> Q' a) -> keeps_inv U m Q'.
Proof. intros Hm HQ w HU. destruct (Hm w HU). split; auto. Qed.

Lemma inv_read r : keeps_inv U (read r) (fun _ => True).
Proof. intros w HU. by split. Qed.

Lemma inv_get_self : keeps_inv U get_self (fun _ => True).
Proof. intros w HU. by split. Qed.

Lemma inv_for_each {A} (body : A -> M unit) l :
  (forall x, x ∈ l -> keeps_inv U (body x) (fun _ => True)) ->
  keeps_inv U (for_each body l) (fun _ => True).
Proof.
  induction l as [|x l IH]; intros Hb; simpl.
  - by apply inv_ret.
  - eapply inv_bind; [apply Hb, list_elem_of_here|]. intros _ _.
    apply IH. intros y Hy. by apply Hb, list_elem_of_further.
Qed.

Lemma inv_for_acc {A S} (body : A -> S -> M S) (Q : S -> Prop) l s :
  Q s ->
  (forall x s0, x ∈ l -> Q s0 -> keeps_inv U (body x s0) Q) ->
  keeps_inv U (for_acc body l s) Q.
Proof.
  revert s. induction l as [|x l IH]; intros s Hs Hb; simpl.
  - by apply inv_ret.
  - eapply inv_bind; [by apply Hb; [apply list_elem_of_here|]|].
    intros s1 H1. apply IH; [done|].
    intros y s0 Hy. by apply Hb, list_elem_of_further.
Qed.
End keeps_inv.

Lemma write_list_other rs vs h (p : ref) :
  p ∉ rs -> h_tensor (write_list rs vs h) p = h_tensor h p.
Proof.
  revert vs h. induction rs as [|r rs IH]; intros [|v vs] h Hp; simpl;
    try done.
  apply not_elem_of_cons in Hp as [Hne Hp]. rewrite IH by done. simpl.
  by rewrite decide_False.
Qed.

Lemma write_lists_other rss vss h (p : ref) :
  p ∉ concat rss -> h_tensor (write_lists rss vss h) p = h_tensor h p.
Proof.
  revert vss h. induction rss as [|rs rss IH]; intros [|vs vss] h Hp; simpl;
    try done.
  simpl in Hp. apply not_elem_of_app in Hp as [H1 H2].
  rewrite IH by done. by apply write_list_other.
Qed.

Lemma elem_of_alter_inv {A} (f : A -> A) i (l : list A) x :
  x ∈ alter f i l -> x ∈ l \/ exists y, y ∈ l /\ x = f y.
Proof.
  intros Hx. apply list_elem_of_lookup in Hx as [j Hj].
  destruct (decide (i = j)) as [->|Hne].
  - rewrite list_lookup_alter_eq in Hj.
    destruct (l !! j) as [y|] eqn:E; [|done]. injection Hj as <-.
    right. exists y. split; [|done]. by eapply list_elem_of_lookup_2.
  - rewrite list_lookup_alter_ne in Hj by done.
    left. by eapply list_elem_of_lookup_2.
Qed.

Section untouched.
Variables (p : ref) (t0 : Tensor) (tr0 : list Event).
Local Abbreviation U := (untouched p t0 tr0).

Lemma U_new t : keeps_inv U (new_tensor t) (fun r => r <> p).
Proof.
  intros w ((Hn & Hgr & Hst & Hgs & Hms) & Hg & Ht & Htr). simpl.
  split; [|intros a [= <-]; lia].
  repeat split; simpl; try done; try lia.
  rewrite decide_False; [done|lia].
Qed.

Lemma U_write r es :
  r <> p -> keeps_inv U (write_elems r es) (fun _ => True).
Proof.
  intros Hr w ((Hn & Hgr & Hst & Hgs & Hms) & Hg & Ht & Htr). simpl.
  split; [|done]. repeat split; simpl; try done.
  by rewrite decide_False.
Qed.

Lemma U_assign_step i v :
  v <> PTensor p -> keeps_inv U (assign_step i v) (fun _ => True).
Proof.
  intros Hv w ((Hn & Hgr & Hst & Hgs & Hms) & Hg & Ht & Htr). simpl.
  split; [|done]. repeat split; simpl; try done.
  intros g Hin. apply elem_of_alter_inv in Hin as [Hin|(y & Hy & ->)].
  - by apply Hgs.
  - simpl. congruence.
Qed.

Lemma U_assign_lr i v : keeps_inv U (assign_lr i v) (fun _ => True).
Proof.
  intros w ((Hn & Hgr & Hst & Hgs & Hms) & Hg & Ht & Htr). simpl.
  split; [|done]. repeat split; simpl; try done.
  intros g Hin. apply elem_of_alter_inv in Hin as [Hin|(y & Hy & ->)].
  - by apply Hgs.
  - simpl. by apply Hgs.
Qed.

Lemma U_buf b : keeps_inv U (modify_self (with_buf b)) (fun _ => True).
Proof.
  intros w ((Hn & Hgr & Hst & Hgs & Hms) & Hg & Ht & Htr). simpl.
  split; [|done]. by repeat split.
Qed.

Lemma U_state_of q :
  keeps_inv U (state_of q)
            (fun d => forall k r, d !! k = Some r -> r <> p).
Proof.
  intros w ((Hn & Hgr & Hst & Hgs & Hms) & Hg & Ht & Htr).
  unfold state_of, mbind, get_self. simpl.
  destruct (state (w_self w) !! q) as [d|] eqn:E; simpl.
  - split; [by repeat split|]. intros a [= <-] k r Hk.
    exact (Hst q d k r E Hk).
  - split; [|by intros a [= <-] k r; rewrite lookup_empty].
    repeat split; simpl; try done.
    intros q' d k r Hq'. destruct (decide (q = q')) as [->|Hne].
    + rewrite lookup_insert_eq in Hq'. injection Hq' as <-.
      by rewrite lookup_empty.
    + rewrite lookup_insert_ne in Hq' by done. intros Hk.
      exact (Hst q' d k r Hq' Hk).
Qed.

Lemma U_state_set q k r :
  r <> p -> keeps_inv U (state_set q k r) (fun _ => True).
Proof.
  intros Hr w ((Hn & Hgr & Hst & Hgs & Hms) & Hg & Ht & Htr). simpl.
  split; [|done]. repeat split; simpl; try done.
  intros q' d k' r' Hq'. destruct (decide (q = q')) as [->|Hne].
  - rewrite lookup_insert_eq in Hq'. injection Hq' as <-.
    destruct (decide (k = k')) as [->|Hk].
    + rewrite lookup_insert_eq. by intros [= <-].
    + rewrite lookup_insert_ne by done.
      destruct (state (w_self w) !! q') as [d|] eqn:E; simpl.
      * intros Hk'. exact (Hst q' d k' r' E Hk').
      * by rewrite lookup_empty.
  - rewrite lookup_insert_ne in Hq' by done. intros Hk'.
    exact (Hst q' d k' r' Hq' Hk').
Qed.

Lemma U_applier op lists lr beta1 beta2 eps stp mode bias wd inv :
  p ∉ concat lists ->
  keeps_inv U (multi_tensor_applier op lists lr beta1 beta2 eps stp mode
                                    bias wd inv)
            (fun _ => True).
Proof.
  intros Hp w ((Hn & Hgr & Hst & Hgs & Hms) & Hg & Ht & Htr).
  unfold multi_tensor_applier, mbind, get_self, emit, get_heap, put_heap.
  simpl. split; [|done].
  repeat split; simpl; rewrite ?write_lists_next, ?write_lists_grad;
    try done.
  - by rewrite write_lists_other.
  - destruct Htr as (evs & -> & Hevs). eexists.
    split; [by rewrite <- app_assoc|].
    apply Forall_app. split; [done|]. by repeat constructor.
Qed.
End untouched.

Section untouched_step.
Variables (p : ref) (t0 : Tensor) (tr0 : list Event).
Local Abbreviation U := (untouched p t0 tr0).

Lemma U_to_device dev r :
  keeps_inv U (to_device dev r) (fun r' => r' = r \/ r' <> p).
Proof.
  unfold to_device. eapply inv_bind; [apply inv_read|]. intros t _.
  destruct (decide (t_device t = dev)).
  - apply inv_ret. by left.
  - eapply inv_mono; [apply U_new|]. intros a Ha. by right.
Qed.

Lemma U_tensor_of_number d sh dev x :
  keeps_inv U (tensor_of_number d sh dev x) (fun r => r <> p).
Proof.
  unfold tensor_of_number.
  destruct (is_floating d); [apply U_new|].
  destruct (in_int32 (trunc x) || negb (bool_decide (d = int32)));
    [apply U_new|apply inv_raise].
Qed.

Lemma U_iadd_scalar r s :
  r <> p -> keeps_inv U (iadd_scalar r s) (fun _ => True).
Proof.
  intros Hr. unfold iadd_scalar.
  eapply inv_bind; [apply inv_read|]. intros t _. by apply U_write.
Qed.

Lemma U_iadd_flag r u :
  r <> p -> keeps_inv U (iadd_flag r u) (fun _ => True).
Proof.
  intros Hr. unfold iadd_flag.
  eapply inv_bind; [apply inv_read|]. intros t _.
  destruct (t_shape t); [apply inv_raise|by apply U_write].
Qed.

Lemma U_update_step i g dev :
  g_step g <> Some (PTensor p) ->
  keeps_inv U (update_step i g dev) (fun v => v <> PTensor p).
Proof.
  intros Hg. unfold update_step.
  eapply inv_bind; [apply inv_get_self|]. intros s _.
  destruct (g_step g) as [v|].
  - destruct (capturable s).
    + eapply inv_bind with (Q1 := fun r => r <> p).
      { destruct v as [z|q|r].
        - apply U_tensor_of_number.
        - apply U_tensor_of_number.
        - eapply inv_mono; [apply U_to_device|].
          intros a [->|Ha]; [congruence|done]. }
      intros r Hr.
      eapply inv_bind; [apply U_assign_step; congruence|]. intros _ _.
      eapply inv_bind; [by apply U_iadd_flag|]. intros _ _.
      eapply inv_bind; [apply U_assign_step; congruence|]. intros _ _.
      apply inv_ret. congruence.
    + destruct v as [z|q|r].
      * eapply inv_bind; [by apply U_assign_step|]. intros _ _.
        by apply inv_ret.
      * eapply inv_bind; [by apply U_assign_step|]. intros _ _.
        by apply inv_ret.
      * assert (r <> p) as Hr by congruence.
        eapply inv_bind; [by apply U_iadd_scalar|]. intros _ _.
        eapply inv_bind; [apply U_assign_step; congruence|]. intros _ _.
        apply inv_ret. congruence.
  - destruct (capturable s).
    + eapply inv_bind; [apply U_new|]. intros r Hr.
      eapply inv_bind; [apply U_assign_step; congruence|]. intros _ _.
      apply inv_ret. congruence.
    + eapply inv_bind; [by apply U_assign_step|]. intros _ _.
      by apply inv_ret.
Qed.

Lemma U_update_lr i g dev :
  keeps_inv U (update_lr i g dev) (fun _ => True).
Proof.
  unfold update_lr.
  eapply inv_bind; [apply inv_get_self|]. intros s _.
  destruct (capturable s); [|by apply inv_ret].
  eapply inv_bind with (Q1 := fun _ => True).
  { destruct (g_lr g).
    - eapply inv_mono; [apply U_tensor_of_number|done].
    - eapply inv_mono; [apply U_tensor_of_number|done].
    - eapply inv_mono; [apply U_to_device|done]. }
  intros r _. eapply inv_bind; [apply U_assign_lr|]. intros _ _.
  by apply inv_ret.
Qed.

Lemma U_init_state q :
  keeps_inv U (init_state q)
            (fun d => forall k r, d !! k = Some r -> r <> p).
Proof.
  unfold init_state. eapply inv_bind; [apply U_state_of|]. intros d Hd.
  destruct (decide (size d = 0)); [|by apply inv_ret].
  eapply inv_bind; [apply inv_read|]. intros t _.
  eapply inv_bind; [apply U_new|]. intros m Hm.
  eapply inv_bind; [by apply U_state_set|]. intros _ _.
  eapply inv_bind; [apply inv_read|]. intros t' _.
  eapply inv_bind; [apply U_new|]. intros v Hv.
  eapply inv_bind; [by apply U_state_set|]. intros _ _.
  apply inv_ret. intros k r.
  destruct (decide (k = "exp_avg_sq")) as [->|H1].
  { rewrite lookup_insert_eq. by intros [= <-]. }
  rewrite lookup_insert_ne by done.
  destruct (decide (k = "exp_avg")) as [->|H2].
  { rewrite lookup_insert_eq. by intros [= <-]. }
  rewrite lookup_insert_ne by done. apply Hd.
Qed.

Lemma clean_push gr q m v ms b :
  gr <> p -> q <> p -> m <> p -> v <> p -> p ∉ ms ->
  clean_bucket p b -> clean_bucket p (push gr q m v ms b).
Proof.
  intros Hgr Hq Hm Hv Hms (H1 & H2 & H3 & H4 & H5).
  unfold clean_bucket, push. simpl.
  rewrite !not_elem_of_app, !not_elem_of_cons.
  repeat split; try done; try congruence; apply not_elem_of_nil.
Qed.

Lemma U_place q gr pm d bs :
  q <> p -> gr <> p -> pm <> Some p ->
  (forall k r, d !! k = Some r -> r <> p) ->
  clean_buckets p bs ->
  keeps_inv U (place q gr pm d bs) (clean_buckets p).
Proof.
  intros Hq Hgr Hpm Hd (C1 & C2 & C3) w HU. rewrite place_world.
  split; [done|]. intros bs' Hr.
  destruct (place q gr pm d bs w) as [w' r] eqn:E. simpl in Hr. subst r.
  apply place_ok in E as (_ & m & v & ms & Hm & Hv & Hms & Hpl).
  assert (p ∉ ms) as Hms'.
  { subst ms. destruct (master_weights (w_self w));
      [destruct pm as [m0|]|]; try apply not_elem_of_nil.
    apply not_elem_of_cons. split; [congruence|apply not_elem_of_nil]. }
  apply Hd in Hm, Hv.
  destruct (t_dtype (h_tensor (w_heap w) q)); simpl in Hpl; try done;
    subst bs'; unfold clean_buckets; simpl; (split; [|split]); try done;
    by apply clean_push.
Qed.

Lemma U_visit_param q pm bs :
  pm <> Some p -> clean_buckets p bs ->
  keeps_inv U (visit_param (q, pm) bs) (clean_buckets p).
Proof.
  intros Hpm Hbs w HU.
  destruct (h_grad (w_heap w) q) as [gr|] eqn:Hg.
  - assert (gr <> p /\ q <> p) as [Hgr Hq].
    { destruct HU as ((_ & Hgrs & _) & Hnone & _). split.
      - by eapply Hgrs.
      - intros ->. congruence. }
    destruct (t_sparse (h_tensor (w_heap w) gr)) eqn:Hs.
    + destruct (visit_param_sparse q pm bs w gr Hg Hs) as [msg ->].
      by split.
    + destruct (visit_param_dense q pm bs w gr Hg Hs) as (w1 & d & E & ->).
      destruct (U_init_state q w HU) as [HU1 Hd]. rewrite E in HU1, Hd.
      simpl in *. apply U_place; try done. by apply Hd.
  - rewrite visit_param_no_grad by done. split; [done|].
    by intros a [= <-].
Qed.

Lemma U_copy_to_buf t : keeps_inv U (copy_to_buf t) (fun _ => True).
Proof.
  unfold copy_to_buf.
  destruct (t_elems t) as [|x [|y l]]; try apply inv_raise.
  destruct (t_shape t) as [|n [|k sh]]; try apply inv_raise; apply U_buf.
Qed.

Lemma U_scaler_prelude sc dev :
  keeps_inv U (scaler_prelude sc dev) (fun _ => True).
Proof.
  unfold scaler_prelude.
  eapply inv_bind with (Q1 := fun _ => True).
  { intros w HU. by split. }
  intros h _. eapply inv_bind with (Q1 := fun _ => True).
  { destruct sc as [sc|]; [|by apply inv_ret].
    destruct (check_inf_per_device sc h dev);
      [by apply inv_ret|apply inv_raise]. }
  intros found _. eapply inv_bind; [apply U_copy_to_buf|]. intros _ _.
  destruct sc as [sc|].
  - destruct (get_scale_async sc); [|apply inv_raise].
    eapply inv_mono; [apply U_new|done].
  - eapply inv_mono; [apply U_new|done].
Qed.

Lemma clean_lists wm b :
  clean_bucket p b -> p ∉ concat (lists_of wm b).
Proof.
  intros (H1 & H2 & H3 & H4 & H5). unfold lists_of.
  destruct wm; simpl; rewrite !not_elem_of_app; repeat split; try done;
    apply not_elem_of_nil.
Qed.

Lemma U_launch_if (c : bool) op wm b lr beta1 beta2 eps stp mode bias wd
    inv :
  clean_bucket p b ->
  keeps_inv U
    (if c then
       multi_tensor_applier op (lists_of wm b) lr beta1 beta2 eps stp mode
                            bias wd inv
     else mret tt)
    (fun _ => True).
Proof.
  intros Hb. destruct c; [|by apply inv_ret].
  apply U_applier. by apply clean_lists.
Qed.

Lemma U_launch_group sc dev g stp lr bias beta1 beta2 bs :
  clean_buckets p bs ->
  keeps_inv U (launch_group sc dev g stp lr bias beta1 beta2 bs)
            (fun _ => True).
Proof.
  intros (C1 & C2 & C3). unfold launch_group.
  eapply inv_bind; [apply inv_get_self|]. intros s _.
  destruct (capturable s).
  - eapply inv_bind; [apply U_scaler_prelude|]. intros inv _.
    eapply inv_bind; [by apply U_launch_if|]. intros _ _.
    eapply inv_bind; [by apply U_launch_if|]. intros _ _.
    by apply U_launch_if.
  - eapply inv_bind; [by apply U_launch_if|]. intros _ _.
    eapply inv_bind; [by apply U_launch_if|]. intros _ _.
    by apply U_launch_if.
Qed.

Lemma clean_empty : clean_buckets p empty_buckets.
Proof. repeat split; apply not_elem_of_nil. Qed.

Lemma U_step_group sc i g gm :
  g_step g <> Some (PTensor p) -> Some p ∉ gm ->
  keeps_inv U (step_group sc (i, g, gm)) (fun _ => True).
Proof.
  intros Hg Hgm. unfold step_group.
  destruct (g_params g) as [|p0 ps]; [by apply inv_ret|].
  eapply inv_bind; [apply inv_read|]. intros t _.
  eapply inv_bind; [by apply U_update_step|]. intros stp _.
  eapply inv_bind; [apply U_update_lr|]. intros lr _.
  eapply inv_bind with (Q1 := clean_buckets p).
  - apply inv_for_acc; [apply clean_empty|].
    intros [q pm] bs Hin Hbs. apply U_visit_param; [|done].
    apply elem_of_zip_r in Hin. intros ->. done.
  - intros bs Hbs. by apply U_launch_group.
Qed.
End untouched_step.

Lemma step_world_after_closure closure sc w :
  (step closure None None None None sc w).1 = after_closure closure w \/
  (step closure None None None None sc w).1 =
    (step None None None None None sc (after_closure closure w)).1.
Proof.
  destruct closure as [c|]; [|by right]. simpl.
  destruct (call_closure c w) as [w1 [l|e]] eqn:E; simpl.
  - right. unfold step. simpl.
    rewrite (mbind_run _ _ w w1 (Some l)); cycle 1.
    { by rewrite (mbind_run _ _ w w1 l E). }
    rewrite (mbind_run (mret None) _ w1 w1 None eq_refl).
    destruct (create_master w1) as [w2 [[]|e]] eqn:E2.
    + rewrite !(mbind_run _ _ w1 w2 tt E2).
      rewrite !(mbind_run get_self _ w2 w2 (w_self w2) eq_refl).
      destruct (param_groups_master (w_self w2)); [|done].
      by rewrite !mbind_ret_world.
    + by rewrite !(mbind_raise _ _ w1 w2 e E2).
  - left. unfold step. simpl.
    rewrite (mbind_raise _ _ w w1 e); [done|].
    by rewrite (mbind_raise _ _ w w1 e E).
Qed.

Section untouched_call.
Variables (p : ref) (t0 : Tensor) (tr0 : list Event).
Local Abbreviation U := (untouched p t0 tr0).

Lemma U_float_ r : keeps_inv U (float_ r) (fun r' => r' = r \/ r' <> p).
Proof.
  unfold float_. eapply inv_bind; [apply inv_read|]. intros t _.
  destruct (decide (t_dtype t = float32)).
  - apply inv_ret. by left.
  - eapply inv_mono; [apply U_new|]. intros a Ha. by right.
Qed.

Lemma U_master_of mw q :
  keeps_inv U (master_of mw q) (fun e => e <> Some p).
Proof.
  unfold master_of. destruct mw; [|by apply inv_ret].
  eapply inv_bind; [apply inv_read|]. intros t _.
  eapply inv_bind; [apply U_new|]. intros c Hc.
  eapply inv_bind; [apply U_float_|]. intros m Hm.
  apply inv_ret. intros [= ->]. destruct Hm; congruence.
Qed.

Lemma U_master_list mw ps :
  keeps_inv U (master_list mw ps) (fun ms => Some p ∉ ms).
Proof.
  induction ps as [|q ps IH]; simpl.
  - apply inv_ret. apply not_elem_of_nil.
  - eapply inv_bind; [apply U_master_of|]. intros e He.
    eapply inv_bind; [apply IH|]. intros ms Hms.
    apply inv_ret. apply not_elem_of_cons. split; [congruence|done].
Qed.

Lemma U_master_groups mw gs :
  keeps_inv U (master_groups mw gs)
            (fun mss => forall gm, gm ∈ mss -> Some p ∉ gm).
Proof.
  induction gs as [|g gs IH]; simpl.
  - apply inv_ret. intros gm Hgm. by apply elem_of_nil in Hgm.
  - eapply inv_bind; [apply U_master_list|]. intros m Hm.
    eapply inv_bind; [apply IH|]. intros ms Hms.
    apply inv_ret. intros gm Hgm.
    apply elem_of_cons in Hgm as [->|Hgm]; [done|by apply Hms].
Qed.

Lemma U_with_master ms :
  (forall gm, gm ∈ ms -> Some p ∉ gm) ->
  keeps_inv U (modify_self (with_master (Some ms))) (fun _ => True).
Proof.
  intros Hc w ((Hn & Hgr & Hst & Hgs & Hms) & Hg & Ht & Htr). simpl.
  split; [|done]. repeat split; simpl; try done.
  intros ms' gm [= <-]. apply Hc.
Qed.

Lemma U_self :
  keeps_inv U get_self
    (fun s =>
       (forall g, g ∈ param_groups s -> g_step g <> Some (PTensor p)) /\
       (forall ms gm, param_groups_master s = Some ms -> gm ∈ ms ->
                      Some p ∉ gm)).
Proof.
  intros w HU. split; [done|]. intros s [= <-].
  destruct HU as ((Hn & Hgr & Hst & Hgs & Hms) & _). by split.
Qed.

Lemma U_create_master : keeps_inv U create_master (fun _ => True).
Proof.
  unfold create_master.
  eapply inv_bind; [apply inv_get_self|]. intros s _.
  destruct (param_groups_master s); [by apply inv_ret|].
  eapply inv_bind; [apply U_master_groups|]. intros ms Hms.
  by apply U_with_master.
Qed.

Lemma U_step sc :
  keeps_inv U (step None None None None None sc) (fun _ => True).
Proof.
  unfold step. simpl.
  eapply inv_bind with (Q1 := fun _ => True); [by apply inv_ret|].
  intros loss _.
  eapply inv_bind; [apply U_create_master|]. intros _ _.
  eapply inv_bind; [apply U_self|]. intros s [Hgs Hms].
  destruct (param_groups_master s) as [ms|] eqn:Ems; [|apply inv_raise].
  eapply inv_bind; [|intros _ _; by apply inv_ret].
  apply inv_for_each. intros [[i g] gm] Hin.
  apply list_elem_of_lookup in Hin as [a Ha].
  apply lookup_groups_masters in Ha as (-> & Hg & Hgm).
  apply U_step_group.
  - apply Hgs. by eapply list_elem_of_lookup_2.
  - apply (Hms ms); [done|]. by eapply list_elem_of_lookup_2.
Qed.
End untouched_call.

#[global] Instance state_kept_preorder p : PreOrder (state_kept p).
Proof.
  split.
  - intros w Hg. done.
  - intros w1 w2 w3 H1 H2 Hg. destruct (H1 Hg) as [G1 S1].
    destruct (H2 G1) as [G2 S2]. split; [done|congruence].
Qed.

Lemma same_state_kept {A} p (m : M A) :
  keeps (same grads_of) m -> keeps (same states_of) m ->
  keeps (state_kept p) m.
Proof.
  intros Hg Hs w Hp. specialize (Hg w). specialize (Hs w).
  unfold same, states_of in *. split; congruence.
Qed.

Lemma visit_param_state_kept p pm bs :
  keeps (state_kept p) (visit_param pm bs).
Proof.
  destruct pm as [q pm]. intros w Hp. split.
  - rewrite <- Hp.
    assert (keeps (same grads_of) (visit_param (q, pm) bs)) as H
      by (apply keeps_visit_param; aspect_prims).
    by rewrite (H w).
  - destruct (decide (q = p)) as [->|Hne].
    + by rewrite visit_param_no_grad.
    + destruct (visit_param_world q pm bs w) as [-> | ->]; [done|].
      destruct (init_state_run q w) as (w1 & d & E & _ & Ho & _).
      rewrite E. simpl. by apply Ho.
Qed.

Lemma step_group_state_kept p sc x : keeps (state_kept p) (step_group sc x).
Proof.
  destruct x as [[i g] gm]. apply keeps_step_group_parts; [apply _|..].
  - intros. apply same_state_kept; apply keeps_update_step; aspect_prims.
  - intros. apply same_state_kept; apply keeps_update_lr; aspect_prims.
  - intros. apply visit_param_state_kept.
  - intros. apply same_state_kept; apply keeps_launch_group; aspect_prims.
Qed.

Lemma step_state_kept p sc :
  keeps (state_kept p) (step None None None None None sc).
Proof.
  unfold step. simpl.
  apply keeps_bind; [apply _|apply keeps_ret; apply _|intros loss].
  apply keeps_bind; [apply _| |intros _].
  { apply same_state_kept; apply keeps_create_master; aspect_prims. }
  apply keeps_bind; [apply _|apply keeps_get_self; apply _|intros s].
  destruct (param_groups_master s); [|apply keeps_raise; apply _].
  apply keeps_bind; [apply _| |intros ?; apply keeps_ret; apply _].
  apply keeps_for_each; [apply _|]. intros. apply step_group_state_kept.
Qed.

Lemma after_closure_self closure w :
  w_self (after_closure closure w) = w_self w.
Proof.
  destruct closure as [c|]; [|done]. simpl. unfold call_closure.
  by destruct (c (w_heap w)).
Qed.

Lemma step_keeps_state_without_grad closure sc w p :
  grads_of (after_closure closure w) p = None ->
  state (w_self (step closure None None None None sc w).1) !! p =
    state (w_self w) !! p.
Proof.
  intros Hg. rewrite <- (after_closure_self closure w).
  destruct (step_world_after_closure closure sc w) as [-> | ->]; [done|].
  by apply (step_state_kept p sc (after_closure closure w)).
Qed.

Lemma step_leaves_value_without_grad closure sc w p :
  grads_of (after_closure closure w) p = None ->
  apart p (after_closure closure w) ->
  h_tensor (w_heap (step closure None None None None sc w).1) p =
    h_tensor (w_heap (after_closure closure w)) p /\
  exists evs,
    w_trace (step closure None None None None sc w).1 =
      w_trace (after_closure closure w) ++ evs /\
    Forall (clean_event p) evs.
Proof.
  intros Hg Ha.
  assert (untouched p (h_tensor (w_heap (after_closure closure w)) p)
            (w_trace (after_closure closure w))
            (after_closure closure w)) as HU.
  { split; [exact Ha|]. split; [exact Hg|]. split; [done|].
    exists []. by rewrite app_nil_r. }
  destruct (step_world_after_closure closure sc w) as [-> | ->].
  - split; [done|]. exists []. by rewrite app_nil_r.
  - destruct (U_step p _ _ sc _ HU) as [(_ & _ & Ht & Htr) _]. by split.
Qed.

(** C10: a parameter whose gradient is [None] is skipped by the loop: its
    visit changes nothing and adds nothing to the buckets; over a whole
    call of [step] its entry in [self.state] is as it was; and when the
    parameter has a storage of its own, no launch receives it and its
    value is the one it had when the closure returned. *)
Theorem no_gradient_no_effect :
  (forall p pm bs w,
     h_grad (w_heap w) p = None ->
     visit_param (p, pm) bs w = (w, Ok bs)) /\
  (forall closure sc w p,
     grads_of (after_closure closure w) p = None ->
     state (w_self (step closure None None None None sc w).1) !! p =
       state (w_self w) !! p) /\
  (forall closure sc w p,
     grads_of (after_closure closure w) p = None ->
     apart p (after_closure closure w) ->
     h_tensor (w_heap (step closure None None None None sc w).1) p =
       h_tensor (w_heap (after_closure closure w)) p /\
     exists evs,
       w_trace (step closure None None None None sc w).1 =
         w_trace (after_closure closure w) ++ evs /\
       Forall (clean_event p) evs).
Proof.
  split; [exact visit_param_no_grad|].
  split; [exact step_keeps_state_without_grad|].
  exact step_leaves_value_without_grad.
Qed.

(** ** [load_state_dict] *)

#[global] Instance dtypes_kept_preorder : PreOrder dtypes_kept.
Proof.
  split.
  - intros w. by split.
  - intros w1 w2 w3 [N1 O1] [N2 O2]. split; [lia|].
    intros r Hr. rewrite O2 by lia. by apply O1.
Qed.

#[global] Instance loads_well_preorder : PreOrder loads_well.
Proof.
  split.
  - intros w Ha. split; [done|]. split; [reflexivity|done].
  - intros w1 w2 w3 H1 H2 Ha.
    destruct (H1 Ha) as (A2 & D12 & M12).
    destruct (H2 A2) as (A3 & D23 & M23).
    split; [done|]. split; [by etransitivity|]. auto.
Qed.

(** A change of the store that keeps the element types, under an
    unchanged state, loads well. *)
Lemma loads_well_heap w w' :
  states_of w' = states_of w -> dtypes_kept w w' -> loads_well w w'.
Proof.
  unfold states_of. intros Hs [Hn Hd] Ha. split; [|split; [by split|]].
  - intros p d k r Hp Hk. rewrite Hs in Hp.
    specialize (Ha p d k r Hp Hk). lia.
  - intros p Hm d m Hp Hk. rewrite Hs in Hp.
    destruct (Hm d m Hp Hk) as (Hfm & v & Hv & Hfv).
    rewrite Hd by (by eapply Ha). split; [done|].
    exists v. split; [done|]. rewrite Hd; [done|by eapply Ha].
Qed.

Ltac dtypes_prim :=
  split; simpl; [lia|]; intros ?r ?Hr;
  repeat (case_decide; simpl; try lia); subst; done.

Ltac loads_prims :=
  try apply _; intros; intros ?w; apply loads_well_heap;
  lazymatch goal with
  | |- states_of _ = _ => reflexivity
  | |- dtypes_kept _ _ => dtypes_prim
  end.

Lemma load_lr_loads_well i g : keeps loads_well (load_lr i g).
Proof. apply keeps_load_lr; loads_prims. Qed.

Lemma load_step_loads_well i g : keeps loads_well (load_step i g).
Proof. apply keeps_load_step; loads_prims. Qed.

Lemma float_run r w :
  exists w' r',
    float_ r w = (w', Ok r') /\
    w_self w' = w_self w /\
    heap_grows w w' /\
    t_dtype (h_tensor (w_heap w') r') = float32 /\
    (r < h_next (w_heap w) -> r' < h_next (w_heap w')).
Proof.
  unfold float_, mbind, read. simpl.
  destruct (decide (t_dtype (h_tensor (w_heap w) r) = float32)) as [E|E].
  - exists w, r. by repeat split.
  - eexists _, _. split; [reflexivity|]. simpl.
    split; [done|]. split.
    + repeat split; simpl; try lia. intros q Hq.
      rewrite decide_False; [done|lia].
    + rewrite decide_True by done. split; [done|lia].
Qed.

Lemma heap_grows_dtype w w' r :
  heap_grows w w' -> r < h_next (w_heap w) ->
  t_dtype (h_tensor (w_heap w') r) = t_dtype (h_tensor (w_heap w) r).
Proof. intros (_ & _ & O) Hr. by rewrite O. Qed.

Lemma heap_grows_next w w' r :
  heap_grows w w' -> r < h_next (w_heap w) -> r < h_next (w_heap w').
Proof. intros (_ & N & _) Hr. lia. Qed.

Lemma state_set_run p k r w :
  exists w',
    state_set p k r w = (w', Ok tt) /\
    w_heap w' = w_heap w /\
    state (w_self w') =
      <[p := <[k := r]> (default ∅ (state (w_self w) !! p))]>
        (state (w_self w)).
Proof. eexists. split; [reflexivity|]. by split. Qed.

Lemma heap_grows_same_heap w w1 w2 :
  w_heap w2 = w_heap w1 -> heap_grows w w1 -> heap_grows w w2.
Proof. unfold heap_grows. by intros ->. Qed.

(** The conversion of the moments of one parameter. *)
Lemma load_param_run p w :
  state_allocated w ->
  heap_grows w (load_param p w).1 /\
  state_allocated (load_param p w).1 /\
  (forall q, q <> p ->
     state (w_self (load_param p w).1) !! q = state (w_self w) !! q) /\
  ((load_param p w).2 = Ok tt -> moments_float32 (load_param p w).1 p) /\
  (moments_float32 w p -> moments_float32 (load_param p w).1 p).
Proof.
  intros Ha. unfold load_param.
  destruct (state (w_self w) !! p) as [d|] eqn:Ep.
  - rewrite (mbind_run (state_of p) _ w w d); cycle 1.
    { unfold state_of, mbind, get_self. by rewrite Ep. }
    destruct (d !! "exp_avg") as [m|] eqn:Em; cycle 1.
    { simpl. split; [reflexivity|]. split; [done|]. split; [done|].
      split; [|done].
      intros _ d' m' Hd'. rewrite Ep in Hd'. injection Hd' as <-.
      by rewrite Em. }
    assert (m < h_next (w_heap w)) as Hm by (by eapply Ha).
    destruct (float_run m w) as (wb & m' & Eb & Sb & Gb & Fb & Lb).
    rewrite (mbind_run _ _ w wb m' Eb).
    destruct (state_set_run p "exp_avg" m' wb) as (wc & Ec & Hc & Sc).
    rewrite (mbind_run _ _ wb wc tt Ec).
    rewrite Sb, Ep in Sc. simpl in Sc.
    assert (heap_grows w wc) as Gc
      by (by apply (heap_grows_same_heap w wb wc)).
    assert (m' < h_next (w_heap wc)) as Lm by (rewrite Hc; by apply Lb).
    assert (t_dtype (h_tensor (w_heap wc) m') = float32) as Fc
      by (by rewrite Hc).
    clear Eb Ec Sb Gb Fb Lb Hc wb.
    destruct (d !! "exp_avg_sq") as [v|] eqn:Ev; cycle 1.
    { unfold state_get. rewrite Ev.
      rewrite (mbind_raise _ _ wc wc (KeyError "exp_avg_sq") eq_refl).
      cbn [fst snd]. split; [done|]. split; [|split; [|split]].
      - intros q dq k r Hq Hk. rewrite Sc in Hq.
        destruct (decide (p = q)) as [->|Hne].
        + rewrite lookup_insert_eq in Hq. injection Hq as <-.
          destruct (decide (k = "exp_avg")) as [->|Hk'].
          * rewrite lookup_insert_eq in Hk. by injection Hk as <-.
          * rewrite lookup_insert_ne in Hk by done.
            eapply heap_grows_next; [exact Gc|]. by eapply Ha.
        + rewrite lookup_insert_ne in Hq by done.
          eapply heap_grows_next; [exact Gc|]. by eapply Ha.
      - intros q Hq. rewrite Sc. by rewrite lookup_insert_ne.
      - done.
      - intros Hmo. destruct (Hmo d m Ep Em) as (_ & v & Hv & _).
        congruence. }
    assert (v < h_next (w_heap w)) as Hv by (by eapply Ha).
    unfold state_get. rewrite Ev.
    rewrite (mbind_run (mret v) _ wc wc v eq_refl).
    destruct (float_run v wc) as (wd & v' & Ed & Sd & Gd & Fd & Ld).
    rewrite (mbind_run _ _ wc wd v' Ed).
    destruct (state_set_run p "exp_avg_sq" v' wd) as (we & Ee & He & Se).
    rewrite Ee. cbn [fst snd].
    rewrite Sd, Sc, lookup_insert_eq in Se. simpl in Se.
    rewrite insert_insert_eq in Se.
    assert (heap_grows wc we) as Gce
      by (by apply (heap_grows_same_heap wc wd we)).
    assert (heap_grows w we) as Ge by (by transitivity wc).
    assert (moments_float32 we p) as Hmo.
    { intros d' m'' Hd' Hm''. rewrite Se, lookup_insert_eq in Hd'.
      injection Hd' as <-.
      rewrite lookup_insert_ne, lookup_insert_eq in Hm'' by done.
      injection Hm'' as <-. split.
      - by rewrite (heap_grows_dtype wc we m' Gce Lm).
      - exists v'. rewrite lookup_insert_eq. split; [done|]. by rewrite He. }
    split; [done|]. split; [|split; [|by split]].
    + intros q dq k r Hq Hk. rewrite Se in Hq.
      destruct (decide (p = q)) as [->|Hne].
      * rewrite lookup_insert_eq in Hq. injection Hq as <-.
        destruct (decide (k = "exp_avg_sq")) as [->|Hk1].
        { rewrite lookup_insert_eq in Hk. injection Hk as <-.
          rewrite He. apply Ld. by eapply heap_grows_next. }
        rewrite lookup_insert_ne in Hk by done.
        destruct (decide (k = "exp_avg")) as [->|Hk2].
        { rewrite lookup_insert_eq in Hk. injection Hk as <-.
          by eapply (heap_grows_next wc we). }
        rewrite lookup_insert_ne in Hk by done.
        eapply heap_grows_next; [exact Ge|]. by eapply Ha.
      * rewrite lookup_insert_ne in Hq by done.
        eapply heap_grows_next; [exact Ge|]. by eapply Ha.
    + intros q Hq. rewrite Se. by rewrite lookup_insert_ne.
  - set (w0 := mkWorld (w_heap w)
                 (with_state (<[p := ∅]> (state (w_self w))) (w_self w))
                 (w_trace w)).
    rewrite (mbind_run (state_of p) _ w w0 ∅); cycle 1.
    { unfold state_of, mbind, get_self. by rewrite Ep. }
    rewrite lookup_empty. subst w0. simpl.
    split; [by repeat split|].
    split; [|split; [|split]].
    + intros q dq k r Hq Hk. simpl in *.
      destruct (decide (p = q)) as [->|Hne].
      * rewrite lookup_insert_eq in Hq. injection Hq as <-.
        by rewrite lookup_empty in Hk.
      * rewrite lookup_insert_ne in Hq by done. by eapply Ha.
    + intros q Hq. by rewrite lookup_insert_ne.
    + intros _ d m Hd. simpl in *.
      rewrite lookup_insert_eq in Hd. injection Hd as <-.
      by rewrite lookup_empty.
    + intros _ d m Hd. simpl in *.
      rewrite lookup_insert_eq in Hd. injection Hd as <-.
      by rewrite lookup_empty.
Qed.

Lemma load_param_loads_well p : keeps loads_well (load_param p).
Proof.
  intros w Ha. destruct (load_param_run p w Ha) as (G & A & O & _ & Mp).
  split; [done|]. split.
  { destruct G as (_ & N & Old). split; [done|]. intros r Hr.
    by rewrite Old. }
  intros q Hq. destruct (decide (q = p)) as [->|Hne]; [by apply Mp|].
  intros d m Hd Hm. rewrite (O q Hne) in Hd.
  destruct (Hq d m Hd Hm) as (Fm & v & Hv & Fv).
  rewrite (heap_grows_dtype w _ m G) by (by eapply Ha).
  split; [done|]. exists v. split; [done|].
  rewrite (heap_grows_dtype w _ v G); [done|by eapply Ha].
Qed.

Lemma load_group_loads_well x : keeps loads_well (load_group x).
Proof.
  destruct x as [i g]. apply keeps_load_group_parts; [apply _|..].
  - apply load_lr_loads_well.
  - apply load_step_loads_well.
  - intros. apply load_param_loads_well.
Qed.

Lemma load_params_moments ps w w' :
  state_allocated w ->
  for_each load_param ps w = (w', Ok tt) ->
  forall p, p ∈ ps -> moments_float32 w' p.
Proof.
  intros Ha Hrun.
  apply (for_each_ok_all load_param state_allocated
           (fun p w0 => moments_float32 w0 p) ps w w'); [done| | | |done].
  - intros p w0 _ H0. by apply (load_param_loads_well p w0).
  - intros p w0 w1 _ H0 E.
    destruct (load_param_run p w0 H0) as (_ & _ & _ & Hok & _).
    rewrite E in Hok. by apply Hok.
  - intros a b p q w0 _ _ _ H0 HP.
    by apply (load_param_loads_well q w0).
Qed.

Lemma load_groups_moments l w w' :
  state_allocated w ->
  for_each load_group l w = (w', Ok tt) ->
  forall x, x ∈ l -> forall p, p ∈ g_params x.2 -> moments_float32 w' p.
Proof.
  intros Ha Hrun.
  apply (for_each_ok_all load_group state_allocated
           (fun x w0 => forall p, p ∈ g_params x.2 -> moments_float32 w0 p)
           l w w'); [done| | | |done].
  - intros x w0 _ H0. by apply (load_group_loads_well x w0).
  - intros [i g] w0 w1 _ H0 E p Hp. simpl in Hp. unfold load_group in E.
    apply mbind_ok in E as (wa & [] & Ea & E).
    apply mbind_ok in E as (wb & [] & Eb & E).
    assert (state_allocated wb) as Hb.
    { pose proof (load_lr_loads_well i g w0 H0) as (Aa & _).
      rewrite Ea in Aa. simpl in Aa.
      pose proof (load_step_loads_well i g wa Aa) as (Ab & _).
      by rewrite Eb in Ab. }
    by apply (load_params_moments (g_params g) wb w1 Hb E).
  - intros a b x y w0 _ _ _ H0 HP p Hp.
    apply (load_group_loads_well y w0 H0). by apply HP.
Qed.

Lemma load_group_params x : keeps (same params_of) (load_group x).
Proof.
  destruct x as [i g]. apply keeps_load_group_parts; [apply _|..].
  - apply keeps_load_lr; aspect_prims.
  - apply keeps_load_step; aspect_prims.
  - intros. apply keeps_load_param; aspect_prims.
Qed.

Lemma load_group_flags x : keeps (same flags_of) (load_group x).
Proof.
  destruct x as [i g]. apply keeps_load_group_parts; [apply _|..].
  - apply keeps_load_lr; aspect_prims.
  - apply keeps_load_step; aspect_prims.
  - intros. apply keeps_load_param; aspect_prims.
Qed.

Lemma load_state_dict_inv sd w w' :
  load_state_dict sd w = (w', Ok tt) ->
  exists w1,
    base_load_state_dict sd w = (w1, Ok tt) /\
    for_each load_group (enumerate (param_groups (w_self w1))) w1 =
      (w', Ok tt).
Proof.
  unfold load_state_dict. intros H.
  apply mbind_ok in H as (w1 & [] & E1 & H).
  apply mbind_ok in H as (w2 & s & E2 & H). injection E2 as <- <-.
  by exists w1.
Qed.

Lemma load_state_dict_moments sd w w1 w' :
  base_load_state_dict sd w = (w1, Ok tt) ->
  state_allocated w1 ->
  load_state_dict sd w = (w', Ok tt) ->
  forall g p,
    g ∈ param_groups (w_self w1) -> p ∈ g_params g ->
    moments_float32 w' p.
Proof.
  intros Eb Ha Hrun g p Hg Hp.
  apply load_state_dict_inv in Hrun as (w1' & Eb' & Hloop).
  rewrite Eb in Eb'. injection Eb' as <-.
  apply list_elem_of_lookup in Hg as [i Hi].
  apply (load_groups_moments _ w1 w' Ha Hloop (i, g)); [|done].
  apply list_elem_of_lookup. exists i. by apply lookup_enumerate.
Qed.

Lemma load_lr_noncapturable i g w :
  capturable (w_self w) = false -> load_lr i g w = (w, Ok tt).
Proof.
  intros Hc. unfold load_lr, mbind, get_self. by rewrite Hc.
Qed.

Lemma load_step_noncapturable i g w w' r :
  capturable (w_self w) = false ->
  g_step g = Some (PTensor r) ->
  load_step i g w = (w', Ok tt) ->
  exists x,
    item_value (h_tensor (w_heap w) r) = Some x /\
    w' = (assign_step i x w).1.
Proof.
  intros Hc Hs. unfold load_step, mbind at 1, get_self. rewrite Hc, Hs.
  unfold mbind, item, mbind, read, item_value. simpl.
  destruct (t_elems (h_tensor (w_heap w) r)) as [|x [|y l]]; simpl;
    try done.
  intros [= <-]. by eexists.
Qed.

Lemma load_step_heap i g w :
  capturable (w_self w) = false ->
  w_heap (load_step i g w).1 = w_heap w.
Proof.
  intros Hc. unfold load_step, mbind at 1, get_self. rewrite Hc.
  destruct (g_step g) as [[z|q|r]|]; try done.
  unfold mbind, item, mbind, read. simpl.
  by destruct (t_elems (h_tensor (w_heap w) r)) as [|x [|y l]].
Qed.

Lemma load_param_heap_grows p : keeps heap_grows (load_param p).
Proof.
  apply keeps_load_param; try apply _; intros; intros w;
    repeat split; simpl; try lia; intros r Hr;
    rewrite decide_False; [done|lia].
Qed.

Lemma load_group_heap_noncapturable x w :
  capturable (w_self w) = false -> heap_grows w (load_group x w).1.
Proof.
  intros Hc. destruct x as [i g]. unfold load_group.
  rewrite (mbind_run _ _ w w tt (load_lr_noncapturable i g w Hc)).
  pose proof (load_step_heap i g w Hc) as Hh.
  unfold mbind. destruct (load_step i g w) as [wa [[]|e]]; simpl in *.
  - assert (heap_grows wa (for_each load_param (g_params g) wa).1) as H.
    { apply keeps_for_each; [apply _|]. intros.
      apply load_param_heap_grows. }
    unfold heap_grows in *. by rewrite <- Hh.
  - unfold heap_grows. by rewrite Hh.
Qed.

Ltac step_at_load_prims :=
  try apply _; intros; intros ?w; unfold same, step_at; simpl;
  rewrite ?step_at_alter_lr, ?list_lookup_alter_ne by done; reflexivity.

Lemma load_params_step_at i ps :
  keeps (same (step_at i)) (for_each load_param ps).
Proof.
  apply keeps_for_each; [apply _|]. intros.
  apply keeps_load_param; step_at_load_prims.
Qed.

Lemma load_group_step_at i j g :
  i <> j -> keeps (same (step_at i)) (load_group (j, g)).
Proof.
  intros Hne. apply keeps_load_group_parts; [apply _|..].
  - apply keeps_load_lr; step_at_load_prims.
  - apply keeps_load_step; step_at_load_prims.
  - intros. apply keeps_load_param; step_at_load_prims.
Qed.

Lemma load_state_dict_counter sd w w1 w' :
  base_load_state_dict sd w = (w1, Ok tt) ->
  capturable (w_self w1) = false ->
  load_state_dict sd w = (w', Ok tt) ->
  forall i g r,
    param_groups (w_self w1) !! i = Some g ->
    g_step g = Some (PTensor r) ->
    r < h_next (w_heap w1) ->
    exists x,
      item_value (h_tensor (w_heap w1) r) = Some x /\
      step_at i w' = Some (Some x).
Proof.
  intros Eb Hcap Hrun i g r Hi Hs Hr.
  apply load_state_dict_inv in Hrun as (w1' & Eb' & Hloop).
  rewrite Eb in Eb'. injection Eb' as <-.
  set (I := fun w0 : World =>
              capturable (w_self w0) = false /\
              length (param_groups (w_self w0)) =
                length (param_groups (w_self w1)) /\
              heap_grows w1 w0).
  set (P := fun (x : nat * Group) (w0 : World) =>
              forall r0, g_step x.2 = Some (PTensor r0) ->
                r0 < h_next (w_heap w1) ->
                exists v, item_value (h_tensor (w_heap w1) r0) = Some v /\
                          step_at x.1 w0 = Some (Some v)).
  assert (forall x, x ∈ enumerate (param_groups (w_self w1)) -> P x w')
    as Hall; cycle 1.
  { apply (Hall (i, g)); [|done|done].
    apply list_elem_of_lookup. exists i. by apply lookup_enumerate. }
  apply (for_each_ok_all load_group I P _ w1 w'); [| | | |exact Hloop].
  - repeat split; try done; lia.
  - intros x w0 _ (H1 & H2 & H3). split; [|split].
    + pose proof (load_group_flags x w0) as Hf.
      unfold same, flags_of in Hf. congruence.
    + pose proof (load_group_params x w0) as Hp.
      unfold same, params_of in Hp.
      apply (f_equal length) in Hp. rewrite !length_map in Hp. congruence.
    + transitivity w0; [done|by apply load_group_heap_noncapturable].
  - intros [j gj] w0 wb Hx (H1 & H2 & H3) Hbody r0 Hr0 Hlt. simpl in *.
    apply list_elem_of_lookup in Hx as [a Ha].
    apply lookup_enumerate in Ha as [Hj Hgj]. simpl in *. subst a.
    unfold load_group in Hbody.
    rewrite (mbind_run _ _ w0 w0 tt (load_lr_noncapturable j gj w0 H1))
      in Hbody.
    apply mbind_ok in Hbody as (wa & [] & Ea & Hbody).
    destruct (load_step_noncapturable j gj w0 wa r0 H1 Hr0 Ea)
      as (x & Hx & ->).
    exists x. split.
    { destruct H3 as (_ & _ & Old). by rewrite <- (Old r0 Hlt). }
    pose proof (load_params_step_at j (g_params gj)
                  (assign_step j x w0).1) as Hk.
    rewrite Hbody in Hk. unfold same in Hk. simpl in Hk. rewrite Hk.
    unfold step_at. simpl.
    assert (is_Some (param_groups (w_self w0) !! j)) as [gj' Hgj'].
    { apply lookup_lt_is_Some. rewrite H2. by apply lookup_lt_Some in Hgj. }
    by rewrite (step_at_alter_step _ _ _ _ Hgj').
  - intros a b [j gj] [k gk] w0 Hab Ha Hb _ HP r0 Hr0 Hlt.
    apply lookup_enumerate in Ha as [Hj _].
    apply lookup_enumerate in Hb as [Hk _]. cbn [fst snd] in *. subst j k.
    rewrite (load_group_step_at a b gk) by lia. by apply HP.
Qed.

(** C7: after a [load_state_dict] that ends normally, for every parameter
    of a group whose state contains ["exp_avg"], both ["exp_avg"] and
    ["exp_avg_sq"] are [float32] tensors; and in non-capturable mode a
    ["step"] that the base class loaded as a tensor has become the Python
    number the tensor held. *)
Theorem load_state_dict_converts :
  (forall sd w w1 w',
     base_load_state_dict sd w = (w1, Ok tt) ->
     state_allocated w1 ->
     load_state_dict sd w = (w', Ok tt) ->
     forall g p,
       g ∈ param_groups (w_self w1) -> p ∈ g_params g ->
       moments_float32 w' p) /\
  (forall sd w w1 w',
     base_load_state_dict sd w = (w1, Ok tt) ->
     capturable (w_self w1) = false ->
     load_state_dict sd w = (w', Ok tt) ->
     forall i g r,
       param_groups (w_self w1) !! i = Some g ->
       g_step g = Some (PTensor r) ->
       r < h_next (w_heap w1) ->
       exists x,
         item_value (h_tensor (w_heap w1) r) = Some x /\
         step_at i w' = Some (Some x)).
Proof.
  split; [exact load_state_dict_moments|exact load_state_dict_counter].
Qed.

(** ** The course of a call of [step] *)

(** The creation code always succeeds and leaves master weights. *)
Lemma create_master_total w :
  exists w2 ms,
    create_master w = (w2, Ok tt) /\
    master_of_world w2 = Some ms /\
    w_self w2 = with_master (Some ms) (w_self w) /\
    w_trace w2 = w_trace w /\
    heap_grows w w2 /\
    (forall ms0, master_of_world w = Some ms0 -> ms = ms0).
Proof.
  destruct (master_of_world w) as [ms|] eqn:Em.
  - exists w, ms. rewrite (create_master_existing w ms Em).
    split; [done|]. split; [done|]. split.
    { unfold master_of_world in Em. destruct w as [h s t]. simpl in *.
      destruct s. simpl in *. by subst. }
    split; [done|]. split; [reflexivity|]. by intros ms0 [= <-].
  - destruct (master_groups_shape (master_weights (w_self w))
                (param_groups (w_self w)) w)
      as (w1 & ms & E & (S1 & T1 & G1 & N1 & O1) & F).
    exists (mkWorld (w_heap w1) (with_master (Some ms) (w_self w))
                    (w_trace w)), ms.
    split.
    { unfold master_of_world in Em.
      unfold create_master, mbind at 1, get_self. rewrite Em.
      unfold mbind. rewrite E. unfold modify_self. by rewrite S1, T1. }
    split; [done|]. split; [done|]. split; [done|].
    split; [by split|]. intros ms0 [=].
Qed.

(** When the closure raises, [step] ends with its exception right after
    the call. *)
Lemma step_closure_raises closure sc w e :
  loss_of closure w = Raise e ->
  step closure None None None None sc w = (after_closure closure w, Raise e).
Proof.
  destruct closure as [c|]; [|discriminate]. unfold loss_of, step. simpl.
  unfold call_closure, mbind. simpl.
  destruct (c (w_heap w)) as [h [l|e0]]; simpl; [discriminate|].
  by intros [= ->].
Qed.

(** When the closure returns, [step] goes through the creation of the
    master weights and the loop over the groups, and returns the loss if
    the loop ends normally. *)
Lemma step_run closure sc w lo :
  loss_of closure w = Ok lo ->
  exists w2 ms,
    create_master (after_closure closure w) = (w2, Ok tt) /\
    master_of_world w2 = Some ms /\
    step closure None None None None sc w =
      match for_each (step_group sc)
                     (zip (enumerate (param_groups (w_self w2))) ms) w2 with
      | (w', Ok _) => (w', Ok lo)
      | (w', Raise e) => (w', Raise e)
      end.
Proof.
  intros Hl.
  destruct (create_master_total (after_closure closure w))
    as (w2 & ms & E & Hm & _).
  exists w2, ms. split; [done|]. split; [done|].
  assert (exists l0,
    (match closure with
     | Some c => let* l := call_closure c in mret (Some l)
     | None => mret None
     end) w = (after_closure closure w, Ok l0) /\ l0 = lo) as (l0 & Ec & ->).
  { destruct closure as [c|]; simpl in *.
    - unfold mbind, call_closure in *.
      destruct (c (w_heap w)) as [h [l|e0]]; simpl in *; [|discriminate].
      injection Hl as <-. by eexists.
    - injection Hl as <-. by eexists. }
  unfold step. simpl.
  rewrite (mbind_run _ _ _ _ _ Ec).
  rewrite (mbind_run _ _ _ _ _ E).
  rewrite (mbind_run get_self _ w2 w2 (w_self w2) eq_refl).
  unfold master_of_world in Hm. rewrite Hm.
  unfold mbind.
  by destruct (for_each _ _ w2) as [w3 [[]|e]].
Qed.

(** X1: a closure that raises ends [step] with that exception: only the
    closure has run, the optimizer is as it was.  When [step] returns, it
    returns the loss of the closure, and [None] without a closure. *)
Theorem step_returns_closure_loss :
  (forall c sc w h e,
     c (w_heap w) = (h, Raise e) ->
     step (Some c) None None None None sc w =
       (mkWorld h (w_self w) (w_trace w ++ [EvClosure]), Raise e)) /\
  (forall c sc w h l w' loss,
     c (w_heap w) = (h, Ok l) ->
     step (Some c) None None None None sc w = (w', Ok loss) ->
     loss = Some l) /\
  (forall sc w w' loss,
     step None None None None None sc w = (w', Ok loss) -> loss = None).
Proof.
  split; [|split].
  - intros c sc w h e Hc.
    rewrite (step_closure_raises (Some c) sc w e).
    + simpl. unfold call_closure. by rewrite Hc.
    + simpl. by rewrite Hc.
  - intros c sc w h l w' loss Hc Hrun.
    destruct (step_run (Some c) sc w (Some l)) as (w2 & ms & _ & _ & E).
    { simpl. by rewrite Hc. }
    rewrite Hrun in E.
    destruct (for_each _ _ w2) as [w3 [[]|e]]; congruence.
  - intros sc w w' loss Hrun.
    destruct (step_run None sc w None eq_refl) as (w2 & ms & _ & _ & E).
    rewrite Hrun in E.
    destruct (for_each _ _ w2) as [w3 [[]|e]]; congruence.
Qed.

#[global] Instance only_launches_preorder : PreOrder only_launches.
Proof.
  split.
  - intros w. exists []. by rewrite app_nil_r.
  - intros w1 w2 w3 [cs1 H1] [cs2 H2]. exists (cs1 ++ cs2).
    by rewrite H2, H1, map_app, app_assoc.
Qed.





(** ** What a failing or skipped iteration leaves behind *)

Lemma for_acc_app {A S} (body : A -> S -> M S) l1 l2 s w :
  for_acc body (l1 ++ l2) s w =
    match for_acc body l1 s w with
    | (w1, Ok s1) => for_acc body l2 s1 w1
    | (w1, Raise e) => (w1, Raise e)
    end.
Proof.
  revert s w. induction l1 as [|x l1 IH]; intros s w; simpl; [done|].
  unfold mbind. destruct (body x s w) as [w1 [s1|e]]; [apply IH|done].
Qed.

(** Either a deprecated argument is given and [step] stops at once, or
    all four are [None]. *)
Lemma step_deprecated_or_none closure grads output_params scale grad_norms
    sc w :
  step closure grads output_params scale grad_norms sc w =
    (w, Raise (RuntimeError deprecated_message)) \/
  (grads = None /\ output_params = None /\ scale = None /\
   grad_norms = None).
Proof.
  destruct grads, output_params, scale, grad_norms; auto.
Qed.

(** X3: the loop over the parameters of a group stops at the first
    parameter whose gradient is sparse, with [RuntimeError]: the
    parameters before it have been visited, the parameter itself gets no
    state, and the parameters after it are not looked at. *)
Theorem sparse_gradient_stops_loop pms1 p pm pms2 bs w w1 bs1 gr :
  for_acc visit_param pms1 bs w = (w1, Ok bs1) ->
  h_grad (w_heap w) p = Some gr ->
  gr < h_next (w_heap w) ->
  t_sparse (h_tensor (w_heap w) gr) = true ->
  for_acc visit_param (pms1 ++ (p, pm) :: pms2) bs w =
    (w1, Raise (RuntimeError
       "FusedAdam does not support sparse gradients, please consider SparseAdam instead")).
Proof.
  intros Hrun Hg Hgr Hs. rewrite for_acc_app, Hrun.
  pose proof (collect_heap_grows pms1 bs w) as (G & _ & O).
  rewrite Hrun in G, O. simpl in G, O.
  cbn [for_acc]. unfold mbind at 1.
  unfold visit_param, mbind, get_heap, read. simpl.
  by rewrite G, Hg, (O gr Hgr), Hs.
Qed.

(** X4: in a non-capturable optimizer the counter of a non-empty group is
    advanced before its parameters are looked at, so it is advanced also
    when the rest of the iteration raises. *)
Theorem counter_advances_before_errors sc i g gi gm w :
  capturable (w_self w) = false ->
  group_at i w = Some gi ->
  g_params g <> [] ->
  step_at i (step_group sc (i, g, gm) w).1 =
    Some (Some (next_counter (g_step g))).
Proof.
  intros Hcap Hi Hne. unfold step_group.
  destruct (g_params g) as [|p0 ps] eqn:Eps; [done|].
  rewrite (mbind_run (read p0) _ w w (h_tensor (w_heap w) p0) eq_refl).
  destruct (update_step_noncapturable_returns i g
              (t_device (h_tensor (w_heap w) p0)) w Hcap) as [w1 E1].
  destruct (update_step_noncapturable i g gi _ w w1 _ Hcap Hi E1)
    as [_ Hstep].
  rewrite (mbind_run _ _ w w1 _ E1).
  pose proof (after_update_step_at sc i g gm
                (t_device (h_tensor (w_heap w) p0))
                (next_counter (g_step g)) w1) as Hk.
  rewrite Eps in Hk. unfold same in Hk. by rewrite Hk.
Qed.

Lemma group_at_alter_ne (f : Group -> Group) i j (gs : list Group) :
  i <> j -> alter f j gs !! i = gs !! i.
Proof. intros H. by apply list_lookup_alter_ne. Qed.

Ltac group_at_prims :=
  try apply _; intros; intros ?w; unfold same, group_at; simpl;
  rewrite ?group_at_alter_ne by done; reflexivity.

Lemma step_group_group_at sc i j g gm :
  i <> j -> keeps (same (group_at i)) (step_group sc (j, g, gm)).
Proof.
  intros Hne. apply keeps_step_group_parts; [apply _|..].
  - intros. apply keeps_update_step; group_at_prims.
  - intros. apply keeps_update_lr; group_at_prims.
  - intros [p pm] bs _. apply keeps_visit_param; group_at_prims.
  - intros. apply keeps_launch_group; group_at_prims.
Qed.

(** The loop leaves the dictionary of group [i] alone when the only
    iterations for index [i] are for a group without parameters. *)
Lemma step_groups_group_at sc i l :
  (forall j g gm, (j, g, gm) ∈ l -> j = i -> g_params g = []) ->
  keeps (same (group_at i)) (for_each (step_group sc) l).
Proof.
  intros Hl. apply keeps_for_each; [apply _|]. intros [[j g] gm] Hx.
  destruct (decide (i = j)) as [->|Hne].
  - unfold step_group. rewrite (Hl j g gm Hx eq_refl).
    apply keeps_ret, _.
  - by apply step_group_group_at.
Qed.

(** The dictionary of group [i] after [step], when the loop does not
    process it. *)
Lemma step_group_at closure grads output_params scale grad_norms sc w i :
  (forall ms g gm,
     master_of_world
       (create_master (after_closure closure w)).1 = Some ms ->
     group_at i w = Some g -> ms !! i = Some gm -> g_params g = []) ->
  group_at i (step closure grads output_params scale grad_norms sc w).1 =
    group_at i w.
Proof.
  intros Hskip.
  destruct (step_deprecated_or_none closure grads output_params scale
              grad_norms sc w) as [-> | (-> & -> & -> & ->)]; [done|].
  assert (group_at i (after_closure closure w) = group_at i w) as Hc.
  { unfold group_at. by rewrite after_closure_self. }
  destruct (loss_of closure w) as [lo|e] eqn:El.
  - destruct (step_run closure sc w lo El) as (w2 & ms & Ecm & Hms & ->).
    destruct (create_master_total (after_closure closure w))
      as (w2' & ms' & Ecm' & _ & Hself & _).
    rewrite Ecm in Ecm'. injection Ecm' as <-.
    assert (group_at i w2 = group_at i w) as H2.
    { rewrite <- Hc. unfold group_at. by rewrite Hself. }
    rewrite Ecm in Hskip. simpl in Hskip.
    pose proof (step_groups_group_at sc i
                  (zip (enumerate (param_groups (w_self w2))) ms)) as Hk.
    rewrite <- H2. unfold same in Hk.
    rewrite <- (Hk ltac:(
      intros j g gm Hin ->;
      apply list_elem_of_lookup in Hin as [a Ha];
      apply lookup_groups_masters in Ha as (-> & Hg & Hgm);
      apply (Hskip ms g gm Hms); [by rewrite <- H2|done]) w2).
    by destruct (for_each _ _ w2) as [w3 [[]|e]].
  - by rewrite (step_closure_raises closure sc w e El).
Qed.

(** X5: a group without parameters is skipped: whatever the outcome of
    [step], its dictionary is as it was, so it gets no step counter and
    its learning rate is not converted. *)
Theorem empty_group_is_skipped closure grads output_params scale grad_norms
    sc w i g :
  group_at i w = Some g -> g_params g = [] ->
  group_at i (step closure grads output_params scale grad_norms sc w).1 =
    Some g.
Proof.
  intros Hi He. rewrite step_group_at; [done|].
  intros ms g0 gm _ Hg0 _. congruence.
Qed.

(** X6: the loop pairs the groups with the master weights built by the
    first call: a group beyond the end of [param_groups_master] (one added
    after the first call) is not processed, its dictionary is as it
    was. *)
Theorem group_without_master_is_skipped closure grads output_params scale
    grad_norms sc w ms i g :
  master_of_world w = Some ms -> length ms <= i ->
  group_at i w = Some g ->
  group_at i (step closure grads output_params scale grad_norms sc w).1 =
    Some g.
Proof.
  intros Hms Hlen Hi. rewrite step_group_at; [done|].
  intros ms' g0 gm Hms' _ Hgm.
  destruct (create_master_total (after_closure closure w))
    as (w2 & ms2 & Ecm & Hm2 & _ & _ & _ & Hsame).
  rewrite Ecm in Hms'. simpl in Hms'.
  assert (ms2 = ms) as ->.
  { apply Hsame. unfold master_of_world. by rewrite after_closure_self. }
  assert (ms' = ms) as -> by congruence.
  apply lookup_lt_Some in Hgm. lia.
Qed.

(** ** What [step] reads and what it leaves alone *)

(** A relation kept by the closure, by the creation of the master weights
    and by every iteration of the loop is kept by [step]. *)
Lemma keeps_step (R : World -> World -> Prop) `{!PreOrder R} closure grads
    output_params scale grad_norms sc :
  (forall c, keeps R (call_closure c)) ->
  keeps R create_master ->
  (forall x, keeps R (step_group sc x)) ->
  keeps R (step closure grads output_params scale grad_norms sc).
Proof.
  intros Hc Hm Hg. unfold step.
  destruct (existsb _ _); [by apply keeps_raise|].
  apply keeps_bind; [done| |intros loss].
  { destruct closure as [c|]; [|by apply keeps_ret].
    apply keeps_bind; [done|apply Hc|intros ?; by apply keeps_ret]. }
  apply keeps_bind; [done|done|intros _].
  apply keeps_bind; [done|by apply keeps_get_self|intros s].
  destruct (param_groups_master s); [|by apply keeps_raise].
  apply keeps_bind; [done| |intros ?; by apply keeps_ret].
  apply keeps_for_each; [done|]. intros x _. apply Hg.
Qed.

Lemma map_alter_same {A B} (f : A -> B) (h : A -> A) i (l : list A) :
  (forall x, f (h x) = f x) -> map f (alter h i l) = map f l.
Proof.
  intros Hf. revert i. induction l as [|x l IH]; intros [|i]; simpl;
    try done.
  - by rewrite Hf.
  - f_equal. apply IH.
Qed.

Ltac frame_prims :=
  try apply _; intros; intros ?w;
  unfold same, hypers_of, flags_of, rates_of; simpl;
  rewrite ?(map_alter_same hyper_of), ?(map_alter_same g_lr) by done;
  reflexivity.

Lemma call_closure_self {X} (f : FusedAdam -> X) c :
  keeps (same (fun w => f (w_self w))) (call_closure c).
Proof. intros w. unfold same, call_closure. by destruct (c (w_heap w)). Qed.

Lemma step_hypers closure grads output_params scale grad_norms sc :
  keeps (same hypers_of)
        (step closure grads output_params scale grad_norms sc).
Proof.
  apply keeps_step; [apply _|..].
  - intros c. apply (call_closure_self (fun s => map hyper_of (param_groups s))).
  - apply keeps_create_master; frame_prims.
  - intros x. apply keeps_step_group; frame_prims.
Qed.

Lemma step_flags closure grads output_params scale grad_norms sc :
  keeps (same flags_of)
        (step closure grads output_params scale grad_norms sc).
Proof.
  apply keeps_step; [apply _|..].
  - intros c.
    apply (call_closure_self
             (fun s => (capturable s, master_weights s, adam_w_mode s))).
  - apply keeps_create_master; frame_prims.
  - intros x. apply step_group_flags.
Qed.

#[global] Instance rates_stay_preorder : PreOrder rates_stay.
Proof.
  split.
  - intros w H. by split.
  - intros w1 w2 w3 H1 H2 H. destruct (H1 H) as [C1 E1].
    destruct (H2 C1) as [C2 E2]. split; [done|congruence].
Qed.

Lemma same_rates_stay {A} (m : M A) :
  keeps (same (fun w => (capturable (w_self w), rates_of w))) m ->
  keeps rates_stay m.
Proof.
  intros H w Hc. specialize (H w). unfold same in H.
  split; [apply (f_equal fst) in H|apply (f_equal snd) in H];
    simpl in H; congruence.
Qed.

Ltac rates_prims :=
  try apply _; intros; apply same_rates_stay; intros ?w;
  unfold same, rates_of; simpl;
  rewrite ?(map_alter_same g_lr) by done; reflexivity.

Lemma update_lr_rates i g dev : keeps rates_stay (update_lr i g dev).
Proof.
  intros w Hc. unfold update_lr, mbind, get_self. rewrite Hc. by split.
Qed.

Lemma launch_group_rates sc dev g stp lr bias beta1 beta2 bs :
  keeps rates_stay (launch_group sc dev g stp lr bias beta1 beta2 bs).
Proof.
  intros w. unfold rates_stay. intros Hc.
  assert (exists h tr,
    launch_group sc dev g stp lr bias beta1 beta2 bs w =
      (mkWorld h (w_self w) tr, Ok tt)) as (h & tr & ->).
  { unfold launch_group, mbind at 1, get_self. rewrite Hc.
    destruct (three_launches multi_tensor_adam false lr beta1 beta2
                (g_eps g) stp (adam_w_mode (w_self w)) bias
                (g_weight_decay g) None bs w) as (h & cs & -> & _).
    by eexists _, _. }
  split; [exact Hc|reflexivity].
Qed.

Lemma step_rates closure grads output_params scale grad_norms sc :
  keeps rates_stay (step closure grads output_params scale grad_norms sc).
Proof.
  apply keeps_step; [apply _|..].
  - intros c. apply same_rates_stay.
    apply (call_closure_self
             (fun s => (capturable s,
                        (map g_lr (param_groups s), dummy_overflow_buf s)))).
  - apply keeps_create_master; rates_prims.
  - intros [[i g] gm]. apply keeps_step_group_parts; [apply _|..].
    + intros. apply keeps_update_step; rates_prims.
    + intros. apply update_lr_rates.
    + intros [p pm] bs _. apply keeps_visit_param; rates_prims.
    + intros. apply launch_group_rates.
Qed.

(** X7: whatever its outcome, [step] leaves the flags of the optimizer
    and, in every group, the parameter list, the betas, [eps], the weight
    decay and the bias-correction key as they were; the number of groups
    is unchanged.  A non-capturable optimizer also keeps the learning rate
    of every group and the overflow buffer. *)
Theorem step_keeps_hyperparameters closure grads output_params scale
    grad_norms sc w :
  let w' := (step closure grads output_params scale grad_norms sc w).1 in
  hypers_of w' = hypers_of w /\
  flags_of w' = flags_of w /\
  (capturable (w_self w) = false -> rates_of w' = rates_of w).
Proof.
  simpl. split; [|split].
  - apply (step_hypers closure grads output_params scale grad_norms sc w).
  - apply (step_flags closure grads output_params scale grad_norms sc w).
  - intros Hc.
    by apply (step_rates closure grads output_params scale grad_norms sc w).
Qed.

(** ** The arguments of the launches *)

Lemma three_launches_scalars op wm lr beta1 beta2 eps stp mode bias wd inv
    bs w :
  exists h cs,
    ((if 0 <? length (b_g (b16 bs)) then
        multi_tensor_applier op (lists_of wm (b16 bs)) lr beta1 beta2 eps
                             stp mode bias wd inv
      else mret tt) ;;;
     (if 0 <? length (b_g (bbf bs)) then
        multi_tensor_applier op (lists_of wm (bbf bs)) lr beta1 beta2 eps
                             stp mode bias wd inv
      else mret tt) ;;;
     (if 0 <? length (b_g (b32 bs)) then
        multi_tensor_applier op (lists_of wm (b32 bs)) lr beta1 beta2 eps
                             stp mode bias wd inv
      else mret tt)) w =
      (mkWorld h (w_self w) (w_trace w ++ map EvKernel cs), Ok tt) /\
    Forall (fun c => k_lr c = lr /\ k_step c = stp /\
                     k_beta1 c = beta1 /\ k_beta2 c = beta2 /\
                     k_eps c = eps /\ k_weight_decay c = wd /\
                     k_adam_w_mode c = mode /\
                     k_bias_correction c = bias) cs.
Proof.
  unfold mbind.
  destruct (launch_if_run (0 <? length (b_g (b16 bs))) op
              (lists_of wm (b16 bs)) lr beta1 beta2 eps stp mode bias wd
              inv w) as [h1 ->].
  set (w1 := mkWorld h1 _ _).
  destruct (launch_if_run (0 <? length (b_g (bbf bs))) op
              (lists_of wm (bbf bs)) lr beta1 beta2 eps stp mode bias wd
              inv w1) as [h2 ->].
  set (w2 := mkWorld h2 _ _).
  destruct (launch_if_run (0 <? length (b_g (b32 bs))) op
              (lists_of wm (b32 bs)) lr beta1 beta2 eps stp mode bias wd
              inv w2) as [h3 ->].
  subst w1 w2. simpl. exists h3.
  exists (flat_map
            (fun b => if nonempty b
                      then [mkCall op (dummy_overflow_buf (w_self w))
                                   (lists_of wm b) lr beta1 beta2 eps stp
                                   mode bias wd inv]
                      else [])
            [b16 bs; bbf bs; b32 bs]).
  unfold nonempty. simpl.
  destruct (0 <? length (b_g (b16 bs))), (0 <? length (b_g (bbf bs))),
    (0 <? length (b_g (b32 bs))); simpl;
    (split; [rewrite <- ?app_assoc; simpl; try rewrite app_nil_r;
             reflexivity|]);
    repeat constructor.
Qed.

Lemma launch_group_scalars sc dev g stp lr bias beta1 beta2 bs w w' :
  launch_group sc dev g stp lr bias beta1 beta2 bs w = (w', Ok tt) ->
  exists cs,
    w_trace w' = w_trace w ++ map EvKernel cs /\
    Forall (fun c => k_lr c = lr /\ k_step c = stp /\
                     k_beta1 c = beta1 /\ k_beta2 c = beta2 /\
                     k_eps c = g_eps g /\
                     k_weight_decay c = g_weight_decay g /\
                     k_adam_w_mode c = adam_w_mode (w_self w) /\
                     k_bias_correction c = bias) cs.
Proof.
  unfold launch_group, mbind at 1, get_self.
  destruct (capturable (w_self w)) eqn:Hcap.
  - unfold mbind at 1.
    pose proof (prelude_trace sc dev w) as Htr.
    destruct (scaler_prelude sc dev w) as [w1 [inv|e]]; simpl in Htr;
      [|discriminate].
    destruct (three_launches_scalars
                (if master_weights (w_self w)
                 then multi_tensor_adam_capturable_master
                 else multi_tensor_adam_capturable)
                (master_weights (w_self w)) lr beta1 beta2 (g_eps g) stp
                (adam_w_mode (w_self w)) bias (g_weight_decay g)
                (Some inv) bs w1) as (h & cs & -> & Hcs).
    intros [= <-]. exists cs. simpl. by rewrite Htr.
  - destruct (three_launches_scalars multi_tensor_adam false lr beta1 beta2
                (g_eps g) stp (adam_w_mode (w_self w)) bias
                (g_weight_decay g) None bs w) as (h & cs & -> & Hcs).
    intros [= <-]. by exists cs.
Qed.

(** The value under the key ["lr"] of the [i]-th group. *)
Lemma lr_at_alter_step v j i (gs : list Group) :
  g_lr <$> (alter (set_step v) j gs !! i) = g_lr <$> (gs !! i).
Proof.
  destruct (decide (j = i)) as [->|Hne].
  - rewrite list_lookup_alter_eq. by destruct (gs !! i).
  - by rewrite list_lookup_alter_ne.
Qed.

Ltac quiet_aspect :=
  try apply _; intros; intros ?w;
  unfold same, flags_of, group_at, step_at; simpl;
  rewrite ?lr_at_alter_step, ?step_at_alter_lr; reflexivity.

(** The counter that [update_step] returns is the one the dictionary of
    the group then holds. *)
Lemma update_step_stores i g dev w w1 stp :
  is_Some (group_at i w) ->
  update_step i g dev w = (w1, Ok stp) ->
  step_at i w1 = Some (Some stp).
Proof.
  intros [gi Hi] Hrun. unfold group_at in Hi.
  assert (forall v g0 w0 w2,
            param_groups (w_self w0) !! i = Some g0 ->
            assign_step i v w0 = (w2, Ok tt) ->
            step_at i w2 = Some (Some v) /\
            param_groups (w_self w2) !! i = Some (set_step v g0)) as Hset.
  { intros v g0 w0 w2 H0 [= <-]. unfold step_at. simpl.
    rewrite list_lookup_alter_eq, H0. done. }
  assert (forall A (m : M A) w0 w2 a,
            m w0 = (w2, Ok a) ->
            keeps (same (fun w => param_groups (w_self w))) m ->
            param_groups (w_self w2) = param_groups (w_self w0)) as Hsame.
  { intros A m w0 w2 a E Hk. specialize (Hk w0). by rewrite E in Hk. }
  unfold update_step in Hrun.
  apply mbind_ok in Hrun as (w0 & s & [= <- <-] & Hrun).
  destruct (g_step g) as [v|]; destruct (capturable (w_self w)).
  - apply mbind_ok in Hrun as (wa & r & Ea & Hrun).
    apply mbind_ok in Hrun as (wb & [] & Eb & Hrun).
    apply mbind_ok in Hrun as (wc & [] & Ec & Hrun).
    apply mbind_ok in Hrun as (wd & [] & Ed & [= <- <-]).
    assert (param_groups (w_self wa) !! i = Some gi) as Ha.
    { rewrite (Hsame _ _ _ _ _ Ea); [done|].
      destruct v; [apply keeps_tensor_of_number|
                   apply keeps_tensor_of_number|apply keeps_to_device];
        quiet_aspect. }
    destruct (Hset _ _ _ _ Ha Eb) as [_ Hb].
    assert (param_groups (w_self wc) !! i = Some (set_step (PTensor r) gi))
      as Hc.
    { rewrite (Hsame _ _ _ _ _ Ec); [done|].
      apply keeps_iadd_flag; quiet_aspect. }
    by destruct (Hset _ _ _ _ Hc Ed) as [Hd _].
  - destruct v as [z|q|r].
    + apply mbind_ok in Hrun as (wa & [] & Ea & [= <- <-]).
      by destruct (Hset _ _ _ _ Hi Ea).
    + apply mbind_ok in Hrun as (wa & [] & Ea & [= <- <-]).
      by destruct (Hset _ _ _ _ Hi Ea).
    + apply mbind_ok in Hrun as (wa & [] & Ea & Hrun).
      apply mbind_ok in Hrun as (wb & [] & Eb & [= <- <-]).
      assert (param_groups (w_self wa) !! i = Some gi) as Ha.
      { rewrite (Hsame _ _ _ _ _ Ea); [done|].
        apply keeps_iadd_scalar; quiet_aspect. }
      by destruct (Hset _ _ _ _ Ha Eb).
  - apply mbind_ok in Hrun as (wa & r & Ea & Hrun).
    apply mbind_ok in Hrun as (wb & [] & Eb & [= <- <-]).
    assert (param_groups (w_self wa) !! i = Some gi) as Ha.
    { by injection Ea as <- <-. }
    by destruct (Hset _ _ _ _ Ha Eb).
  - apply mbind_ok in Hrun as (wa & [] & Ea & [= <- <-]).
    by destruct (Hset _ _ _ _ Hi Ea).
Qed.

(** The learning rate that [update_lr] returns is the one the dictionary
    of the group then holds. *)
Lemma update_lr_stores i g dev w w1 lr :
  g_lr <$> group_at i w = Some (g_lr g) ->
  update_lr i g dev w = (w1, Ok lr) ->
  g_lr <$> group_at i w1 = Some lr.
Proof.
  intros Hi Hrun. unfold update_lr in Hrun.
  apply mbind_ok in Hrun as (w0 & s & [= <- <-] & Hrun).
  destruct (capturable (w_self w)).
  - apply mbind_ok in Hrun as (wa & r & Ea & Hrun).
    apply mbind_ok in Hrun as (wb & [] & Eb & [= <- <-]).
    assert (is_Some (param_groups (w_self wa) !! i)) as [ga Ha].
    { assert (keeps (same (group_at i))
                (match g_lr g with
                 | PInt z => tensor_of_number float32 [] dev (inject_Z z)
                 | PFloat q => tensor_of_number float32 [] dev q
                 | PTensor r => to_device dev r
                 end)) as Hk.
      { destruct (g_lr g); [apply keeps_tensor_of_number|
          apply keeps_tensor_of_number|apply keeps_to_device];
          quiet_aspect. }
      specialize (Hk w). rewrite Ea in Hk. unfold same in Hk. simpl in Hk.
      unfold group_at in *. rewrite Hk.
      destruct (param_groups (w_self w) !! i); [by eexists|done]. }
    injection Eb as <-. unfold group_at. simpl.
    by rewrite list_lookup_alter_eq, Ha.
  - by injection Hrun as <- <-.
Qed.

(** X8: every launch for a group carries the betas, [eps] and the weight
    decay of the group, the [adam_w_mode] of the optimizer, the
    bias-correction flag (1 when the key is present and true, 0
    otherwise), and the counter and the learning rate that the dictionary
    of the group holds after the iteration. *)
Theorem launches_carry_group_arguments sc i g gm w w' :
  group_at i w = Some g ->
  step_group sc (i, g, gm) w = (w', Ok tt) ->
  exists cs,
    w_trace w' = w_trace w ++ map EvKernel cs /\
    Forall (fun c =>
              carries g (adam_w_mode (w_self w)) c /\
              step_at i w' = Some (Some (k_step c)) /\
              g_lr <$> group_at i w' = Some (k_lr c)) cs.
Proof.
  intros Hi Hrun. unfold step_group in Hrun.
  destruct (g_params g) as [|p0 ps] eqn:Eps.
  { injection Hrun as <-. exists []. by rewrite app_nil_r. }
  apply mbind_ok in Hrun as (w0 & t0 & [= <- <-] & Hrun).
  apply mbind_ok in Hrun as (w1 & stp & E1 & Hrun).
  apply mbind_ok in Hrun as (w2 & lr & E2 & Hrun).
  apply mbind_ok in Hrun as (w3 & bs & E3 & E4).
  set (dev := t_device (h_tensor (w_heap w) p0)) in *.
  set (F := fun w0 : World =>
              (w_trace w0, adam_w_mode (w_self w0))).
  assert (F w1 = F w) as F1.
  { pose proof (keeps_update_step (same F) ltac:(quiet_aspect)
                  ltac:(quiet_aspect) i ltac:(quiet_aspect) g dev w) as H.
    by rewrite E1 in H. }
  assert (F w2 = F w1) as F2.
  { pose proof (keeps_update_lr (same F) ltac:(quiet_aspect) i
                  ltac:(quiet_aspect) g dev w1) as H.
    by rewrite E2 in H. }
  assert (forall X (f : World -> X),
            (forall t, keeps (same f) (new_tensor t)) ->
            (forall st, keeps (same f) (modify_self (with_state st))) ->
            (forall p k r, keeps (same f) (state_set p k r)) ->
            f w3 = f w2) as K3.
  { intros X f H1 H2 H3.
    pose proof (keeps_for_acc (same f) visit_param
                  (zip (g_params g) gm) empty_buckets) as H.
    rewrite Eps in H. specialize (H ltac:(
      intros [p pm] bs0 _; apply keeps_visit_param;
      [apply _|apply H1|apply H2|apply H3]) w2).
    by rewrite E3 in H. }
  assert (F w3 = F w2) as F3 by (apply K3; quiet_aspect).
  assert (step_at i w1 = Some (Some stp)) as S1.
  { apply (update_step_stores i g dev w); [by rewrite Hi|done]. }
  assert (step_at i w2 = step_at i w1) as S2.
  { pose proof (keeps_update_lr (same (step_at i)) ltac:(quiet_aspect) i
                  ltac:(quiet_aspect) g dev w1) as H.
    by rewrite E2 in H. }
  assert (step_at i w3 = step_at i w2) as S3 by (apply K3; quiet_aspect).
  assert (g_lr <$> group_at i w1 = Some (g_lr g)) as L1.
  { pose proof (keeps_update_step
                  (same (fun w0 => g_lr <$> group_at i w0))
                  ltac:(quiet_aspect) ltac:(quiet_aspect) i
                  ltac:(quiet_aspect) g dev w) as H.
    rewrite E1 in H. unfold same in H. simpl in H. by rewrite H, Hi. }
  assert (g_lr <$> group_at i w2 = Some lr) as L2.
  { by apply (update_lr_stores i g dev w1). }
  assert (group_at i w3 = group_at i w2) as L3
    by (apply K3; quiet_aspect).
  pose proof (keeps_launch_group
                (same (fun w0 => (step_at i w0, group_at i w0)))
                ltac:(quiet_aspect) ltac:(quiet_aspect)
                ltac:(quiet_aspect) sc dev g stp lr
                (match g_bias_correction g with
                 | Some true => 1%Z | _ => 0%Z end)
                (g_betas g).1 (g_betas g).2 bs w3) as H4.
  rewrite E4 in H4. unfold same in H4. simpl in H4.
  injection H4 as S4 L4.
  destruct (launch_group_scalars _ _ _ _ _ _ _ _ _ _ _ E4)
    as (cs & Htr & Hcs).
  exists cs. split.
  { rewrite Htr. f_equal.
    transitivity (F w3).1; [done|]. by rewrite F3, F2, F1. }
  eapply Forall_impl; [exact Hcs|]. simpl.
  intros c (Hlr & Hst & Hb1 & Hb2 & He & Hwd & Hm & Hbias).
  split.
  { repeat split; try done. rewrite Hm.
    transitivity (F w3).2; [done|]. by rewrite F3, F2, F1. }
  split.
  - by rewrite Hst, S4, S3, S2.
  - by rewrite Hlr, L4, L3.
Qed.

(** ** The lists handed to a kernel *)

Lemma place_ok_master p gr pm d bs w w' bs' :
  place p gr pm d bs w = (w', Ok bs') ->
  master_weights (w_self w) = true -> pm <> None.
Proof.
  unfold place, mbind, get_self, read, master_data. simpl.
  intros H Hmw Hpm. subst pm. rewrite Hmw in H.
  destruct (t_dtype (h_tensor (w_heap w) p)); discriminate.
Qed.

Lemma balanced_push (mw : bool) gr p m v (ms : list ref) b :
  length ms = (if mw then 1 else 0) ->
  balanced mw b -> balanced mw (push gr p m v ms b).
Proof.
  intros Hms (H1 & H2 & H3 & H4). unfold balanced, push. simpl.
  rewrite !length_app. simpl. rewrite H1, H2, H3, H4, Hms.
  destruct mw; repeat split; lia.
Qed.

Lemma visit_param_balanced p pm bs w w' bs' :
  visit_param (p, pm) bs w = (w', Ok bs') ->
  master_weights (w_self w') = master_weights (w_self w) /\
  (balanced (master_weights (w_self w)) (b16 bs) ->
   balanced (master_weights (w_self w)) (b16 bs')) /\
  (balanced (master_weights (w_self w)) (bbf bs) ->
   balanced (master_weights (w_self w)) (bbf bs')) /\
  (balanced (master_weights (w_self w)) (b32 bs) ->
   balanced (master_weights (w_self w)) (b32 bs')).
Proof.
  intros Hrun.
  assert (master_weights (w_self w') = master_weights (w_self w)) as Hmw.
  { pose proof (keeps_visit_param
                  (same (fun w0 => master_weights (w_self w0)))
                  ltac:(quiet_aspect) p ltac:(quiet_aspect)
                  ltac:(quiet_aspect) pm bs w) as H.
    by rewrite Hrun in H. }
  split; [done|].
  destruct (h_grad (w_heap w) p) as [gr|] eqn:Hg; cycle 1.
  { rewrite (visit_param_no_grad p pm bs w Hg) in Hrun.
    by injection Hrun as <- <-. }
  destruct (visit_param_ok p pm bs w w' bs' gr Hg Hrun)
    as (Hs & d & m & v & ms & _ & _ & _ & Hms & Hpl).
  assert (length ms = if master_weights (w_self w) then 1 else 0) as Hlen.
  { destruct (visit_param_dense p pm bs w gr Hg Hs) as (w1 & d1 & E & Ev).
    rewrite Ev in Hrun.
    destruct (init_state_run p w)
      as (w1' & d' & E' & _ & _ & _ & Hself & _).
    rewrite E in E'. injection E' as <- <-.
    pose proof (place_ok_master _ _ _ _ _ _ _ _ Hrun) as Hpm.
    assert (master_weights (w_self w1) = master_weights (w_self w)) as H1.
    { by rewrite <- Hself. }
    rewrite H1 in Hpm. subst ms.
    destruct (master_weights (w_self w)); [|done].
    destruct pm; [done|]. by destruct Hpm. }
  unfold placed in Hpl.
  destruct (t_dtype (h_tensor (w_heap w') p)); try done; subst bs';
    simpl; (split; [|split]); intros ?; try done; by apply balanced_push.
Qed.

Lemma collect_balanced pms bs w w' bs' :
  for_acc visit_param pms bs w = (w', Ok bs') ->
  balanced (master_weights (w_self w)) (b16 bs) ->
  balanced (master_weights (w_self w)) (bbf bs) ->
  balanced (master_weights (w_self w)) (b32 bs) ->
  balanced (master_weights (w_self w)) (b16 bs') /\
  balanced (master_weights (w_self w)) (bbf bs') /\
  balanced (master_weights (w_self w)) (b32 bs').
Proof.
  revert bs w. induction pms as [|[p pm] pms IH]; intros bs w Hrun H1 H2 H3.
  - by injection Hrun as <- <-.
  - cbn [for_acc] in Hrun.
    apply mbind_ok in Hrun as (w1 & bs1 & E1 & Hrun).
    destruct (visit_param_balanced p pm bs w w1 bs1 E1)
      as (Hmw & B1 & B2 & B3).
    rewrite <- Hmw. apply (IH bs1 w1 Hrun); rewrite Hmw; auto.
Qed.

Lemma balanced_lists mw b :
  balanced mw b ->
  Forall (fun l : list ref => length l = length (b_p b)) (lists_of mw b).
Proof.
  intros (H1 & H2 & H3 & H4). unfold lists_of.
  destruct mw; repeat constructor; done.
Qed.

(** X9: the lists that the loop over the parameters of a group builds
    belong together: in each bucket the gradients, the two moments and,
    when master weights are kept, the master weights are as many as the
    parameters, so every list handed to a kernel has the same length;
    without master weights the master lists stay empty. *)
Theorem bucket_lists_have_equal_length pms w w' bs :
  for_acc visit_param pms empty_buckets w = (w', Ok bs) ->
  Forall (fun b =>
            balanced (master_weights (w_self w)) b /\
            Forall (fun l : list ref => length l = length (b_p b))
                   (lists_of (master_weights (w_self w)) b))
         [b16 bs; bbf bs; b32 bs].
Proof.
  intros Hrun.
  assert (balanced (master_weights (w_self w)) empty_bucket) as He.
  { unfold balanced. simpl. by destruct (master_weights (w_self w)). }
  destruct (collect_balanced pms empty_buckets w w' bs Hrun He He He)
    as (B1 & B2 & B3).
  do 3 (constructor; [split; [done|by apply balanced_lists]|]).
  constructor.
Qed.

(** ** A call without gradients *)

Lemma collect_no_grads pms bs w :
  (forall p pm, (p, pm) ∈ pms -> grads_of w p = None) ->
  for_acc visit_param pms bs w = (w, Ok bs).
Proof.
  induction pms as [|[p pm] pms IH]; intros H; [done|].
  cbn [for_acc]. unfold mbind.
  rewrite (visit_param_no_grad p pm bs w).
  - apply IH. intros q qm Hq. apply (H q qm). by apply list_elem_of_further.
  - apply (H p pm). apply list_elem_of_here.
Qed.

Lemma launch_group_empty sc dev g stp lr bias beta1 beta2 w :
  w_trace (launch_group sc dev g stp lr bias beta1 beta2 empty_buckets w).1 =
    w_trace w.
Proof.
  destruct (launch_group_run sc dev g stp lr bias beta1 beta2 empty_buckets
              w) as (w' & r & cs & E & _ & Htr & Hcs).
  rewrite E. simpl. rewrite Htr. destruct r as [[]|e].
  - simpl in Hcs. apply Forall2_nil_inv_l in Hcs as ->.
    by rewrite app_nil_r.
  - subst cs. by rewrite app_nil_r.
Qed.

Lemma step_group_no_grads sc i g gm w :
  (forall p, p ∈ g_params g -> grads_of w p = None) ->
  let w' := (step_group sc (i, g, gm) w).1 in
  w_trace w' = w_trace w /\ states_of w' = states_of w.
Proof.
  intros Hg. simpl.
  set (G := fun w0 : World => (w_trace w0, states_of w0)).
  enough (G (step_group sc (i, g, gm) w).1 = G w) as H.
  { unfold G in H. by injection H as -> ->. }
  unfold step_group.
  destruct (g_params g) as [|p0 ps] eqn:Eps; [done|].
  rewrite (mbind_run (read p0) _ w w (h_tensor (w_heap w) p0) eq_refl).
  set (dev := t_device (h_tensor (w_heap w) p0)).
  set (F := fun w0 : World => (w_trace w0, states_of w0, grads_of w0)).
  pose proof (keeps_update_step (same F) ltac:(aspect_prims)
                ltac:(aspect_prims) i ltac:(aspect_prims) g dev w) as H1.
  unfold mbind at 1.
  destruct (update_step i g dev w) as [w1 [stp|e]];
    unfold same, F in H1; simpl in H1; injection H1 as Ht1 Hs1 Hg1;
    [|unfold G; simpl; congruence].
  pose proof (keeps_update_lr (same F) ltac:(aspect_prims) i
                ltac:(aspect_prims) g dev w1) as H2.
  unfold mbind at 1.
  destruct (update_lr i g dev w1) as [w2 [lr|e]];
    unfold same, F in H2; simpl in H2; injection H2 as Ht2 Hs2 Hg2;
    [|unfold G; simpl; congruence].
  assert (grads_of w2 = grads_of w) as Hgr by congruence.
  unfold mbind at 1. rewrite collect_no_grads; cycle 1.
  { intros p pm Hin. apply elem_of_zip_l in Hin. rewrite Hgr.
    by apply Hg. }
  unfold G. rewrite launch_group_empty.
  pose proof (launch_group_states sc dev g stp lr
                (match g_bias_correction g with
                 | Some true => 1%Z | _ => 0%Z end)
                (g_betas g).1 (g_betas g).2 empty_buckets w2) as H4.
  unfold same in H4. rewrite H4. congruence.
Qed.

Lemma step_groups_no_grads sc l w :
  (forall i g gm p, (i, g, gm) ∈ l -> p ∈ g_params g ->
                    grads_of w p = None) ->
  let w' := (for_each (step_group sc) l w).1 in
  w_trace w' = w_trace w /\ states_of w' = states_of w.
Proof.
  revert w. induction l as [|[[i g] gm] l IH]; intros w Hg; [done|].
  cbv zeta. cbn [for_each].
  destruct (step_group_no_grads sc i g gm w) as [Ht Hs].
  { intros p Hp. apply (Hg i g gm p); [apply list_elem_of_here|done]. }
  pose proof (step_group_grads sc (i, g, gm) w) as Hgr.
  unfold same in Hgr.
  destruct (step_group sc (i, g, gm) w) as [w1 [[]|e]] eqn:E;
    cbn [fst] in Ht, Hs, Hgr.
  - rewrite (mbind_run _ _ _ _ _ E).
    destruct (IH w1) as [Ht1 Hs1].
    { intros j g' gm' p Hin Hp. rewrite Hgr.
      apply (Hg j g' gm' p); [by apply list_elem_of_further|done]. }
    split; congruence.
  - rewrite (mbind_raise _ _ _ _ _ E). by split.
Qed.

Lemma elem_of_params_of w g p :
  g ∈ param_groups (w_self w) -> p ∈ g_params g ->
  p ∈ concat (params_of w).
Proof.
  unfold params_of. intros Hg Hp.
  induction (param_groups (w_self w)) as [|g0 gs IH].
  - by apply elem_of_nil in Hg.
  - simpl. apply elem_of_app. apply elem_of_cons in Hg as [->|Hg]; auto.
Qed.

(** X10: when no parameter of any group has a gradient after the closure
    has run, [step] launches no kernel and creates no state, whatever else
    it does (the counters of the non-empty groups are advanced all the
    same). *)
Theorem step_without_gradients_launches_nothing closure sc w :
  no_gradients (after_closure closure w) ->
  let w' := (step closure None None None None sc w).1 in
  w_trace w' = w_trace (after_closure closure w) /\
  states_of w' = states_of w.
Proof.
  intros Hno. simpl.
  assert (states_of (after_closure closure w) = states_of w) as Hsc.
  { unfold states_of. by rewrite after_closure_self. }
  destruct (loss_of closure w) as [lo|e] eqn:El; cycle 1.
  { by rewrite (step_closure_raises closure sc w e El). }
  destruct (step_run closure sc w lo El) as (w2 & ms & Ecm & Hms & ->).
  destruct (create_master_total (after_closure closure w))
    as (w2' & ms' & Ecm' & _ & Hself & Ht & (Hgr & _) & _).
  rewrite Ecm in Ecm'. injection Ecm' as <-.
  destruct (step_groups_no_grads sc
              (zip (enumerate (param_groups (w_self w2))) ms) w2)
    as [Ht3 Hs3].
  { intros i g gm p Hin Hp. unfold grads_of. rewrite Hgr.
    apply Hno. unfold params_of.
    apply list_elem_of_lookup in Hin as [a Ha].
    apply lookup_groups_masters in Ha as (-> & Hg & _).
    rewrite Hself in Hg. simpl in Hg.
    apply (elem_of_params_of _ g); [|done].
    by eapply list_elem_of_lookup_2. }
  simpl in Ht3, Hs3.
  assert (states_of w2 = states_of w) as Hs2.
  { rewrite <- Hsc. unfold states_of. by rewrite Hself. }
  destruct (for_each _ _ w2) as [w3 [[]|e]]; simpl in *;
    split; congruence.
Qed.

(** ** A state dictionary that lacks a moment *)

(** X11: the state of a parameter is initialized only when its dictionary
    is empty.  A dictionary that is not empty but has no ["exp_avg"], or
    no ["exp_avg_sq"], makes the visit of a parameter with a dense
    gradient and a supported element type raise [KeyError]; nothing is
    created. *)
Theorem incomplete_state_raises_key_error p pm bs w gr d :
  h_grad (w_heap w) p = Some gr ->
  t_sparse (h_tensor (w_heap w) gr) = false ->
  state (w_self w) !! p = Some d -> d <> ∅ ->
  bucket_for (t_dtype (h_tensor (w_heap w) p)) bs <> None ->
  (master_weights (w_self w) = true -> pm <> None) ->
  (d !! "exp_avg" = None ->
   visit_param (p, pm) bs w = (w, Raise (KeyError "exp_avg"))) /\
  (d !! "exp_avg" <> None -> d !! "exp_avg_sq" = None ->
   visit_param (p, pm) bs w = (w, Raise (KeyError "exp_avg_sq"))).
Proof.
  intros Hg Hs Hd Hne Hb Hpm.
  destruct (visit_param_dense p pm bs w gr Hg Hs) as (w1 & d1 & E & ->).
  rewrite (init_state_existing p d w Hd Hne) in E.
  injection E as <- <-.
  unfold place, mbind, get_self, read, master_data, state_get. simpl.
  split.
  - intros Hm. rewrite Hm.
    destruct (t_dtype (h_tensor (w_heap w) p)); simpl in *; try done;
      destruct (master_weights (w_self w)); simpl; try done;
      (destruct pm; [done|by destruct Hpm]).
  - intros Hm Hv. rewrite Hv.
    destruct (d !! "exp_avg") as [m|]; [|done].
    destruct (t_dtype (h_tensor (w_heap w) p)); simpl in *; try done;
      destruct (master_weights (w_self w)); simpl; try done;
      (destruct pm; [done|by destruct Hpm]).
Qed.

(** ** The moments that [load_state_dict] converts *)

(** [t.float()] leaves a [float32] tensor alone and otherwise allocates
    the converted copy; the tensors that existed are not modified. *)
Lemma float_value r w :
  exists w' r',
    float_ r w = (w', Ok r') /\
    w_self w' = w_self w /\ w_trace w' = w_trace w /\
    heap_grows w w' /\
    h_tensor (w_heap w') r' = t_to float32 (h_tensor (w_heap w) r) /\
    (t_dtype (h_tensor (w_heap w) r) = float32 -> r' = r /\ w' = w) /\
    (r < h_next (w_heap w) -> r' < h_next (w_heap w')).
Proof.
  unfold float_, mbind, read, t_to. simpl.
  destruct (decide (t_dtype (h_tensor (w_heap w) r) = float32)) as [E|E].
  - exists w, r. by repeat split.
  - eexists _, _. split; [reflexivity|]. simpl.
    split; [done|]. split; [done|]. split.
    { repeat split; simpl; try lia. intros q Hq.
      rewrite decide_False; [done|lia]. }
    rewrite decide_True by done. split; [done|]. split; [done|lia].
Qed.

Lemma state_of_existing p d w :
  state (w_self w) !! p = Some d -> state_of p w = (w, Ok d).
Proof. intros H. unfold state_of, mbind, get_self. by rewrite H. Qed.

Lemma state_get_found (d : gmap string ref) k r w :
  d !! k = Some r -> state_get d k w = (w, Ok r).
Proof. intros H. unfold state_get. by rewrite H. Qed.

Lemma state_get_missing (d : gmap string ref) k w :
  d !! k = None -> state_get d k w = (w, Raise (KeyError k)).
Proof. intros H. unfold state_get. by rewrite H. Qed.

(** X12: [load_state_dict] converts the two moments of a parameter with
    [.float()]: the state then holds tensors with the [float32] conversion
    of the loaded values; a moment that is [float32] already stays the
    same tensor (no copy), and no tensor that existed is modified. *)
Theorem load_converts_moment_values p w d (m v : ref) :
  state (w_self w) !! p = Some d ->
  d !! "exp_avg" = Some m -> d !! "exp_avg_sq" = Some v ->
  m < h_next (w_heap w) -> v < h_next (w_heap w) ->
  exists w' m' v',
    load_param p w = (w', Ok tt) /\
    state (w_self w') !! p =
      Some (<["exp_avg_sq" := v']> (<["exp_avg" := m']> d)) /\
    h_tensor (w_heap w') m' = t_to float32 (h_tensor (w_heap w) m) /\
    h_tensor (w_heap w') v' = t_to float32 (h_tensor (w_heap w) v) /\
    (forall r, r < h_next (w_heap w) ->
               h_tensor (w_heap w') r = h_tensor (w_heap w) r) /\
    (t_dtype (h_tensor (w_heap w) m) = float32 -> m' = m) /\
    (t_dtype (h_tensor (w_heap w) v) = float32 -> v' = v).
Proof.
  intros Hd Hm Hv Hma Hva.
  destruct (float_value m w)
    as (w1 & m' & E1 & S1 & _ & (_ & N1 & O1) & V1 & F1 & A1).
  destruct (state_set_run p "exp_avg" m' w1) as (w2 & E2 & H2 & St2).
  destruct (float_value v w2)
    as (w3 & v' & E3 & S3 & _ & (_ & N3 & O3) & V3 & F3 & A3).
  destruct (state_set_run p "exp_avg_sq" v' w3) as (w4 & E4 & H4 & St4).
  exists w4, m', v'. split.
  { unfold load_param.
    rewrite (mbind_run _ _ _ _ _ (state_of_existing p d w Hd)).
    cbv beta. rewrite Hm.
    rewrite (mbind_run _ _ _ _ _ E1), (mbind_run _ _ _ _ _ E2).
    rewrite (mbind_run _ _ _ _ _ (state_get_found d "exp_avg_sq" v w2 Hv)).
    by rewrite (mbind_run _ _ _ _ _ E3). }
  rewrite H2 in N3, O3, V3, F3.
  split.
  { rewrite St4, lookup_insert_eq, S3, St2, lookup_insert_eq, S1, Hd.
    done. }
  split.
  { rewrite H4, O3; [done|]. by apply A1. }
  split.
  { rewrite H4, V3, O1; done. }
  split.
  { intros r Hr. rewrite H4, O3, O1; [done|done|lia]. }
  split.
  - intros Hf. by destruct (F1 Hf).
  - intros Hf. apply F3. by rewrite O1.
Qed.

(** X13: a state that holds ["exp_avg"] but no ["exp_avg_sq"] makes
    [load_state_dict] raise [KeyError] at that parameter, after the first
    moment has been converted and stored. *)
Theorem load_incomplete_state_raises p w d (m : ref) :
  state (w_self w) !! p = Some d ->
  d !! "exp_avg" = Some m -> d !! "exp_avg_sq" = None ->
  exists w' m',
    load_param p w = (w', Raise (KeyError "exp_avg_sq")) /\
    state (w_self w') !! p = Some (<["exp_avg" := m']> d) /\
    h_tensor (w_heap w') m' = t_to float32 (h_tensor (w_heap w) m).
Proof.
  intros Hd Hm Hv.
  destruct (float_value m w) as (w1 & m' & E1 & S1 & _ & _ & V1 & _).
  destruct (state_set_run p "exp_avg" m' w1) as (w2 & E2 & H2 & St2).
  exists w2, m'. split.
  { unfold load_param.
    rewrite (mbind_run _ _ _ _ _ (state_of_existing p d w Hd)).
    cbv beta. rewrite Hm.
    rewrite (mbind_run _ _ _ _ _ E1), (mbind_run _ _ _ _ _ E2).
    by rewrite (mbind_raise _ _ _ _ _
                  (state_get_missing d "exp_avg_sq" w2 Hv)). }
  split.
  - by rewrite St2, lookup_insert_eq, S1, Hd.
  - by rewrite H2.
Qed.

(** ** The counter and the learning rate that [load_state_dict] installs *)

Lemma new_tensor_run t w :
  new_tensor t w =
    (mkWorld (alloc t (w_heap w)).2 (w_self w) (w_trace w),
     Ok (h_next (w_heap w))).
Proof. reflexivity. Qed.

Lemma alloc_lookup t h : h_tensor (alloc t h).2 (h_next h) = t.
Proof. simpl. by rewrite decide_True. Qed.

Lemma cuda_of_cpu r w :
  t_device (h_tensor (w_heap w) r) = cpu ->
  cuda_ r w =
    new_tensor (t_on (cuda current_cuda) (h_tensor (w_heap w) r)) w.
Proof. intros H. unfold cuda_, mbind, read. simpl. by rewrite H. Qed.

Lemma trunc_inject z : trunc (inject_Z z) = z.
Proof. unfold trunc, inject_Z. simpl. apply Z.quot_1_r. Qed.

Lemma wrap_in_int32 z : in_int32 z = true -> wrap 32 z = z.
Proof.
  unfold in_int32, wrap. intros H.
  apply andb_true_iff in H as [H1 H2].
  apply Z.leb_le in H1. apply Z.ltb_lt in H2.
  rewrite Z.mod_small; lia.
Qed.

(** X14: in capturable mode [load_state_dict] installs as counter of a
    group what the broadcast from rank 0 delivers.  On another rank the
    counter that was loaded is not even read: the broadcast goes into a
    new [int32] tensor [[0]] on the GPU.  On rank 0 a counter loaded as an
    integer within the [int32] range is first put into a one-element
    [int32] tensor on the GPU. *)
Theorem load_installs_broadcast_counter i g w :
  capturable (w_self w) = true ->
  let stp := S (h_next (w_heap w)) in
  let sent (x : Q) :=
    mkTensor int32 [1] (cuda current_cuda) false
      (broadcast (mkTensor int32 [1] (cuda current_cuda) false [x])) in
  (forall v,
     get_rank <> 0 -> g_step g = Some v ->
     exists w',
       load_step i g w = (w', Ok tt) /\
       param_groups (w_self w') =
         alter (set_step (PTensor stp)) i (param_groups (w_self w)) /\
       h_tensor (w_heap w') stp = sent 0%Q) /\
  (forall z,
     get_rank = 0 -> g_step g = Some (PInt z) -> in_int32 z = true ->
     exists w',
       load_step i g w = (w', Ok tt) /\
       param_groups (w_self w') =
         alter (set_step (PTensor stp)) i (param_groups (w_self w)) /\
       h_tensor (w_heap w') stp = sent (inject_Z z)).
Proof.
  intros Hcap stp sent.
  assert (forall t,
            t_device t = cpu -> t_dtype t = int32 -> t_shape t = [1] ->
            t_sparse t = false ->
            exists w',
              (let* s0 := (let* r := new_tensor t in cuda_ r) in
               let* t0 := read s0 in
               write_elems s0 (broadcast t0) ;;;
               assign_step i (PTensor s0)) w = (w', Ok tt) /\
              param_groups (w_self w') =
                alter (set_step (PTensor stp)) i (param_groups (w_self w)) /\
              h_tensor (w_heap w') stp =
                mkTensor int32 [1] (cuda current_cuda) false
                  (broadcast (mkTensor int32 [1] (cuda current_cuda) false
                                       (t_elems t)))) as Hrun.
  { intros t Hdev Hty Hsh Hsp.
    set (w1 := mkWorld (alloc t (w_heap w)).2 (w_self w) (w_trace w)).
    set (t1 := t_on (cuda current_cuda) t).
    set (w2 := mkWorld (alloc t1 (w_heap w1)).2 (w_self w) (w_trace w)).
    assert ((let* r := new_tensor t in cuda_ r) w = (w2, Ok stp)) as E.
    { rewrite (mbind_run _ _ _ _ _ (new_tensor_run t w)).
      rewrite cuda_of_cpu; fold w1.
      - cbn [w_heap w1]. rewrite alloc_lookup. apply new_tensor_run.
      - cbn [w_heap w1]. by rewrite alloc_lookup. }
    assert (h_tensor (w_heap w2) stp = t1) as Ht1.
    { apply (alloc_lookup t1 (w_heap w1)). }
    eexists. split.
    { rewrite (mbind_run _ _ _ _ _ E).
      unfold mbind, read, write_elems, assign_step, modify_self.
      reflexivity. }
    split; [done|]. cbn [w_heap w_self fst snd].
    unfold set_elems. cbn [h_tensor]. rewrite decide_True by done.
    rewrite Ht1. unfold t1, t_on. cbn. by rewrite Hty, Hsh, Hsp. }
  split.
  - intros v Hrank Hs.
    destruct (Hrun (mkTensor int32 [1] cpu false [0%Q]))
      as (w' & E & Hg & Ht); try done.
    exists w'. split; [|by split].
    unfold load_step, mbind at 1, get_self. rewrite Hcap, Hs.
    apply Nat.eqb_neq in Hrank. rewrite Hrank. exact E.
  - intros z Hrank Hs Hz.
    destruct (Hrun (mkTensor int32 [1] cpu false [inject_Z z]))
      as (w' & E & Hg & Ht); try done.
    exists w'. split; [|by split].
    unfold load_step, mbind at 1, get_self. rewrite Hcap, Hs, Hrank.
    cbn [Nat.eqb].
    unfold tensor_of_number. cbn [is_floating].
    rewrite trunc_inject, Hz. cbn [orb].
    unfold cast. rewrite trunc_inject, wrap_in_int32 by done. exact E.
Qed.

Lemma load_group_group_at i j g :
  i <> j -> keeps (same (group_at i)) (load_group (j, g)).
Proof.
  intros Hne. apply keeps_load_group_parts; [apply _|..].
  - apply keeps_load_lr; group_at_prims.
  - apply keeps_load_step; group_at_prims.
  - intros. apply keeps_load_param; group_at_prims.
Qed.

Lemma load_lr_stores i g w w1 :
  capturable (w_self w) = true -> is_Some (group_at i w) ->
  load_lr i g w = (w1, Ok tt) ->
  capturable (w_self w1) = true /\
  exists r, g_lr <$> group_at i w1 = Some (PTensor r).
Proof.
  intros Hcap [gi Hi] Hrun. unfold load_lr in Hrun.
  apply mbind_ok in Hrun as (w0 & s & [= <- <-] & Hrun).
  rewrite Hcap in Hrun.
  apply mbind_ok in Hrun as (wa & r & Ea & [= <-]).
  assert (keeps (same (fun w0 => (capturable (w_self w0), group_at i w0)))
            (match g_lr g with
             | PInt z =>
                 let* r := tensor_of_number float32 [] cpu (inject_Z z) in
                 cuda_ r
             | PFloat q =>
                 let* r := tensor_of_number float32 [] cpu q in cuda_ r
             | PTensor r => cuda_ r
             end)) as Hk.
  { destruct (g_lr g);
      [apply keeps_bind; [apply _| |intros ?]..|];
      first [apply keeps_tensor_of_number|apply keeps_cuda_];
      quiet_aspect. }
  specialize (Hk w). rewrite Ea in Hk. unfold same in Hk. simpl in Hk.
  injection Hk as Hc Hg. split; [simpl; congruence|].
  exists r. unfold group_at in *. simpl.
  by rewrite list_lookup_alter_eq, Hg, Hi.
Qed.

Lemma load_step_stores i g v w w1 :
  capturable (w_self w) = true -> is_Some (group_at i w) ->
  g_step g = Some v ->
  load_step i g w = (w1, Ok tt) ->
  exists r, step_at i w1 = Some (Some (PTensor r)).
Proof.
  intros Hcap [gi Hi] Hs Hrun. unfold load_step in Hrun.
  apply mbind_ok in Hrun as (w0 & s & [= <- <-] & Hrun).
  rewrite Hs, Hcap in Hrun.
  apply mbind_ok in Hrun as (wa & stp & Ea & Hrun).
  apply mbind_ok in Hrun as (wb & t & [= <- <-] & Hrun).
  apply mbind_ok in Hrun as (wc & [] & [= <-] & [= <-]).
  assert (keeps (same (group_at i))
            (if get_rank =? 0 then
               match v with
               | PInt z =>
                   let* r := tensor_of_number int32 [1] cpu (inject_Z z) in
                   cuda_ r
               | PFloat q =>
                   let* r := tensor_of_number int32 [1] cpu q in cuda_ r
               | PTensor r => cuda_ r
               end
             else
               let* r := new_tensor (mkTensor int32 [1] cpu false [0%Q]) in
               cuda_ r)) as Hk.
  { destruct (get_rank =? 0); [destruct v as [z|q|r0]|].
    - apply keeps_bind; [apply _| |intros ?];
        [apply keeps_tensor_of_number|apply keeps_cuda_]; quiet_aspect.
    - apply keeps_bind; [apply _| |intros ?];
        [apply keeps_tensor_of_number|apply keeps_cuda_]; quiet_aspect.
    - apply keeps_cuda_; quiet_aspect.
    - apply keeps_bind; [apply _| |intros ?];
        [|apply keeps_cuda_]; quiet_aspect. }
  specialize (Hk w). rewrite Ea in Hk. unfold same in Hk. simpl in Hk.
  exists stp. unfold step_at, group_at in *. simpl.
  by rewrite list_lookup_alter_eq, Hk, Hi.
Qed.

Lemma load_params_group_at i ps :
  keeps (same (group_at i)) (for_each load_param ps).
Proof.
  apply keeps_for_each; [apply _|]. intros.
  apply keeps_load_param; group_at_prims.
Qed.

(** X15: in capturable mode, when [load_state_dict] returns, every group
    holds its learning rate as a tensor, and a group that was loaded with
    a counter holds the counter as a tensor, whatever the checkpoint
    held. *)
Theorem load_capturable_installs_tensors sd w w1 w' :
  base_load_state_dict sd w = (w1, Ok tt) ->
  capturable (w_self w1) = true ->
  load_state_dict sd w = (w', Ok tt) ->
  forall i g,
    group_at i w1 = Some g ->
    exists g',
      group_at i w' = Some g' /\ is_tensor (g_lr g') /\
      (g_step g <> None -> exists v, g_step g' = Some v /\ is_tensor v).
Proof.
  intros Eb Hcap Hrun i g Hi.
  apply load_state_dict_inv in Hrun as (w1' & Eb' & Hloop).
  rewrite Eb in Eb'. injection Eb' as <-.
  set (I := fun w0 : World =>
              capturable (w_self w0) = true /\
              length (param_groups (w_self w0)) =
                length (param_groups (w_self w1))).
  set (P := fun (x : nat * Group) (w0 : World) =>
              (exists r, g_lr <$> group_at x.1 w0 = Some (PTensor r)) /\
              (g_step x.2 <> None ->
               exists r, step_at x.1 w0 = Some (Some (PTensor r)))).
  assert (forall x, x ∈ enumerate (param_groups (w_self w1)) -> P x w')
    as Hall; cycle 1.
  { destruct (Hall (i, g)) as [[r Hr] Hs].
    { apply list_elem_of_lookup. exists i. by apply lookup_enumerate. }
    simpl in Hr, Hs. unfold step_at in Hs. fold (group_at i w') in Hs.
    destruct (group_at i w') as [g'|]; [|done].
    exists g'. split; [done|]. split.
    { exists r. simpl in Hr. congruence. }
    intros Hne. destruct (Hs Hne) as [r' Hr']. simpl in Hr'.
    exists (PTensor r'). split; [congruence|by exists r']. }
  apply (for_each_ok_all load_group I P _ w1 w'); [| | | |exact Hloop].
  - by split.
  - intros x w0 _ (H1 & H2). split.
    + pose proof (load_group_flags x w0) as Hf.
      unfold same, flags_of in Hf. congruence.
    + pose proof (load_group_params x w0) as Hp.
      unfold same, params_of in Hp.
      apply (f_equal length) in Hp. rewrite !length_map in Hp. congruence.
  - intros [j gj] w0 wb Hx (H1 & H2) Hbody. unfold P. cbn [fst snd].
    apply list_elem_of_lookup in Hx as [a Ha].
    apply lookup_enumerate in Ha as [Hj Hgj]. cbn [fst snd] in *. subst a.
    assert (is_Some (group_at j w0)) as Hsome.
    { apply lookup_lt_is_Some. rewrite H2. by apply lookup_lt_Some in Hgj. }
    unfold load_group in Hbody.
    apply mbind_ok in Hbody as (wa & [] & Ea & Hbody).
    apply mbind_ok in Hbody as (wc & [] & Ec & Hbody).
    destruct (load_lr_stores j gj w0 wa H1 Hsome Ea) as [Hca [r Hr]].
    pose proof (load_params_group_at j (g_params gj) wc) as Hk.
    rewrite Hbody in Hk. unfold same in Hk. cbn [fst] in Hk.
    split.
    + exists r. rewrite Hk.
      pose proof (keeps_load_step
                    (same (fun w0 => g_lr <$> group_at j w0))
                    ltac:(quiet_aspect) ltac:(quiet_aspect) j
                    ltac:(quiet_aspect) gj wa) as Hl.
      rewrite Ec in Hl. unfold same in Hl. cbn [fst] in Hl.
      by rewrite Hl.
    + intros Hne. destruct (g_step gj) as [v|] eqn:Ev; [|done].
      destruct (load_step_stores j gj v wa wc Hca) as [r' Hr']; try done.
      { destruct (group_at j wa); [by eexists|done]. }
      exists r'. unfold step_at in *. unfold group_at in Hk.
      by rewrite Hk.
  - intros a b [j gj] [k gk] w0 Hab Ha Hb _ [HP1 HP2].
    apply lookup_enumerate in Ha as [Hj _].
    apply lookup_enumerate in Hb as [Hk _]. cbn [fst snd] in *. subst j k.
    pose proof (load_group_group_at a b gk ltac:(lia) w0) as Hg.
    unfold same in Hg. unfold P, step_at. cbn [fst snd].
    unfold group_at in *. rewrite Hg. by split.
Qed.

Lemma load_group_rates x : keeps rates_stay (load_group x).
Proof.
  destruct x as [i g]. apply keeps_load_group_parts; [apply _|..].
  - intros w Hc. rewrite (load_lr_noncapturable i g w Hc). by split.
  - apply keeps_load_step; rates_prims.
  - intros. apply keeps_load_param; rates_prims.
Qed.

Lemma load_group_hypers x : keeps (same hypers_of) (load_group x).
Proof.
  destruct x as [i g]. apply keeps_load_group_parts; [apply _|..].
  - apply keeps_load_lr; frame_prims.
  - apply keeps_load_step; frame_prims.
  - intros. apply keeps_load_param; frame_prims.
Qed.

Lemma load_step_number i g w :
  capturable (w_self w) = false ->
  (forall r, g_step g <> Some (PTensor r)) ->
  load_step i g w = (w, Ok tt).
Proof.
  intros Hc Hs. unfold load_step, mbind, get_self. rewrite Hc.
  destruct (g_step g) as [[z|q|r]|]; try done. by destruct (Hs r).
Qed.

Lemma load_groups_group_at i g l w :
  capturable (w_self w) = false ->
  (forall r, g_step g <> Some (PTensor r)) ->
  (forall j gj, (j, gj) ∈ l -> j = i -> gj = g) ->
  group_at i (for_each load_group l w).1 = group_at i w.
Proof.
  intros Hc Hs. revert w Hc.
  induction l as [|[j gj] l IH]; intros w Hc Hl; [done|].
  cbn [for_each].
  assert (group_at i (load_group (j, gj) w).1 = group_at i w) as H1.
  { destruct (decide (i = j)) as [->|Hne].
    - rewrite (Hl j gj (list_elem_of_here _ _) eq_refl).
      unfold load_group.
      rewrite (mbind_run _ _ _ _ _ (load_lr_noncapturable j g w Hc)).
      rewrite (mbind_run _ _ _ _ _ (load_step_number j g w Hc Hs)).
      apply (load_params_group_at j (g_params g) w).
    - by apply load_group_group_at. }
  pose proof (load_group_flags (j, gj) w) as Hf.
  unfold same, flags_of in Hf.
  destruct (load_group (j, gj) w) as [wa [[]|e]] eqn:E;
    cbn [fst] in H1, Hf.
  - rewrite (mbind_run _ _ _ _ _ E), IH; [done|congruence|].
    intros k gk Hin. apply Hl. by apply list_elem_of_further.
  - by rewrite (mbind_raise _ _ _ _ _ E).
Qed.

(** X16: in a non-capturable optimizer [load_state_dict] changes, in the
    groups that the base class has installed, nothing but a counter that
    is a tensor: the learning rates and the other keys are kept, and a
    group whose counter is absent or a Python number is left as it is,
    whatever the outcome. *)
Theorem load_noncapturable_keeps_groups sd w w1 :
  base_load_state_dict sd w = (w1, Ok tt) ->
  capturable (w_self w1) = false ->
  let w' := (load_state_dict sd w).1 in
  rates_of w' = rates_of w1 /\
  hypers_of w' = hypers_of w1 /\
  forall i g,
    group_at i w1 = Some g -> (forall r, g_step g <> Some (PTensor r)) ->
    group_at i w' = Some g.
Proof.
  intros Eb Hcap. cbv zeta.
  assert ((load_state_dict sd w).1 =
          (for_each load_group (enumerate (param_groups (w_self w1)))
                    w1).1) as ->.
  { unfold load_state_dict. rewrite (mbind_run _ _ _ _ _ Eb).
    by rewrite (mbind_run get_self _ w1 w1 (w_self w1) eq_refl). }
  split; [|split].
  - by apply (keeps_for_each rates_stay load_group _
                (fun x _ => load_group_rates x) w1).
  - apply (keeps_for_each (same hypers_of) load_group _
             (fun x _ => load_group_hypers x) w1).
  - intros i g Hi Hs. rewrite <- Hi.
    apply load_groups_group_at with (g := g); [done|done|].
    intros j gj Hin ->.
    apply list_elem_of_lookup in Hin as [a Ha].
    apply lookup_enumerate in Ha as [Hj Hg]. simpl in *. subst a.
    unfold group_at in Hi. congruence.
Qed.

(** ** Calls in a row *)

Lemma step_keeps_group_params closure sc w i g :
  group_at i w = Some g ->
  exists g',
    group_at i (step closure None None None None sc w).1 = Some g' /\
    g_params g' = g_params g.
Proof.
  intros Hi.
  pose proof (step_hypers closure None None None None sc w) as Hh.
  unfold same, hypers_of in Hh.
  apply (f_equal (fun l => l !! i)) in Hh.
  change ((hyper_of <$>
             param_groups
               (w_self (step closure None None None None sc w).1)) !! i =
          (hyper_of <$> param_groups (w_self w)) !! i) in Hh.
  rewrite !list_lookup_fmap in Hh.
  unfold group_at in *. rewrite Hi in Hh.
  destruct (param_groups
              (w_self (step closure None None None None sc w).1) !! i)
    as [g'|] eqn:E; [|discriminate].
  exists g'. split; [reflexivity|]. simpl in Hh. by injection Hh.
Qed.

Lemma step_times_counter sc n :
  forall w w' i g z,
    capturable (w_self w) = false -> master_aligned w ->
    group_at i w = Some g -> g_params g <> [] ->
    g_step g = Some (PInt z) ->
    step_times sc n w = (w', Ok tt) ->
    step_at i w' = Some (Some (PInt (z + Z.of_nat n))).
Proof.
  induction n as [|n IH]; intros w w' i g z Hcap Hal Hi Hne Hs Hrun.
  - injection Hrun as <-. unfold step_at. unfold group_at in Hi.
    rewrite Hi. simpl. rewrite Hs. do 3 f_equal. lia.
  - cbn [step_times] in Hrun.
    apply mbind_ok in Hrun as (w1 & loss & E1 & Hrun).
    pose proof (step_noncapturable_counter None sc w w1 loss Hcap Hal E1
                  i g Hi Hne) as H1.
    rewrite Hs in H1. cbn [next_counter] in H1.
    destruct (step_keeps_group_params None sc w i g Hi) as (g1 & Hg1 & Hp1).
    rewrite E1 in Hg1. cbn [fst] in Hg1.
    pose proof (step_flags None None None None None sc w) as Hf.
    pose proof (step_stays_aligned None None None None None sc w Hal)
      as Ha.
    rewrite E1 in Hf, Ha. unfold same, flags_of in Hf. cbn [fst] in Hf, Ha.
    rewrite (IH w1 w' i g1 (z + 1)%Z); try done.
    + do 3 f_equal. lia.
    + congruence.
    + by rewrite Hp1.
    + unfold step_at in H1. unfold group_at in Hg1. rewrite Hg1 in H1.
      simpl in H1. congruence.
Qed.

(** X17: in a non-capturable optimizer whose master weights, once built,
    list one entry per parameter of each group, the counter of a non-empty
    group counts the calls of [step]: after [n] calls that all end
    normally a counter that was the integer [z] is [z + n], and a counter
    that was absent is [n]. *)
Theorem counter_counts_the_calls sc n w w' i g :
  capturable (w_self w) = false -> master_aligned w ->
  group_at i w = Some g -> g_params g <> [] ->
  step_times sc (S n) w = (w', Ok tt) ->
  (forall z, g_step g = Some (PInt z) ->
             step_at i w' = Some (Some (PInt (z + Z.of_nat (S n))))) /\
  (g_step g = None ->
   step_at i w' = Some (Some (PInt (Z.of_nat (S n))))).
Proof.
  intros Hcap Hal Hi Hne Hrun. split.
  - intros z Hs. by apply (step_times_counter sc (S n) w w' i g z).
  - intros Hs. cbn [step_times] in Hrun.
    apply mbind_ok in Hrun as (w1 & loss & E1 & Hrun).
    pose proof (step_noncapturable_counter None sc w w1 loss Hcap Hal E1
                  i g Hi Hne) as H1.
    rewrite Hs in H1. cbn [next_counter] in H1.
    destruct (step_keeps_group_params None sc w i g Hi) as (g1 & Hg1 & Hp1).
    rewrite E1 in Hg1. cbn [fst] in Hg1.
    pose proof (step_flags None None None None None sc w) as Hf.
    pose proof (step_stays_aligned None None None None None sc w Hal)
      as Ha.
    rewrite E1 in Hf, Ha. unfold same, flags_of in Hf. cbn [fst] in Hf, Ha.
    rewrite (step_times_counter sc n w1 w' i g1 1); try done.
    + do 3 f_equal. lia.
    + congruence.
    + by rewrite Hp1.
    + unfold step_at in H1. unfold group_at in Hg1. rewrite Hg1 in H1.
      simpl in H1. congruence.
Qed.

(** ** The overflow buffer without a gradient scaler *)

#[global] Instance clear_stays_preorder : PreOrder clear_stays.
Proof.
  split; [intros w H; exact H|]. intros w1 w2 w3 H1 H2 H. apply H2, H1, H.
Qed.

Lemma same_clear_stays {A} (m : M A) :
  keeps (same (fun w => dummy_overflow_buf (w_self w))) m ->
  keeps clear_stays m.
Proof. intros H w Hw. specialize (H w). unfold same in H. congruence. Qed.

Ltac clear_prims :=
  try apply _; intros; apply same_clear_stays; intros ?w; unfold same;
  reflexivity.

(** Without a gradient scaler the launches of a capturable optimizer
    leave the buffer at zero; a non-capturable optimizer does not touch
    it. *)
Lemma launch_group_no_scaler dev g stp lr bias beta1 beta2 bs w :
  dummy_overflow_buf
    (w_self (launch_group None dev g stp lr bias beta1 beta2 bs w).1) =
    (if capturable (w_self w) then 0%Z
     else dummy_overflow_buf (w_self w)).
Proof.
  unfold launch_group, mbind at 1, get_self.
  destruct (capturable (w_self w)) eqn:Hcap.
  - assert (exists w1 r, scaler_prelude None dev w = (w1, Ok r) /\
                         w_self w1 = with_buf 0 (w_self w))
      as (w1 & r & E & Hs).
    { eexists _, _. split; [reflexivity|]. done. }
    rewrite (mbind_run _ _ _ _ _ E).
    destruct (three_launches
                (if master_weights (w_self w)
                 then multi_tensor_adam_capturable_master
                 else multi_tensor_adam_capturable)
                (master_weights (w_self w)) lr beta1 beta2 (g_eps g) stp
                (adam_w_mode (w_self w)) bias (g_weight_decay g)
                (Some r) bs w1) as (h & cs & -> & _).
    simpl. by rewrite Hs.
  - destruct (three_launches multi_tensor_adam false lr beta1 beta2
                (g_eps g) stp (adam_w_mode (w_self w)) bias
                (g_weight_decay g) None bs w) as (h & cs & -> & _).
    done.
Qed.

Lemma step_group_clear_stays x : keeps clear_stays (step_group None x).
Proof.
  destruct x as [[i g] gm]. apply keeps_step_group_parts; [apply _|..].
  - intros. apply keeps_update_step; clear_prims.
  - intros. apply keeps_update_lr; clear_prims.
  - intros [p pm] bs _. apply keeps_visit_param; clear_prims.
  - intros dev stp lr bias beta1 beta2 bs w Hw.
    rewrite launch_group_no_scaler. by destruct (capturable (w_self w)).
Qed.

Lemma step_group_clears i g gm w w' :
  capturable (w_self w) = true -> g_params g <> [] ->
  step_group None (i, g, gm) w = (w', Ok tt) ->
  dummy_overflow_buf (w_self w') = 0%Z.
Proof.
  intros Hcap Hne Hrun. unfold step_group in Hrun.
  destruct (g_params g) as [|p0 ps] eqn:Eps; [done|].
  apply mbind_ok in Hrun as (w0 & t0 & [= <- <-] & Hrun).
  apply mbind_ok in Hrun as (w1 & stp & E1 & Hrun).
  apply mbind_ok in Hrun as (w2 & lr & E2 & Hrun).
  apply mbind_ok in Hrun as (w3 & bs & E3 & E4).
  set (dev := t_device (h_tensor (w_heap w) p0)) in *.
  set (F := fun w0 : World => capturable (w_self w0)).
  assert (F w1 = F w) as F1.
  { pose proof (keeps_update_step (same F) ltac:(quiet_aspect)
                  ltac:(quiet_aspect) i ltac:(quiet_aspect) g dev w) as H.
    by rewrite E1 in H. }
  assert (F w2 = F w1) as F2.
  { pose proof (keeps_update_lr (same F) ltac:(quiet_aspect) i
                  ltac:(quiet_aspect) g dev w1) as H.
    by rewrite E2 in H. }
  assert (F w3 = F w2) as F3.
  { pose proof (keeps_for_acc (same F) visit_param
                  (zip (g_params g) gm) empty_buckets) as H.
    rewrite Eps in H. specialize (H ltac:(
      intros [p pm] bs0 _; apply keeps_visit_param; quiet_aspect) w2).
    by rewrite E3 in H. }
  pose proof (launch_group_no_scaler dev g stp lr
                (match g_bias_correction g with
                 | Some true => 1%Z | _ => 0%Z end)
                (g_betas g).1 (g_betas g).2 bs w3) as H4.
  rewrite E4 in H4. cbn [fst] in H4. rewrite H4.
  unfold F in *. by rewrite F3, F2, F1, Hcap.
Qed.

Lemma step_clears_overflow closure w w' loss i g :
  capturable (w_self w) = true -> master_aligned w ->
  group_at i w = Some g -> g_params g <> [] ->
  step closure None None None None None w = (w', Ok loss) ->
  dummy_overflow_buf (w_self w') = 0%Z.
Proof.
  intros Hcap Hal Hi Hne Hrun.
  apply step_ok_inv in Hrun as (Hc & w2 & ms & Ecm & Ems & Hloop).
  pose proof (after_closure_self closure w) as Hself.
  destruct (create_master_aligned (after_closure closure w))
    as (w2' & ms' & Ecm' & S2 & _ & _ & _ & _ & F).
  { unfold master_aligned, master_of_world in *. by rewrite Hself. }
  rewrite Ecm in Ecm'. injection Ecm' as <-.
  rewrite Hself in S2, F.
  assert (ms' = ms) as ->.
  { unfold master_of_world in Ems. rewrite S2 in Ems. simpl in Ems.
    congruence. }
  assert (param_groups (w_self w2) = param_groups (w_self w)) as Hgs
    by (by rewrite S2).
  rewrite Hgs in Hloop.
  unfold group_at in Hi.
  destruct (Forall2_lookup_l _ _ _ _ _ F Hi) as (gm & Hgm & _).
  set (I := fun w0 : World => capturable (w_self w0) = true).
  set (P := fun (x : nat * Group * list (option ref)) (w0 : World) =>
              g_params x.1.2 <> [] ->
              dummy_overflow_buf (w_self w0) = 0%Z).
  assert (forall x, x ∈ zip (enumerate (param_groups (w_self w))) ms ->
                    P x w') as Hall; cycle 1.
  { apply (Hall (i, g, gm)); [|done].
    apply list_elem_of_lookup. exists i. by apply lookup_groups_masters. }
  apply (for_each_ok_all (step_group None) I P _ w2 w');
    [| | | |exact Hloop].
  - unfold I. by rewrite S2.
  - intros x w0 _ H1. unfold I in *.
    pose proof (step_group_flags None x w0) as Hf.
    unfold same, flags_of in Hf. congruence.
  - intros [[j gj] gmj] w0 w1 _ H1 Hbody Hnej.
    by apply (step_group_clears j gj gmj w0 w1).
  - intros a b x y w0 _ _ _ _ HP Hx.
    by apply (step_group_clear_stays y w0), HP.
Qed.

(** X18: in capturable mode without a gradient scaler, in an optimizer
    whose master weights, once built, list one entry per parameter of each
    group, a call of [step] that ends normally and has a non-empty group
    leaves the overflow buffer at zero, so that the increment which the
    next call adds to the counters, [(buffer != 1).to(int)], is one. *)
Theorem step_without_scaler_clears_overflow closure w w' loss i g :
  capturable (w_self w) = true -> master_aligned w ->
  group_at i w = Some g -> g_params g <> [] ->
  step closure None None None None None w = (w', Ok loss) ->
  dummy_overflow_buf (w_self w') = 0%Z /\
  overflow_increment (dummy_overflow_buf (w_self w')) = 1%Z.
Proof.
  intros Hcap Hal Hi Hne Hrun.
  rewrite (step_clears_overflow closure w w' loss i g); done.
Qed.

(** ** A counter on another device *)


(** ** The optimizer that [__init__] builds *)

Lemma keeps_init_group_lr (R : World -> World -> Prop) `{!PreOrder R} idx
    g :
  (forall t, keeps R (new_tensor t)) ->
  (forall v, keeps R (assign_lr idx v)) ->
  keeps R (init_group_lr (idx, g)).
Proof.
  intros Hnew Hlr. unfold init_group_lr.
  destruct (g_params g) as [|p0 ps]; [by apply keeps_ret|].
  apply keeps_bind; [done|by apply keeps_read|intros t0].
  apply keeps_bind; [done| |intros r; apply Hlr].
  destruct (g_lr g) as [z|q|r0].
  - by apply keeps_raise.
  - apply keeps_bind; [done| |intros r1].
    + by apply keeps_tensor_of_number.
    + by apply keeps_to_device.
  - by apply keeps_to_device.
Qed.

Lemma init_group_lr_stores idx g w w' :
  is_Some (group_at idx w) -> g_params g <> [] ->
  init_group_lr (idx, g) w = (w', Ok tt) ->
  exists r, g_lr <$> group_at idx w' = Some (PTensor r).
Proof.
  intros [gi Hi] Hne Hrun. unfold init_group_lr in Hrun.
  destruct (g_params g) as [|p0 ps]; [done|].
  apply mbind_ok in Hrun as (w0 & t0 & [= <- <-] & Hrun).
  apply mbind_ok in Hrun as (wa & r & Ea & [= <-]).
  assert (keeps (same (group_at idx))
            (match g_lr g with
             | PInt _ => raise AttributeError
             | PFloat q =>
                 let* r := tensor_of_number float32 [] cpu q in
                 to_device (t_device (h_tensor (w_heap w) p0)) r
             | PTensor r => to_device (t_device (h_tensor (w_heap w) p0)) r
             end)) as Hk.
  { destruct (g_lr g) as [z|q|r0].
    - apply keeps_raise, _.
    - apply keeps_bind; [apply _| |intros ?];
        [apply keeps_tensor_of_number|apply keeps_to_device];
        quiet_aspect.
    - apply keeps_to_device; quiet_aspect. }
  specialize (Hk w). rewrite Ea in Hk. unfold same in Hk. cbn [fst] in Hk.
  exists r. unfold group_at in *. simpl.
  by rewrite list_lookup_alter_eq, Hk, Hi.
Qed.

Lemma init_group_lr_group_at i j g :
  i <> j -> keeps (same (group_at i)) (init_group_lr (j, g)).
Proof. intros Hne. apply keeps_init_group_lr; group_at_prims. Qed.

Lemma map_constant_Forall {A B C} (f : A -> B) (c : B) (l : list A)
    (k : list C) :
  map f l = map (fun _ => c) k -> Forall (fun x => f x = c) l.
Proof.
  revert k. induction l as [|x l IH]; intros [|y k] H; simpl in H;
    try discriminate; constructor.
  - by injection H.
  - injection H as _ H. by apply (IH k).
Qed.

(** The part of the object that the loop over the groups of [__init__]
    leaves alone. *)
Lemma init_groups_aspects l :
  keeps (same (fun w =>
           (flags_of w, master_of_world w, states_of w,
            dummy_overflow_buf (w_self w),
            map g_params (param_groups (w_self w)),
            map g_step (param_groups (w_self w)))))
        (for_each init_group_lr l).
Proof.
  apply keeps_for_each; [apply _|]. intros [idx g] _.
  apply keeps_init_group_lr; try apply _; intros; intros w;
    unfold same, flags_of, master_of_world, states_of; simpl;
    rewrite ?(map_alter_same g_params), ?(map_alter_same g_step) by done;
    reflexivity.
Qed.

Lemma init_groups_tensors gs w w' :
  param_groups (w_self w) = gs ->
  for_each init_group_lr (enumerate gs) w = (w', Ok tt) ->
  forall i g,
    gs !! i = Some g -> g_params g <> [] ->
    exists r, g_lr <$> group_at i w' = Some (PTensor r).
Proof.
  intros Hgs Hloop i g Hi Hne.
  set (I := fun w0 : World =>
              length (param_groups (w_self w0)) = length gs).
  set (P := fun (x : nat * Group) (w0 : World) =>
              g_params x.2 <> [] ->
              exists r, g_lr <$> group_at x.1 w0 = Some (PTensor r)).
  assert (forall x, x ∈ enumerate gs -> P x w') as Hall; cycle 1.
  { apply (Hall (i, g)); [|done].
    apply list_elem_of_lookup. exists i. by apply lookup_enumerate. }
  apply (for_each_ok_all init_group_lr I P _ w w'); [| | | |exact Hloop].
  - unfold I. by rewrite Hgs.
  - intros x w0 _ H0. unfold I in *.
    pose proof (init_groups_aspects [x] w0) as Hk.
    unfold same in Hk. cbn [for_each] in Hk.
    rewrite mbind_ret_world in Hk.
    apply (f_equal (fun t => length (snd (fst t)))) in Hk.
    cbn [fst snd] in Hk. rewrite !length_map in Hk. congruence.
  - intros [j gj] w0 w1 Hx H0 Hbody Hnej. cbn [fst snd] in *.
    apply list_elem_of_lookup in Hx as [a Ha].
    apply lookup_enumerate in Ha as [Hj Hgj]. cbn [fst snd] in *. subst a.
    apply (init_group_lr_stores j gj w0 w1); try done.
    apply lookup_lt_is_Some. unfold I in H0. rewrite H0.
    by apply lookup_lt_Some in Hgj.
  - intros a b [j gj] [k gk] w0 Hab Ha Hb _ HP Hnej.
    apply lookup_enumerate in Ha as [Hj _].
    apply lookup_enumerate in Hb as [Hk _]. cbn [fst snd] in *. subst j k.
    pose proof (init_group_lr_group_at a b gk ltac:(lia) w0) as Hg.
    unfold same in Hg. rewrite Hg. by apply HP.
Qed.

(** X20: when [__init__] returns, [amsgrad] was false, master weights
    were asked for only together with [capturable], and the extension was
    available.  The object holds the flags as given, [adam_w_mode] as 1
    or 0, no master weights yet, an empty state, the overflow buffer at
    zero, one group per element of [params] with its parameters and no
    step counter; [_step_supports_amp_scaling] is set exactly in
    capturable mode, and then the learning rate of every non-empty group
    is a tensor. *)
Theorem init_builds_optimizer params lr bias_correction betas eps adam_w
    weight_decay amsgrad cap mw available h h' s :
  init params lr bias_correction betas eps adam_w weight_decay amsgrad cap
       mw available h = (h', Ok s) ->
  (amsgrad = false /\ (mw = true -> cap = true) /\ available = true) /\
  (capturable s = cap /\ master_weights s = mw /\
   adam_w_mode s = (if adam_w then 1 else 0)%Z /\
   step_supports_amp_scaling s = cap) /\
  (param_groups_master s = None /\ state s = ∅ /\
   dummy_overflow_buf s = 0%Z) /\
  map g_params (param_groups s) = map ps_params params /\
  Forall (fun g => g_step g = None) (param_groups s) /\
  (cap = true ->
   Forall (fun g => g_params g <> [] -> is_tensor (g_lr g))
          (param_groups s)).
Proof.
  unfold init.
  destruct (init_body _ _ _ _ _ _ _ _ _ _ _ _) as [w' [[]|e]] eqn:E;
    [|discriminate].
  intros [= <- <-]. unfold init_body in E.
  destruct amsgrad; [discriminate|].
  destruct (mw && negb cap) eqn:Emw; [discriminate|].
  apply mbind_ok in E as (w1 & lr0 & E1 & E).
  apply mbind_ok in E as (w2 & [] & E2 & E).
  apply mbind_ok in E as (w3 & [] & E3 & E).
  apply mbind_ok in E as (w4 & [] & E4 & E5).
  destruct available; [|discriminate].
  injection E5 as <-. injection E3 as <-.
  assert (w_self w1 = blank) as S1.
  { destruct cap; [|by injection E1 as <- _].
    apply mbind_ok in E1 as (wa & r & Ea & [= <- _]).
    pose proof (keeps_tensor_of_number (same w_self) ltac:(quiet_aspect)
                  float32 [] cpu lr (mkWorld h blank [])) as Hk.
    by rewrite Ea in Hk. }
  unfold base_init in E2. destruct params as [|ps0 params]; [discriminate|].
  injection E2 as <-.
  set (gs := map (fun ps => mkGroup (ps_params ps) (default lr0 (ps_lr ps))
                              (Some bias_correction) betas eps
                              weight_decay None) (ps0 :: params)) in *.
  assert (map g_params gs = map ps_params (ps0 :: params)) as Hp.
  { unfold gs. rewrite map_map. done. }
  assert (map g_step gs = map (fun _ => None) (ps0 :: params)) as Hst.
  { unfold gs. rewrite map_map. done. }
  split.
  { split; [done|]. split; [|done]. intros ->. by destruct cap. }
  destruct cap.
  - apply mbind_ok in E4 as (wa & s0 & [= <- <-] & E4).
    apply mbind_ok in E4 as (wb & [] & Eloop & [= <-]).
    cbn [w_self with_flags param_groups with_state with_groups] in Eloop.
    match type of Eloop with
    | for_each _ (enumerate ?l) ?w0 = _ =>
        pose proof (init_groups_aspects (enumerate l) w0) as Hk;
        pose proof (init_groups_tensors l w0 wb eq_refl Eloop) as Ht
    end.
    rewrite Eloop in Hk. unfold same in Hk. cbn [fst] in Hk.
    cbv beta in Hk.
    pose proof (f_equal (fun t => t.1.1.1.1.1) Hk) as Hfl.
    pose proof (f_equal (fun t => t.1.1.1.1.2) Hk) as Hm.
    pose proof (f_equal (fun t => t.1.1.1.2) Hk) as Hs.
    pose proof (f_equal (fun t => t.1.1.2) Hk) as Hb.
    pose proof (f_equal (fun t => t.1.2) Hk) as Hgp.
    pose proof (f_equal (fun t => t.2) Hk) as Hgs.
    clear Hk. cbn [fst snd] in Hfl, Hm, Hs, Hb, Hgp, Hgs.
    unfold flags_of in Hfl. injection Hfl as Hc Hmw Ha.
    unfold master_of_world in Hm. unfold states_of in Hs.
    cbn in Hc, Hmw, Ha, Hm, Hs, Hb. rewrite S1 in Hb. cbn in Hb.
    change (map g_params (param_groups (w_self wb)) = map g_params gs)
      in Hgp.
    change (map g_step (param_groups (w_self wb)) = map g_step gs) in Hgs.
    split; [done|]. split; [done|].
    cbn [param_groups with_buf with_amp_scaling w_self].
    split; [by rewrite Hgp|].
    split.
    { apply (map_constant_Forall _ _ _ (ps0 :: params)). by rewrite Hgs. }
    intros _. apply Forall_lookup. intros i g Hi Hne.
    assert (exists g0, gs !! i = Some g0 /\ g_params g0 = g_params g)
      as (g0 & Hg0 & Hpg).
    { apply (f_equal (fun l => l !! i)) in Hgp.
      change ((g_params <$> param_groups (w_self wb)) !! i =
              (g_params <$> gs) !! i) in Hgp.
      rewrite !list_lookup_fmap, Hi in Hgp.
      destruct (gs !! i) as [g0|]; [|discriminate].
      exists g0. split; [done|]. simpl in Hgp. by injection Hgp. }
    destruct (Ht i g0 Hg0) as [r Hr]; [by rewrite Hpg|].
    unfold group_at in Hr. rewrite Hi in Hr. simpl in Hr.
    exists r. congruence.
  - injection E4 as <-. cbn. rewrite S1. cbn.
    split; [done|]. split; [done|]. split; [done|].
    split; [by apply (map_constant_Forall _ _ _ (ps0 :: params))|].
    discriminate.
Qed.

Lemma init_group_lr_not_int idx g w w' :
  g_params g <> [] ->
  init_group_lr (idx, g) w = (w', Ok tt) ->
  forall z, g_lr g <> PInt z.
Proof.
  intros Hne Hrun z Hz. unfold init_group_lr in Hrun.
  destruct (g_params g) as [|p0 ps]; [done|]. rewrite Hz in Hrun.
  unfold mbind, read, raise in Hrun. discriminate.
Qed.

(** X21: a capturable optimizer cannot be constructed with a learning rate
    that is a Python integer in a non-empty group: [__init__] converts
    only a [float] to a tensor and then calls [.to] on the value, which an
    integer does not have.  So when [__init__] returns, no non-empty group
    was given an integer learning rate. *)
Theorem init_capturable_refuses_integer_lr params lr bias_correction betas
    eps adam_w weight_decay amsgrad mw available h h' s :
  init params lr bias_correction betas eps adam_w weight_decay amsgrad true
       mw available h = (h', Ok s) ->
  Forall (fun ps => ps_params ps <> [] ->
                    forall z, ps_lr ps <> Some (PInt z)) params.
Proof.
  unfold init.
  destruct (init_body _ _ _ _ _ _ _ _ _ _ _ _) as [w' [[]|e]] eqn:E;
    [|discriminate].
  intros _. unfold init_body in E.
  destruct amsgrad; [discriminate|].
  destruct (mw && negb true); [discriminate|].
  apply mbind_ok in E as (w1 & lr0 & E1 & E).
  apply mbind_ok in E as (w2 & [] & E2 & E).
  apply mbind_ok in E as (w3 & [] & E3 & E).
  apply mbind_ok in E as (w4 & [] & E4 & _).
  apply mbind_ok in E1 as (wa & r & _ & [= <- <-]).
  unfold base_init in E2. destruct params as [|ps0 params]; [constructor|].
  injection E2 as <-. injection E3 as <-.
  apply mbind_ok in E4 as (wb & s0 & [= <- <-] & E4).
  apply mbind_ok in E4 as (wc & [] & Eloop & _).
  cbn [w_self with_flags param_groups with_state with_groups] in Eloop.
  set (mk := fun ps => mkGroup (ps_params ps) (default (PTensor r) (ps_lr ps))
                         (Some bias_correction) betas eps weight_decay
                         None) in *.
  match type of Eloop with
  | for_each _ (enumerate ?l) ?w0 = _ =>
      pose proof (for_each_ok_all init_group_lr (fun _ => True)
                    (fun (x : nat * Group) (_ : World) =>
                       g_params x.2 <> [] -> forall z, g_lr x.2 <> PInt z)
                    (enumerate l) w0 wc I) as Hall
  end.
  specialize (Hall ltac:(done)).
  specialize (Hall ltac:(
    intros [j gj] w0 w5 _ _ Hbody Hne; cbn [snd] in *;
    by apply (init_group_lr_not_int j gj w0 w5))).
  specialize (Hall ltac:(done) Eloop). cbv beta in Hall.
  apply Forall_lookup. intros i ps Hi Hne z Hz.
  refine (Hall (i, mk ps) _ Hne z _).
  - apply list_elem_of_lookup. exists i. apply lookup_enumerate.
    split; [done|]. cbn [snd].
    change ((mk <$> (ps0 :: params)) !! i = Some (mk ps)).
    by rewrite list_lookup_fmap, Hi.
  - unfold mk. cbn [snd g_lr]. by rewrite Hz.
Qed.
End FusedAdam.

(** ** The theorems on the small optimizer *)

Local Abbreviation ex_step := (step ex_round Qinv ex_kernel).
Local Abbreviation ex_visit := (visit_param ex_round).
Local Abbreviation ex_load :=
  (load_state_dict ex_round 0 0 t_elems World ex_base_load).

Lemma ex_round_zero d : ex_round d 0 = 0%Q.
Proof. reflexivity. Qed.

Lemma ex_step_runs :
  ex_step None None None None None None ex_world =
    ((ex_step None None None None None None ex_world).1, Ok None).
Proof. vm_compute. reflexivity. Qed.

Lemma ex_apart : apart 1 ex_world.
Proof.
  split; [simpl; lia|]. split; [|split; [|split]].
  - intros q gr. simpl.
    destruct q as [|[|[|[|[|[|q]]]]]]; intros [= <-]; lia.
  - intros q d k r Hq. simpl in Hq. by rewrite lookup_empty in Hq.
  - intros g Hg. apply list_elem_of_singleton in Hg as ->. done.
  - intros ms gm Hms. done.
Qed.

Lemma ex_loaded_allocated : state_allocated ex_loaded.
Proof.
  intros p d k r Hp Hk. simpl in *.
  apply lookup_insert_Some in Hp as [[<- <-]|[_ Hp]];
    [|by rewrite lookup_empty in Hp].
  apply lookup_insert_Some in Hk as [[<- <-]|[_ Hk]]; [lia|].
  apply lookup_insert_Some in Hk as [[<- <-]|[_ Hk]]; [lia|].
  by rewrite lookup_empty in Hk.
Qed.

Lemma ex_load_runs :
  ex_load ex_loaded ex_world = ((ex_load ex_loaded ex_world).1, Ok tt).
Proof. vm_compute. reflexivity. Qed.

Lemma init_rejects_unsupported_witness :
  exists msg,
    init_body ex_round [mkSpec [0; 1; 2] None] (1 # 1000) true
              (9 # 10, 999 # 1000)%Q (1 # 100000000) true 0%Q
              true false false true ex_world =
      (ex_world, Raise (RuntimeError msg)) /\
    init ex_round [mkSpec [0; 1; 2] None] (1 # 1000) true
         (9 # 10, 999 # 1000)%Q (1 # 100000000) true 0%Q
         true false false true ex_heap =
      (ex_heap, Raise (RuntimeError msg)).
Proof.
  apply init_rejects_unsupported. left. reflexivity.
Defined.

Lemma step_rejects_deprecated_arguments_witness :
  ex_step None (Some (PInt 1)) None None None None ex_world =
    (ex_world, Raise (RuntimeError deprecated_message)).
Proof.
  apply step_rejects_deprecated_arguments. left. discriminate.
Defined.

Lemma step_dispatches_by_flags_witness :
  exists cs,
    w_trace (launch_group ex_round Qinv ex_kernel None (cuda 0) ex_group
               (PInt 1) (PFloat (1 # 1000)) 1 (9 # 10) (999 # 1000)
               ex_collected ex_world).1 =
      w_trace ex_world ++ map EvKernel cs /\
    Forall2 (launches (entry_for false false) false)
            (List.filter nonempty
               [b16 ex_collected; bbf ex_collected; b32 ex_collected]) cs.
Proof.
  apply (proj1 (step_dispatches_by_flags ex_round Qinv ex_kernel)
           None (cuda 0) ex_group (PInt 1) (PFloat (1 # 1000)) 1%Z
           (9 # 10) (999 # 1000) ex_collected ex_world).
  vm_compute. reflexivity.
Defined.

Lemma params_bucketed_by_dtype_witness :
  (ex_visit (5, None) empty_buckets ex_world).2 =
    Raise (RuntimeError "FusedAdam only support fp16 and fp32.") /\
  bucket_of_params
    (for_acc ex_visit ex_params empty_buckets ex_world).1
    (selected (w_heap ex_world) float16 (map fst ex_params))
    (b16 ex_collected) /\
  bucket_of_params
    (for_acc ex_visit ex_params empty_buckets ex_world).1
    (selected (w_heap ex_world) bfloat16 (map fst ex_params))
    (bbf ex_collected) /\
  bucket_of_params
    (for_acc ex_visit ex_params empty_buckets ex_world).1
    (selected (w_heap ex_world) float32 (map fst ex_params))
    (b32 ex_collected).
Proof.
  split.
  - apply (proj1 (proj2 (proj2 (params_bucketed_by_dtype ex_round)))
             5 None empty_buckets ex_world 6);
      [reflexivity|reflexivity|simpl; lia|reflexivity].
  - apply (proj2 (proj2 (proj2 (params_bucketed_by_dtype ex_round)))
             ex_params ex_world).
    + repeat constructor; simpl; lia.
    + vm_compute. reflexivity.
Defined.

Lemma moments_initialized_once_witness :
  has_moments (ex_step None None None None None None ex_world).1 0.
Proof.
  apply (proj1 (moments_initialized_once ex_round Qinv ex_kernel
                  ex_round_zero)
           None None ex_world _ None I ex_step_runs ex_group 0).
  - apply list_elem_of_here.
  - apply list_elem_of_here.
  - vm_compute. discriminate.
Defined.



Lemma master_weights_created_once_witness :
  exists w1 ms,
    create_master ex_round ex_world_capturable =
      (mkWorld (w_heap w1)
               (with_master (Some ms) (w_self ex_world_capturable))
               (w_trace ex_world_capturable), Ok tt) /\
    only_allocates ex_world_capturable w1 /\
    Forall2 (fun g m =>
               Forall2 (master_entry ex_round true
                          (w_heap ex_world_capturable) (w_heap w1))
                       (g_params g) m)
            (param_groups (w_self ex_world_capturable)) ms.
Proof.
  apply (proj1 (master_weights_created_once ex_round Qinv ex_kernel)
           ex_world_capturable); [reflexivity|].
  repeat constructor; simpl; lia.
Defined.

Lemma load_state_dict_converts_witness :
  moments_float32 (ex_load ex_loaded ex_world).1 0 /\
  exists x,
    item_value (h_tensor (w_heap ex_loaded) 9) = Some x /\
    step_at 0 (ex_load ex_loaded ex_world).1 = Some (Some x).
Proof.
  split.
  - apply (proj1 (load_state_dict_converts ex_round 0 0 t_elems World
                    ex_base_load)
             ex_loaded ex_world ex_loaded _ eq_refl ex_loaded_allocated
             ex_load_runs
             (mkGroup [0; 1; 2] (PFloat (1 # 1000)) (Some true)
                      (9 # 10, 999 # 1000)%Q (1 # 100000000) 0%Q
                      (Some (PTensor 9))) 0);
      apply list_elem_of_here.
  - apply (proj2 (load_state_dict_converts ex_round 0 0 t_elems World
                    ex_base_load)
             ex_loaded ex_world ex_loaded _ eq_refl eq_refl ex_load_runs 0
             (mkGroup [0; 1; 2] (PFloat (1 # 1000)) (Some true)
                      (9 # 10, 999 # 1000)%Q (1 # 100000000) 0%Q
                      (Some (PTensor 9))) 9);
      [reflexivity|reflexivity|simpl; lia].
Defined.

Lemma no_gradient_no_effect_witness :
  h_tensor (w_heap (ex_step None None None None None None ex_world).1) 1 =
    h_tensor (w_heap ex_world) 1 /\
  exists evs,
    w_trace (ex_step None None None None None None ex_world).1 =
      w_trace ex_world ++ evs /\
    Forall (clean_event 1) evs.
Proof.
  apply (proj2 (proj2 (no_gradient_no_effect ex_round Qinv ex_kernel))
           None None ex_world 1); [reflexivity|exact ex_apart].
Defined.

(** ** The further theorems on the small optimizer *)

Local Abbreviation ex_step_group := (step_group ex_round Qinv ex_kernel).
Local Abbreviation ex_load_param := (load_param ex_round).
Local Abbreviation ex_load_step := (load_step ex_round 0).

Lemma step_returns_closure_loss_witness :
  ex_step (Some ex_closure_fails) None None None None None ex_world =
    (mkWorld ex_heap ex_adam [EvClosure],
     Raise (OtherError "backward failed")).
Proof.
  apply (proj1 (step_returns_closure_loss ex_round Qinv ex_kernel)
           ex_closure_fails None ex_world ex_heap).
  reflexivity.
Defined.

Lemma sparse_gradient_stops_loop_witness :
  for_acc ex_visit ([(0, None); (1, None)] ++ (2, None) :: [])
          empty_buckets ex_world_sparse =
    ((for_acc ex_visit [(0, None); (1, None)] empty_buckets
              ex_world_sparse).1,
     Raise (RuntimeError
       "FusedAdam does not support sparse gradients, please consider SparseAdam instead")).
Proof.
  apply (sparse_gradient_stops_loop ex_round [(0, None); (1, None)] 2 None
           [] empty_buckets ex_world_sparse _
           (mkBuckets (mkBucket [3] [0] [7] [8] []) empty_bucket
                      empty_bucket) 4);
    [vm_compute; reflexivity|reflexivity|simpl; lia|reflexivity].
Defined.

Lemma counter_advances_before_errors_witness :
  step_at 0 (ex_step_group None (0, ex_group, [None; None; None])
                           ex_world_sparse).1 =
    Some (Some (PInt 1)).
Proof.
  apply (counter_advances_before_errors ex_round Qinv ex_kernel None 0
           ex_group ex_group [None; None; None] ex_world_sparse);
    [reflexivity|reflexivity|discriminate].
Defined.

Lemma empty_group_is_skipped_witness :
  group_at 2 (ex_step None None None None None None ex_world_grown).1 =
    Some ex_empty_group.
Proof.
  apply (empty_group_is_skipped ex_round Qinv ex_kernel None None None None
           None None ex_world_grown 2 ex_empty_group); reflexivity.
Defined.

Lemma group_without_master_is_skipped_witness :
  group_at 1 (ex_step None None None None None None ex_world_grown).1 =
    Some ex_late_group.
Proof.
  apply (group_without_master_is_skipped ex_round Qinv ex_kernel None None
           None None None None ex_world_grown [[None; None; None]] 1
           ex_late_group); [reflexivity|simpl; lia|reflexivity].
Defined.

Lemma step_keeps_hyperparameters_witness :
  rates_of (ex_step None None None None None None ex_world).1 =
    rates_of ex_world.
Proof.
  apply (proj2 (proj2 (step_keeps_hyperparameters ex_round Qinv ex_kernel
                         None None None None None None ex_world))).
  reflexivity.
Defined.

Lemma ex_step_group_runs :
  ex_step_group None (0, ex_group, [None; None; None]) ex_world =
    ((ex_step_group None (0, ex_group, [None; None; None]) ex_world).1,
     Ok tt).
Proof. vm_compute. reflexivity. Qed.

Lemma launches_carry_group_arguments_witness :
  exists cs,
    w_trace (ex_step_group None (0, ex_group, [None; None; None])
                           ex_world).1 =
      w_trace ex_world ++ map EvKernel cs /\
    Forall (fun c =>
              carries ex_group 1 c /\
              step_at 0 (ex_step_group None
                           (0, ex_group, [None; None; None]) ex_world).1 =
                Some (Some (k_step c)) /\
              g_lr <$> group_at 0 (ex_step_group None
                           (0, ex_group, [None; None; None]) ex_world).1 =
                Some (k_lr c)) cs.
Proof.
  apply (launches_carry_group_arguments ex_round Qinv ex_kernel None 0
           ex_group [None; None; None] ex_world _ eq_refl
           ex_step_group_runs).
Defined.

Lemma bucket_lists_have_equal_length_witness :
  Forall (fun b =>
            balanced false b /\
            Forall (fun l : list ref => length l = length (b_p b))
                   (lists_of false b))
         [b16 ex_collected; bbf ex_collected; b32 ex_collected].
Proof.
  apply (bucket_lists_have_equal_length ex_round ex_params ex_world
           (for_acc ex_visit ex_params empty_buckets ex_world).1
           ex_collected).
  vm_compute. reflexivity.
Defined.

Lemma ex_idle_no_gradients : no_gradients ex_world_idle.
Proof. intros p _. reflexivity. Qed.

Lemma step_without_gradients_launches_nothing_witness :
  w_trace (ex_step None None None None None None ex_world_idle).1 =
    w_trace ex_world_idle /\
  states_of (ex_step None None None None None None ex_world_idle).1 =
    states_of ex_world_idle.
Proof.
  apply (step_without_gradients_launches_nothing ex_round Qinv ex_kernel
           None None ex_world_idle ex_idle_no_gradients).
Defined.

Lemma incomplete_state_raises_key_error_witness :
  ex_visit (0, None) empty_buckets ex_world_foreign =
    (ex_world_foreign, Raise (KeyError "exp_avg")).
Proof.
  apply (proj1 (incomplete_state_raises_key_error ex_round 0 None
                  empty_buckets ex_world_foreign 3 (<["step" := 1]> ∅)
                  eq_refl eq_refl eq_refl
                  (insert_non_empty _ _ _) ltac:(discriminate)
                  ltac:(discriminate))).
  reflexivity.
Defined.

Lemma load_converts_moment_values_witness :
  exists w' m' v',
    ex_load_param 0 ex_loaded = (w', Ok tt) /\
    state (w_self w') !! 0 =
      Some (<["exp_avg_sq" := v']>
              (<["exp_avg" := m']>
                 (<["exp_avg" := 7]> (<["exp_avg_sq" := 8]> ∅)))) /\
    h_tensor (w_heap w') m' =
      t_to ex_round float32 (h_tensor (w_heap ex_loaded) 7) /\
    h_tensor (w_heap w') v' =
      t_to ex_round float32 (h_tensor (w_heap ex_loaded) 8) /\
    (forall r, r < h_next (w_heap ex_loaded) ->
               h_tensor (w_heap w') r = h_tensor (w_heap ex_loaded) r) /\
    (t_dtype (h_tensor (w_heap ex_loaded) 7) = float32 -> m' = 7) /\
    (t_dtype (h_tensor (w_heap ex_loaded) 8) = float32 -> v' = 8).
Proof.
  apply (load_converts_moment_values ex_round 0 ex_loaded
           (<["exp_avg" := 7]> (<["exp_avg_sq" := 8]> ∅)) 7 8);
    [reflexivity|reflexivity|reflexivity|simpl; lia|simpl; lia].
Defined.

Lemma load_incomplete_state_raises_witness :
  exists w' m',
    ex_load_param 0 ex_loaded_partial =
      (w', Raise (KeyError "exp_avg_sq")) /\
    state (w_self w') !! 0 =
      Some (<["exp_avg" := m']> (<["exp_avg" := 7]> ∅)) /\
    h_tensor (w_heap w') m' =
      t_to ex_round float32 (h_tensor (w_heap ex_loaded_partial) 7).
Proof.
  apply (load_incomplete_state_raises ex_round 0 ex_loaded_partial
           (<["exp_avg" := 7]> ∅) 7); reflexivity.
Defined.

Lemma load_installs_broadcast_counter_witness :
  exists w',
    ex_load_step 1 t_elems 0 ex_counted_group ex_world_capturable =
      (w', Ok tt) /\
    param_groups (w_self w') =
      alter (set_step (PTensor 8)) 0
            (param_groups (w_self ex_world_capturable)) /\
    h_tensor (w_heap w') 8 =
      mkTensor int32 [1] (cuda 0) false [0%Q].
Proof.
  apply (proj1 (load_installs_broadcast_counter ex_round 0 1 t_elems 0
                  ex_counted_group ex_world_capturable eq_refl)
           (PInt 3)); [discriminate|reflexivity].
Defined.

Lemma ex_load_capturable_runs :
  ex_load ex_loaded_capturable ex_world =
    ((ex_load ex_loaded_capturable ex_world).1, Ok tt).
Proof. vm_compute. reflexivity. Qed.

Lemma load_capturable_installs_tensors_witness :
  exists g',
    group_at 0 (ex_load ex_loaded_capturable ex_world).1 = Some g' /\
    is_tensor (g_lr g') /\
    (Some (PTensor 9) <> None ->
     exists v, g_step g' = Some v /\ is_tensor v).
Proof.
  apply (load_capturable_installs_tensors ex_round 0 0 t_elems World
           ex_base_load ex_loaded_capturable ex_world ex_loaded_capturable
           _ eq_refl eq_refl ex_load_capturable_runs 0
           (mkGroup [0; 1; 2] (PFloat (1 # 1000)) (Some true)
                    (9 # 10, 999 # 1000)%Q (1 # 100000000) 0%Q
                    (Some (PTensor 9)))).
  reflexivity.
Defined.

Lemma load_noncapturable_keeps_groups_witness :
  rates_of (ex_load ex_loaded ex_world).1 = rates_of ex_loaded /\
  hypers_of (ex_load ex_loaded ex_world).1 = hypers_of ex_loaded /\
  forall i g,
    group_at i ex_loaded = Some g ->
    (forall r, g_step g <> Some (PTensor r)) ->
    group_at i (ex_load ex_loaded ex_world).1 = Some g.
Proof.
  apply (load_noncapturable_keeps_groups ex_round 0 0 t_elems World
           ex_base_load ex_loaded ex_world ex_loaded eq_refl eq_refl).
Defined.

Lemma ex_two_steps_run :
  step_times ex_round Qinv ex_kernel None 2 ex_world =
    ((step_times ex_round Qinv ex_kernel None 2 ex_world).1, Ok tt).
Proof. vm_compute. reflexivity. Qed.

Lemma counter_counts_the_calls_witness :
  step_at 0 (step_times ex_round Qinv ex_kernel None 2 ex_world).1 =
    Some (Some (PInt 2)).
Proof.
  apply (proj2 (counter_counts_the_calls ex_round Qinv ex_kernel None 1
                  ex_world _ 0 ex_group eq_refl I eq_refl
                  ltac:(discriminate) ex_two_steps_run)).
  reflexivity.
Defined.

Lemma ex_step_capturable_runs :
  ex_step None None None None None None ex_world_capturable =
    ((ex_step None None None None None None ex_world_capturable).1,
     Ok None).
Proof. vm_compute. reflexivity. Qed.

Lemma step_without_scaler_clears_overflow_witness :
  dummy_overflow_buf
    (w_self (ex_step None None None None None None
                     ex_world_capturable).1) = 0%Z /\
  overflow_increment
    (dummy_overflow_buf
       (w_self (ex_step None None None None None None
                        ex_world_capturable).1)) = 1%Z.
Proof.
  apply (step_without_scaler_clears_overflow ex_round Qinv ex_kernel None
           ex_world_capturable _ None 0 ex_group eq_refl I eq_refl
           ltac:(discriminate) ex_step_capturable_runs).
Defined.


Lemma ex_init_runs :
  init ex_round [mkSpec [0; 1; 2] None] (1 # 1000) true
       (9 # 10, 999 # 1000)%Q (1 # 100000000) true 0%Q
       false true false true ex_heap =
    ((init ex_round [mkSpec [0; 1; 2] None] (1 # 1000) true
           (9 # 10, 999 # 1000)%Q (1 # 100000000) true 0%Q
           false true false true ex_heap).1,
     Ok ex_adam_built).
Proof. vm_compute. reflexivity. Qed.

Lemma init_builds_optimizer_witness :
  (false = false /\ (false = true -> true = true) /\ true = true) /\
  (capturable ex_adam_built = true /\
   master_weights ex_adam_built = false /\
   adam_w_mode ex_adam_built = 1%Z /\
   step_supports_amp_scaling ex_adam_built = true) /\
  (param_groups_master ex_adam_built = None /\
   state ex_adam_built = ∅ /\ dummy_overflow_buf ex_adam_built = 0%Z) /\
  map g_params (param_groups ex_adam_built) =
    map ps_params [mkSpec [0; 1; 2] None] /\
  Forall (fun g => g_step g = None) (param_groups ex_adam_built) /\
  (true = true ->
   Forall (fun g => g_params g <> [] -> is_tensor (g_lr g))
          (param_groups ex_adam_built)).
Proof.
  apply (init_builds_optimizer ex_round [mkSpec [0; 1; 2] None] (1 # 1000)
           true (9 # 10, 999 # 1000)%Q (1 # 100000000) true 0%Q
           false true false true ex_heap _ ex_adam_built ex_init_runs).
Defined.

Lemma init_capturable_refuses_integer_lr_witness :
  Forall (fun ps => ps_params ps <> [] ->
                    forall z, ps_lr ps <> Some (PInt z))
         [mkSpec [0; 1; 2] None].
Proof.
  apply (init_capturable_refuses_integer_lr ex_round
           [mkSpec [0; 1; 2] None] (1 # 1000) true (9 # 10, 999 # 1000)%Q
           (1 # 100000000) true 0%Q false false true ex_heap _
           ex_adam_built ex_init_runs).
Defined.

(** ** A group added after the first call

    The class inherits [add_param_group].  [step] builds
    [param_groups_master] at its first call only and then walks
    [zip(self.param_groups, self.param_groups_master)], so a group that is
    added later has no partner in the zip.  The scenario: the optimizer is
    built for parameters [0], [1], [2] and makes one call; the group
    [ex_late_layers] is added; the optimizer makes a second call. *)

Local Abbreviation ex_first :=
  (ex_step None None None None None None ex_world_wide).1.
Local Abbreviation ex_grown := (add_param_group ex_late_layers ex_first).1.
Local Abbreviation ex_second :=
  (ex_step None None None None None None ex_grown).


(** C2: the added group holds parameter [7] ([float32]) and parameter
    [5] ([float64]), both with a dense gradient.  The loop over the
    parameters, run on this group, would place [7] and raise
    [RuntimeError] at [5]; the second call of [step] never runs it: it
    returns normally, no [RuntimeError] is raised for the [float64]
    parameter, and neither parameter has been visited (a visit creates
    the state dictionary of the parameter). *)
Theorem late_group_is_never_bucketed :
  ex_second.2 = Ok None /\
  param_groups (w_self ex_grown) !! 1 = Some ex_late_layers /\
  (h_grad (w_heap ex_grown) 5 = Some 6 /\
   t_sparse (h_tensor (w_heap ex_grown) 6) = false /\
   t_dtype (h_tensor (w_heap ex_grown) 5) = float64) /\
  (for_acc ex_visit [(7, None); (5, None)] empty_buckets ex_grown).2 =
    Raise (RuntimeError "FusedAdam only support fp16 and fp32.") /\
  state (w_self ex_second.1) !! 5 = None /\
  state (w_self ex_second.1) !! 7 = None.
Proof. repeat split; vm_compute; reflexivity. Qed.

(** C3: after the second call, which returns normally, parameter [7] of
    the added group has a gradient and no ["exp_avg"] and no
    ["exp_avg_sq"]: [self.state] has no entry for it.  The parameters of
    the first group have their moments. *)
Theorem late_group_gets_no_moments :
  ex_second.2 = Ok None /\
  param_groups (w_self ex_second.1) !! 1 = Some ex_late_layers /\
  grads_of ex_second.1 7 = Some 8 /\
  ~ has_moments ex_second.1 7 /\
  has_moments ex_second.1 0.
Proof.
  split; [vm_compute; reflexivity|]. split; [vm_compute; reflexivity|].
  split; [vm_compute; reflexivity|]. split.
  - intros (d & m & v & Hd & _). vm_compute in Hd. discriminate.
  - eexists _, 9, 10. split; [|split]; vm_compute; reflexivity.
Qed.

(** C4: the optimizer is not capturable and the added group is not
    empty.  The second call returns normally and advances the counter of
    the first group to 2, but the added group has no ["step"] key after
    it, nor after one more call. *)
Theorem late_group_gets_no_counter :
  ex_second.2 = Ok None /\
  capturable (w_self ex_grown) = false /\
  group_at 1 ex_grown = Some ex_late_layers /\
  g_params ex_late_layers = [7; 5] /\
  step_at 0 ex_second.1 = Some (Some (PInt 2)) /\
  step_at 1 ex_second.1 = Some None /\
  step_at 1 (ex_step None None None None None None ex_second.1).1 =
    Some None.
Proof. repeat split; vm_compute; reflexivity. Qed.
